(** * wt: environment templating and port-offset engine

    A shallow embedding of the parts of the [wt] worktree manager that
    rewrite per-worktree environment files:

    - [ConfigLoader.parseConfig] and [ConfigLoader.parseArray] (the class
      [ConfigLoader], in src/git-manager.ts), which read [.wt.conf], and
      [ConfigLoader.loadConfig];
    - [EnvironmentUpdater] (src/environment-updater.ts): the port offset,
      the template substitution and the three file-update strategies;
    - [GitManager] (src/git-manager.ts): the project name, the main
      worktree, the names and the index of the worktrees.

    The JavaScript runtime pieces the code relies on (strings, [parseInt],
    [RegExp], [String.prototype.replace], plain objects used as maps, the
    [fs-extra] calls) are modelled in module [Js].

    Modelling conventions.
    - A JavaScript string is a [list ascii]: one [ascii] per code unit, so
      the model covers strings whose code units are below 256.  In that
      range the line terminators are LF and CR and the white space of
      [trim] is TAB, LF, VT, FF, CR, SP and NBSP.
    - A JavaScript number that holds a port, an index or an offset is
      [Num z] with [z : Z], or [NaN]; arithmetic and printing are those
      of the integers.  The code's doubles agree with them as long as
      the integers involved are below 2^53 in magnitude, and a statement
      that names a computed or a printed number assumes that.
    - A plain object used as a map is an association list of its own
      properties in insertion order, which [Object.entries] enumerates
      with the array indices first.  Reading a property that the object
      does not own finds the members of [Object.prototype], and
      assigning to [__proto__] adds no property.
    - A regular expression is parsed and matched by a backtracking matcher
      for a fragment of the syntax; a pattern outside the fragment is
      reported as such and nothing is stated about it.
    - The index resolver ([git worktree list]) is a collaborator of
      [EnvironmentUpdater]: its answer is a parameter.  [GitManager]
      itself is modelled over the answers of the git commands it runs
      (module [Git]).
    - The file system is a finite map from full path to content.  It
      does not record the directories: a directory exists when a file
      lies in it, or when it is not among the directories given as
      missing.  A path that the engine reads or writes is taken to name
      a file or nothing, not a directory, and the I/O errors are those
      of a missing file or a missing directory. *)

From Stdlib Require Import ZArith Ascii String List Lia DecimalString.
From Stdlib Require Import DecimalPos.
From stdpp Require Import base option list gmap strings.

Local Open Scope Z_scope.
Local Open Scope list_scope.

Abbreviation jsstring := (list ascii).

(** ** JavaScript runtime *)
Module Js.

(** String literals: [js "abc"] is the JavaScript string "abc". *)
Definition js (s : string) : jsstring := list_ascii_of_string s.

Definition TAB : ascii := ascii_of_nat 9.
Definition LF : ascii := ascii_of_nat 10.
Definition VT : ascii := ascii_of_nat 11.
Definition FF : ascii := ascii_of_nat 12.
Definition CR : ascii := ascii_of_nat 13.
Definition SP : ascii := ascii_of_nat 32.
Definition NBSP : ascii := ascii_of_nat 160.

(** LineTerminator of the ECMAScript grammar, restricted to 8-bit code
    units. *)
Definition is_line_terminator (c : ascii) : bool :=
  Ascii.eqb c LF || Ascii.eqb c CR.

(** WhiteSpace and LineTerminator, as stripped by [trim] and skipped by
    [parseInt]. *)
Definition is_whitespace (c : ascii) : bool :=
  existsb (Ascii.eqb c) [TAB; LF; VT; FF; CR; SP; NBSP].

Fixpoint trimStart (s : jsstring) : jsstring :=
  match s with
  | c :: s' => if is_whitespace c then trimStart s' else s
  | [] => []
  end.

Definition trimEnd (s : jsstring) : jsstring :=
  rev (trimStart (rev s)).

Definition trim (s : jsstring) : jsstring := trimEnd (trimStart s).

(** [s.split(sep)] for a one-character separator. *)
Fixpoint split (sep : ascii) (s : jsstring) : list jsstring :=
  match s with
  | [] => [[]]
  | c :: s' =>
      if Ascii.eqb c sep then [] :: split sep s'
      else match split sep s' with
           | w :: ws => (c :: w) :: ws
           | [] => [[c]]
           end
  end.

Fixpoint startsWith (s p : jsstring) {struct p} : bool :=
  match p with
  | [] => true
  | c :: p' =>
      match s with
      | d :: s' => Ascii.eqb c d && startsWith s' p'
      | [] => false
      end
  end.

Definition str_eqb (s t : jsstring) : bool := bool_decide (s = t).

(** [arr.includes(v)] on an array of strings. *)
Definition includes (arr : list jsstring) (v : jsstring) : bool :=
  existsb (str_eqb v) arr.

Definition lower_char (c : ascii) : ascii :=
  let n := nat_of_ascii c in
  if ((65 <=? n) && (n <=? 90))%nat then ascii_of_nat (n + 32)
  else if ((192 <=? n) && (n <=? 222) && negb (n =? 215))%nat
       then ascii_of_nat (n + 32)
       else c.

Definition toLowerCase (s : jsstring) : jsstring := map lower_char s.

(** *** Numbers *)

Inductive number : Type :=
| Num (z : Z)
| NaN.

Definition add (a b : number) : number :=
  match a, b with
  | Num x, Num y => Num (x + y)
  | _, _ => NaN
  end.

(** ToBoolean on a number: [0] and [NaN] are falsy. *)
Definition truthy (a : number) : bool :=
  match a with
  | Num z => negb (z =? 0)
  | NaN => false
  end.

Definition Z_toString (z : Z) : jsstring :=
  js (NilZero.string_of_int (Z.to_int z)).

Definition toString (a : number) : jsstring :=
  match a with
  | Num z => Z_toString z
  | NaN => js "NaN"
  end.

(** [Number.isSafeInteger]: the integers of magnitude below 2^53, which
    a double holds exactly.  A sum or a product of the code whose
    operands and result are among them is that of the integers, and
    [toString] prints every digit of such a number. *)
Definition safe_integer (z : Z) : bool := Z.abs z <? 2 ^ 53.

Definition safe_number (a : number) : bool :=
  match a with
  | Num z => safe_integer z
  | NaN => true
  end.

Definition is_digit (c : ascii) : bool :=
  let n := nat_of_ascii c in ((48 <=? n) && (n <=? 57))%nat.

Definition digit_value (c : ascii) : Z := Z.of_nat (nat_of_ascii c) - 48.

Fixpoint digits_prefix (s : jsstring) : jsstring :=
  match s with
  | c :: s' => if is_digit c then c :: digits_prefix s' else []
  | [] => []
  end.

Definition digits_value (ds : jsstring) : Z :=
  fold_left (fun acc c => 10 * acc + digit_value c) ds 0.

(** [parseInt(s, 10)]: leading white space is skipped, one sign is
    accepted, the longest prefix of decimal digits is read; with no digit
    the result is [NaN]. *)
Definition parseInt (s : jsstring) : number :=
  let s1 := trimStart s in
  let '(neg, s2) :=
    match s1 with
    | c :: r =>
        if Ascii.eqb c "-" then (true, r)
        else if Ascii.eqb c "+" then (false, r)
        else (false, s1)
    | [] => (false, s1)
    end in
  match digits_prefix s2 with
  | [] => NaN
  | ds => Num (if neg : bool then - digits_value ds else digits_value ds)
  end.

(** *** Plain objects used as maps *)

Abbreviation object V := (list (jsstring * V)).

(** The own property [k] of [o]. *)
Fixpoint own_get {V} (o : object V) (k : jsstring) : option V :=
  match o with
  | [] => None
  | (k', v) :: o' => if str_eqb k k' then Some v else own_get o' k
  end.

(** What a plain object inherits from [Object.prototype]: eleven methods
    and the accessor [__proto__], whose value is the prototype itself. *)
Inductive inherited : Type :=
| Method (name : jsstring)
| Prototype.

Definition prototype_methods : list jsstring :=
  map js ["constructor"; "__defineGetter__"; "__defineSetter__";
          "hasOwnProperty"; "__lookupGetter__"; "__lookupSetter__";
          "isPrototypeOf"; "propertyIsEnumerable"; "toString"; "valueOf";
          "toLocaleString"]%string.

Definition prototype_member (k : jsstring) : option inherited :=
  if str_eqb k (js "__proto__") then Some Prototype
  else if includes prototype_methods k then Some (Method k)
  else None.

(** The value of [o[k]]. *)
Inductive property (V : Type) : Type :=
| Own (v : V)
| Inherited (i : inherited)
| Undefined.

Arguments Own {V} v.
Arguments Inherited {V} i.
Arguments Undefined {V}.

(** [o[k]]: the own property, or else the member of the prototype. *)
Definition obj_get {V} (o : object V) (k : jsstring) : property V :=
  match own_get o k with
  | Some v => Own v
  | None =>
      match prototype_member k with
      | Some i => Inherited i
      | None => Undefined
      end
  end.

(** ToString of an inherited value, as [+] and a template literal apply
    it: the source text of a built-in function (the method [constructor]
    is the function [Object]), and the tag of an object. *)
Definition inherited_toString (i : inherited) : jsstring :=
  match i with
  | Method name =>
      js "function "
      ++ (if str_eqb name (js "constructor") then js "Object" else name)
      ++ js "() { [native code] }"
  | Prototype => js "[object Object]"
  end.

(** [o[k] = v] for a primitive [v]: an existing property keeps its
    place; on an object that does not own [__proto__] the assignment
    reaches the accessor of the prototype, which ignores a primitive. *)
Fixpoint obj_set {V} (o : object V) (k : jsstring) (v : V) : object V :=
  match o with
  | [] => if str_eqb k (js "__proto__") then [] else [(k, v)]
  | (k', v') :: o' =>
      if str_eqb k k' then (k, v) :: o' else (k', v') :: obj_set o' k v
  end.

(** A property name that is a canonical array index (a decimal numeral
    without leading zero, below 2^32 - 1): such names are enumerated
    first, in ascending numeric order. *)
Definition array_index (k : jsstring) : option Z :=
  match k with
  | [] => None
  | c :: r =>
      if forallb is_digit k
         && (negb (Ascii.eqb c "0") || match r with [] => true | _ => false end)
         && (digits_value k <? 4294967295)
      then Some (digits_value k) else None
  end.

Fixpoint insert_index {V} (i : Z) (e : jsstring * V)
    (l : list (Z * (jsstring * V))) : list (Z * (jsstring * V)) :=
  match l with
  | [] => [(i, e)]
  | (j, e') :: l' =>
      if i <? j then (i, e) :: l else (j, e') :: insert_index i e l'
  end.

Fixpoint index_entries {V} (o : object V) : list (Z * (jsstring * V)) :=
  match o with
  | [] => []
  | (k, v) :: o' =>
      match array_index k with
      | Some i => insert_index i (k, v) (index_entries o')
      | None => index_entries o'
      end
  end.

Definition named_entries {V} (o : object V) : list (jsstring * V) :=
  filter (fun e => array_index (fst e) = None) o.

(** [Object.entries(o)]. *)
Definition entries {V} (o : object V) : list (jsstring * V) :=
  map snd (index_entries o) ++ named_entries o.


(** *** Exceptions *)

(** What a call can throw.  [Unsupported] is not a JavaScript exception:
    it marks a pattern that lies outside the fragment of the regular
    expression syntax modelled below, about which nothing is claimed. *)
Inductive exn : Type :=
| SyntaxError
| TypeError
| ENOENT
| GitError
| Unsupported.

(** *** Regular expressions

    The fragment covers what the engine builds itself ([^NAME=.*$] and
    [\{\{NAME\}\}]) and literal search patterns: pattern characters,
    escaped syntax characters, the dot, the assertions [^] and [$], and
    the greedy quantifiers [*], [+] and [?] on one atom.  Groups,
    classes, alternation, braces, lazy quantifiers and the other escapes
    are reported as [Unsupported]. *)

Inductive atom : Type :=
| AChar (c : ascii)
| AAny.

Inductive quantifier : Type := QOne | QStar | QPlus | QOpt.

Inductive term : Type :=
| TBol
| TEol
| TAtom (a : atom) (q : quantifier).

Record RegExp : Type := mkRegExp {
  source : list term;
  global : bool;
  multiline : bool
}.

Inductive token : Type :=
| KChar (c : ascii)
| KDot
| KBol
| KEol
| KQuant (q : quantifier)
| KBad (e : exn).

(** SyntaxCharacter of the grammar, and the slash. *)
Definition is_syntax_char (c : ascii) : bool :=
  existsb (Ascii.eqb c) (js "^$\.*+?()[]{}|/").

Definition token_of_char (c : ascii) : token :=
  if Ascii.eqb c "^" then KBol
  else if Ascii.eqb c "$" then KEol
  else if Ascii.eqb c "." then KDot
  else if Ascii.eqb c "*" then KQuant QStar
  else if Ascii.eqb c "+" then KQuant QPlus
  else if Ascii.eqb c "?" then KQuant QOpt
  else if Ascii.eqb c ")" then KBad SyntaxError
  else if existsb (Ascii.eqb c) (js "([{|") then KBad Unsupported
  else KChar c.

Fixpoint tokenize (p : jsstring) : list token :=
  match p with
  | [] => []
  | c :: p1 =>
      if Ascii.eqb c "\" then
        match p1 with
        | [] => [KBad SyntaxError]
        | e :: p2 =>
            if is_syntax_char e then KChar e :: tokenize p2
            else [KBad Unsupported]
        end
      else token_of_char c :: tokenize p1
  end.

Definition cons_term (t : term) (r : exn + list term) : exn + list term :=
  match r with
  | inl e => inl e
  | inr ts => inr (t :: ts)
  end.

(** After a quantifier, [?] would make it lazy. *)
Definition lazy_follows (ks : list token) : bool :=
  match ks with
  | KQuant QOpt :: _ => true
  | _ => false
  end.

Fixpoint parse_tokens (ks : list token) : exn + list term :=
  match ks with
  | [] => inr []
  | KBad e :: _ => inl e
  | KQuant _ :: _ => inl SyntaxError
  | KBol :: ks1 => cons_term TBol (parse_tokens ks1)
  | KEol :: ks1 => cons_term TEol (parse_tokens ks1)
  | (KChar _ | KDot) as k :: ks1 =>
      let a := match k with KChar c => AChar c | _ => AAny end in
      match ks1 with
      | KQuant q :: ks2 =>
          if lazy_follows ks2 then inl Unsupported
          else cons_term (TAtom a q) (parse_tokens ks2)
      | _ => cons_term (TAtom a QOne) (parse_tokens ks1)
      end
  end.

(** [new RegExp(pattern, flags)] for the flags [g] and [gm];
    [pattern = None] is [undefined], which yields the empty pattern. *)
Definition RegExp_new (pattern : option jsstring) (g m : bool)
    : exn + RegExp :=
  match parse_tokens (tokenize (default [] pattern)) with
  | inl e => inl e
  | inr ts => inr (mkRegExp ts g m)
  end.

Definition atom_matches (a : atom) (c : ascii) : bool :=
  match a with
  | AChar d => Ascii.eqb c d
  | AAny => negb (is_line_terminator c)
  end.

Definition at_bol (m : bool) (prev : option ascii) : bool :=
  match prev with
  | None => true
  | Some c => m && is_line_terminator c
  end.

Definition at_eol (m : bool) (s : jsstring) : bool :=
  match s with
  | [] => true
  | c :: _ => m && is_line_terminator c
  end.

(** The greedy iteration of one atom: as many code units as match, then
    the continuation [k]; on failure one code unit is given back. *)
Fixpoint star_loop (a : atom) (k : option ascii -> jsstring -> option nat)
    (prev : option ascii) (s : jsstring) : option nat :=
  match s with
  | c :: s' =>
      if atom_matches a c then
        match star_loop a k (Some c) s' with
        | Some n => Some (S n)
        | None => k prev s
        end
      else k prev s
  | [] => k prev s
  end.

(** Backtracking match of a term list at one position: [prev] is the code
    unit before the position, [s] the input from the position on.  The
    result is the length of the match. *)
Fixpoint match_terms (m : bool) (ts : list term) (prev : option ascii)
    (s : jsstring) : option nat :=
  match ts with
  | [] => Some 0%nat
  | TBol :: ts' => if at_bol m prev then match_terms m ts' prev s else None
  | TEol :: ts' => if at_eol m s then match_terms m ts' prev s else None
  | TAtom a QOne :: ts' =>
      match s with
      | c :: s' =>
          if atom_matches a c
          then option_map S (match_terms m ts' (Some c) s')
          else None
      | [] => None
      end
  | TAtom a QStar :: ts' => star_loop a (match_terms m ts') prev s
  | TAtom a QPlus :: ts' =>
      match s with
      | c :: s' =>
          if atom_matches a c
          then option_map S (star_loop a (match_terms m ts') (Some c) s')
          else None
      | [] => None
      end
  | TAtom a QOpt :: ts' =>
      match s with
      | c :: s' =>
          if atom_matches a c then
            match match_terms m ts' (Some c) s' with
            | Some n => Some (S n)
            | None => match_terms m ts' prev s
            end
          else match_terms m ts' prev s
      | [] => match_terms m ts' prev s
      end
  end.

Definition match_at (r : RegExp) (prev : option ascii) (s : jsstring)
    : option nat :=
  match_terms (multiline r) (source r) prev s.

(** Leftmost match at or after the position: offset and length. *)
Fixpoint search (r : RegExp) (prev : option ascii) (s : jsstring)
    : option (nat * nat) :=
  match match_at r prev s with
  | Some n => Some (0%nat, n)
  | None =>
      match s with
      | c :: s' =>
          match search r (Some c) s' with
          | Some (i, n) => Some (S i, n)
          | None => None
          end
      | [] => None
      end
  end.

(** [r.test(s)] on a freshly built expression ([lastIndex] is 0). *)
Definition test (r : RegExp) (s : jsstring) : bool :=
  match search r None s with Some _ => true | None => false end.

(** GetSubstitution for an expression without capture groups: [$$], [$&],
    [$`] and [$'] are expanded, any other [$] stands for itself. *)
Fixpoint expand (repl matched before after : jsstring) : jsstring :=
  match repl with
  | [] => []
  | c :: r1 =>
      if Ascii.eqb c "$" then
        match r1 with
        | d :: r2 =>
            if Ascii.eqb d "$" then "$"%char :: expand r2 matched before after
            else if Ascii.eqb d "&" then matched ++ expand r2 matched before after
            else if Ascii.eqb d "`" then before ++ expand r2 matched before after
            else if Ascii.eqb d "'" then after ++ expand r2 matched before after
            else "$"%char :: expand r1 matched before after
        | [] => ["$"%char]
        end
      else c :: expand r1 matched before after
  end.

(** The loop of [s.replace(r, repl)] for a global expression.  [seen] is
    the input before the position (reversed), [s] the input from the
    position on, [skip] the number of code units of [s] that belong to
    the previous match.  After an empty match the position advances by
    one code unit. *)
Fixpoint replace_loop (r : RegExp) (repl : jsstring) (seen : jsstring)
    (s : jsstring) (skip : nat) : jsstring :=
  match skip with
  | S k =>
      match s with
      | c :: s' => replace_loop r repl (c :: seen) s' k
      | [] => []
      end
  | O =>
      match match_at r (head seen) s with
      | Some n =>
          expand repl (take n s) (rev seen) (drop n s) ++
          match s with
          | c :: s' =>
              match n with
              | O => c :: replace_loop r repl (c :: seen) s' 0
              | S k => replace_loop r repl (c :: seen) s' k
              end
          | [] => []
          end
      | None =>
          match s with
          | c :: s' => c :: replace_loop r repl (c :: seen) s' 0
          | [] => []
          end
      end
  end.

(** [s.replace(r, repl)] with a string replacement. *)
Definition replace (s : jsstring) (r : RegExp) (repl : jsstring) : jsstring :=
  if global r then replace_loop r repl [] s 0
  else
    match search r None s with
    | Some (i, n) =>
        take i s ++ expand repl (take n (drop i s)) (take i s) (drop (i + n) s)
        ++ drop (i + n) s
    | None => s
    end.

(** *** Splitting on white space, searching and replacing a text *)

(** [s.split(/\s+/)]: the pieces between the runs of white space (the
    class [\s] is the white space of [trim]).  [in_run] tells that the
    position is inside such a run; a run at the start or at the end gives
    an empty piece. *)
Fixpoint split_ws_from (in_run : bool) (s : jsstring) : list jsstring :=
  match s with
  | [] => [[]]
  | c :: s' =>
      if is_whitespace c then
        if in_run then split_ws_from true s'
        else [] :: split_ws_from true s'
      else match split_ws_from false s' with
           | w :: ws => (c :: w) :: ws
           | [] => [[c]]
           end
  end.

Definition split_ws (s : jsstring) : list jsstring := split_ws_from false s.

(** [s.indexOf(pat)]; [None] stands for -1. *)
Fixpoint indexOf (s pat : jsstring) : option nat :=
  if startsWith s pat then Some 0%nat
  else match s with
       | _ :: s' => option_map S (indexOf s' pat)
       | [] => None
       end.

(** [s.replace(pat, repl)] with a string pattern: the first occurrence is
    replaced, and [repl] is a replacement string as for an expression. *)
Definition replaceString (s pat repl : jsstring) : jsstring :=
  match indexOf s pat with
  | Some i =>
      take i s
      ++ expand repl pat (take i s) (drop (i + length pat) s)
      ++ drop (i + length pat) s
  | None => s
  end.

End Js.

(** ** Paths, files and the asynchronous calls *)
Module Fs.
Import Js.

(** Joining with a one-character separator, the inverse of [Js.split]. *)
Fixpoint join_with (sep : ascii) (parts : list jsstring) : jsstring :=
  match parts with
  | [] => []
  | [p] => p
  | p :: rest => p ++ sep :: join_with sep rest
  end.

(** One step of the segment scan of [path.normalize]: [acc] is the
    normalised path so far, last segment first. *)
Definition push_segment (allowAboveRoot : bool) (acc : list jsstring)
    (seg : jsstring) : list jsstring :=
  if str_eqb seg [] || str_eqb seg (js ".") then acc
  else if str_eqb seg (js "..") then
    match acc with
    | last :: acc' =>
        if str_eqb last (js "..") then seg :: acc else acc'
    | [] => if allowAboveRoot then [seg] else []
    end
  else seg :: acc.

(** [path.posix.normalize]. *)
Definition normalize (p : jsstring) : jsstring :=
  match p with
  | [] => js "."
  | c :: _ =>
      let isAbsolute := Ascii.eqb c "/" in
      let trailing :=
        match rev p with d :: _ => Ascii.eqb d "/" | [] => false end in
      let segs :=
        rev (fold_left (push_segment (negb isAbsolute)) (split "/" p) []) in
      let body := join_with "/" segs in
      match body with
      | [] => if isAbsolute then js "/" else if trailing then js "./" else js "."
      | _ =>
          (if isAbsolute then js "/" else []) ++ body
          ++ (if trailing then js "/" else [])
      end
  end.

(** [path.join(a, b)] (POSIX). *)
Definition path_join (a b : jsstring) : jsstring :=
  normalize
    (join_with "/" (filter (fun s : jsstring => s <> []) [a; b])).

(** [path.posix.basename(p)]: the trailing slashes are dropped, then the
    last segment is taken. *)
Fixpoint skip_slashes (r : jsstring) : jsstring :=
  match r with
  | c :: r' => if Ascii.eqb c "/" then skip_slashes r' else r
  | [] => []
  end.

Fixpoint up_to_slash (r : jsstring) : jsstring :=
  match r with
  | c :: r' => if Ascii.eqb c "/" then [] else c :: up_to_slash r'
  | [] => []
  end.

Definition basename (p : jsstring) : jsstring :=
  rev (up_to_slash (skip_slashes (rev p))).

(** The file system: content by full path. *)
Abbreviation Files := (gmap jsstring jsstring).

(** The directories that do not exist when the engine starts.  Such a
    directory exists later once a file lies in it ([fs.ensureFile] makes
    the directories of the file). *)
Class Directories : Type := missing : jsstring -> bool.

(** Where the directories are not named, none is missing. *)
#[export] Instance every_directory : Directories := fun _ => false.

(** The directory that holds [p]: the text before the last slash; a path
    without slash lies in the working directory. *)
Fixpoint after_slash (r : jsstring) : option jsstring :=
  match r with
  | c :: r' => if Ascii.eqb c "/" then Some r' else after_slash r'
  | [] => None
  end.

Definition parent (p : jsstring) : option jsstring :=
  option_map (@rev ascii) (after_slash (rev p)).

(** The path can name a file: it is not empty and does not end in a
    slash. *)
Definition names_file (p : jsstring) : bool :=
  match rev p with
  | c :: _ => negb (Ascii.eqb c "/")
  | [] => false
  end.

Definition has_file_in (fs : Files) (d : jsstring) : bool :=
  existsb (fun e : jsstring * jsstring => startsWith (fst e) (d ++ js "/"))
    (map_to_list fs).

(** The path [p] is free for a file: it can name one, no file lies
    below it, and no file stands where the path needs a directory. *)
Definition free_path (fs : Files) (p : jsstring) : bool :=
  names_file p
  && negb (has_file_in fs p)
  && negb (existsb (fun e : jsstring * jsstring =>
                      startsWith p (fst e ++ js "/")) (map_to_list fs)).

(** The file [p] can be created: its directory exists. *)
Definition creatable `{Directories} (fs : Files) (p : jsstring) : bool :=
  match parent p with
  | Some d => if missing d then has_file_in fs d else true
  | None => true
  end.

(** An asynchronous call: it reads and writes the file system and either
    returns or throws; what it wrote before throwing stays written. *)
Definition IO (A : Type) : Type := Files -> (exn + A) * Files.

Definition ret {A} (a : A) : IO A := fun fs => (inr a, fs).

Definition bind {A B} (m : IO A) (k : A -> IO B) : IO B :=
  fun fs =>
    match m fs with
    | (inr a, fs') => k a fs'
    | (inl e, fs') => (inl e, fs')
    end.

(** Lifting a computation that does no I/O but may throw. *)
Definition lift {A} (r : exn + A) : IO A := fun fs => (r, fs).

Declare Scope io_scope.
Delimit Scope io_scope with io.
Notation "x <- m ;; k" := (bind m (fun x => k))
  (at level 100, m at next level, right associativity) : io_scope.
Notation "m ;;; k" := (bind m (fun _ => k))
  (at level 100, right associativity) : io_scope.

Definition pathExists (p : jsstring) : IO bool :=
  fun fs => (inr (bool_decide (is_Some (fs !! p))), fs).

(** [fs.ensureFile]: creates the file, empty, unless it exists. *)
Definition ensureFile (p : jsstring) : IO unit :=
  fun fs =>
    (inr tt, match fs !! p with Some _ => fs | None => <[p := []]> fs end).

Definition readFile (p : jsstring) : IO jsstring :=
  fun fs =>
    match fs !! p with
    | Some c => (inr c, fs)
    | None => (inl ENOENT, fs)
    end.

Definition writeFile (p : jsstring) (c : jsstring) : IO unit :=
  fun fs => (inr tt, <[p := c]> fs).

(** [fs.appendFile]: creates the file when it is missing, but not its
    directory. *)
Definition appendFile `{Directories} (p : jsstring) (c : jsstring)
    : IO unit :=
  fun fs =>
    match fs !! p with
    | Some old => (inr tt, <[p := old ++ c]> fs)
    | None =>
        if creatable fs p then (inr tt, <[p := c]> fs) else (inl ENOENT, fs)
    end.

(** [for (const x of l) { await body(x) }]. *)
Fixpoint for_each {A} (l : list A) (body : A -> IO unit) : IO unit :=
  match l with
  | [] => ret tt
  | x :: l' => bind (body x) (fun _ => for_each l' body)
  end.

(** A loop that updates one local variable and may throw. *)
Fixpoint fold_throw {A B} (body : B -> A -> exn + B) (l : list A) (b : B)
    : exn + B :=
  match l with
  | [] => inr b
  | x :: l' =>
      match body b x with
      | inr b' => fold_throw body l' b'
      | inl e => inl e
      end
  end.

End Fs.

(** ** The class [GitManager] (src/git-manager.ts) *)
Module Git.
Import Js Fs.

(** [execa(file, args)]: the standard output of the command, or what the
    call throws when the command fails.  The commands run here only read
    the repository, which is taken not to change during a call. *)
Abbreviation Execa := (jsstring -> list jsstring -> exn + jsstring).

Section Manager.

Variable execa : Execa.

Definition getProjectName : exn + jsstring :=
  match execa (js "git") [js "rev-parse"; js "--show-toplevel"] with
  | inl e => inl e
  | inr stdout => inr (basename stdout)
  end.

Definition getMainWorktreeDir : exn + jsstring :=
  match execa (js "git") [js "worktree"; js "list"] with
  | inl e => inl e
  | inr stdout =>
      let firstLine := hd [] (split LF stdout) in
      inr (hd [] (split_ws firstLine))
  end.

(** The loop of [getWorktreeIndex], from the value [index] on; the
    result is what the method returns. *)
Fixpoint indexLoop (projectName mainDir worktreeName : jsstring)
    (lines : list jsstring) (index : Z) : Z :=
  match lines with
  | [] => index + 1
  | line :: lines' =>
      let wtPath := hd [] (split_ws line) in
      let wtBasename := basename wtPath in
      let wtName := replaceString wtBasename (projectName ++ js "-") [] in
      if str_eqb wtPath mainDir
      then indexLoop projectName mainDir worktreeName lines' index
      else
        let index := index + 1 in
        if str_eqb wtName worktreeName then index
        else indexLoop projectName mainDir worktreeName lines' index
  end.

Definition getWorktreeIndex (worktreeName : jsstring) : exn + Z :=
  match getProjectName with
  | inl e => inl e
  | inr projectName =>
      match execa (js "git") [js "worktree"; js "list"] with
      | inl e => inl e
      | inr stdout =>
          match getMainWorktreeDir with
          | inl e => inl e
          | inr mainDir =>
              inr (indexLoop projectName mainDir worktreeName
                     (split LF stdout) 0)
          end
      end
  end.

(** The body of the loop of [getWorktreeNames]. *)
Definition namesStep (projectName mainDir : jsstring) (names : list jsstring)
    (line : jsstring) : list jsstring :=
  let wtPath := hd [] (split_ws line) in
  if str_eqb wtPath mainDir then names
  else
    let wtBasename := basename wtPath in
    let wtName := replaceString wtBasename (projectName ++ js "-") [] in
    names ++ [wtName].

Definition getWorktreeNames : exn + list jsstring :=
  match getProjectName with
  | inl e => inl e
  | inr projectName =>
      match getMainWorktreeDir with
      | inl e => inl e
      | inr mainDir =>
          match execa (js "git") [js "worktree"; js "list"] with
          | inl e => inl e
          | inr stdout =>
              inr (fold_left (namesStep projectName mainDir)
                     (split LF stdout) [])
          end
      end
  end.

End Manager.

End Git.

(** ** The class [ConfigLoader] (src/git-manager.ts) *)
Module ConfigLoader.
Import Js.

Record FileUpdate : Type := mkFileUpdate {
  filePath : jsstring;
  updateType : jsstring;
  spec : jsstring;
  searchPattern : option jsstring;
  replacement : option jsstring
}.

Record Config : Type := mkConfig {
  startContainers : bool;
  portOffsetIncrement : Z;
  envFiles : list jsstring;
  portMappings : object number;
  containerNames : object jsstring;
  fileUpdates : list FileUpdate
}.

Definition loadDefaultConfig : Config :=
  {| startContainers := true;
     portOffsetIncrement := 10;
     envFiles := [];
     portMappings := [];
     containerNames := [];
     fileUpdates := [] |}.

(** The capture of [NAME=\(([^)]+)\)] matched at the start of [s]: after
    [NAME=(], the longest run of characters other than [)], which must be
    non-empty and followed by [)]. *)
Fixpoint run_to_paren (s : jsstring) : option jsstring :=
  match s with
  | [] => None
  | c :: s' =>
      if Ascii.eqb c ")" then Some []
      else option_map (cons c) (run_to_paren s')
  end.

Definition block_at (varName s : jsstring) : option jsstring :=
  if startsWith s (varName ++ js "=(") then
    match run_to_paren (drop (length varName + 2) s) with
    | Some (c :: body) => Some (c :: body)
    | _ => None
    end
  else None.

(** [content.match(regex)[1]]: the capture of the leftmost match. *)
Fixpoint find_block (varName s : jsstring) : option jsstring :=
  match block_at varName s with
  | Some body => Some body
  | None =>
      match s with
      | _ :: s' => find_block varName s'
      | [] => None
      end
  end.

Definition DQUOTE : ascii := ascii_of_nat 34.
Definition SQUOTE : ascii := ascii_of_nat 39.

Definition is_quote (c : ascii) : bool :=
  Ascii.eqb c DQUOTE || Ascii.eqb c SQUOTE.

(** [trimmed.replace(/^["']|["']$/g, '')]: one quote at the start and one
    at the end are removed. *)
Definition strip_quotes (s : jsstring) : jsstring :=
  let s1 := match s with
            | c :: r => if is_quote c then r else s
            | [] => []
            end in
  match rev s1 with
  | c :: r => if is_quote c then rev r else s1
  | [] => s1
  end.

Definition is_comment (s : jsstring) : bool := startsWith s (js "#").

Definition parseArray (content varName : jsstring) : list jsstring :=
  match find_block varName content with
  | None => []
  | Some arrayContent =>
      fold_left
        (fun items line =>
           let trimmed := trim line in
           if negb (str_eqb trimmed []) && negb (is_comment trimmed)
           then items ++ [strip_quotes trimmed]
           else items)
        (split LF arrayContent) []
  end.

Definition set_startContainers (b : bool) (c : Config) : Config :=
  {| startContainers := b;
     portOffsetIncrement := portOffsetIncrement c;
     envFiles := envFiles c;
     portMappings := portMappings c;
     containerNames := containerNames c;
     fileUpdates := fileUpdates c |}.

Definition set_portOffsetIncrement (z : Z) (c : Config) : Config :=
  {| startContainers := startContainers c;
     portOffsetIncrement := z;
     envFiles := envFiles c;
     portMappings := portMappings c;
     containerNames := containerNames c;
     fileUpdates := fileUpdates c |}.

Definition set_envFiles (l : list jsstring) (c : Config) : Config :=
  {| startContainers := startContainers c;
     portOffsetIncrement := portOffsetIncrement c;
     envFiles := l;
     portMappings := portMappings c;
     containerNames := containerNames c;
     fileUpdates := fileUpdates c |}.

Definition set_portMappings (o : object number) (c : Config) : Config :=
  {| startContainers := startContainers c;
     portOffsetIncrement := portOffsetIncrement c;
     envFiles := envFiles c;
     portMappings := o;
     containerNames := containerNames c;
     fileUpdates := fileUpdates c |}.

Definition set_containerNames (o : object jsstring) (c : Config) : Config :=
  {| startContainers := startContainers c;
     portOffsetIncrement := portOffsetIncrement c;
     envFiles := envFiles c;
     portMappings := portMappings c;
     containerNames := o;
     fileUpdates := fileUpdates c |}.

Definition set_fileUpdates (l : list FileUpdate) (c : Config) : Config :=
  {| startContainers := startContainers c;
     portOffsetIncrement := portOffsetIncrement c;
     envFiles := envFiles c;
     portMappings := portMappings c;
     containerNames := containerNames c;
     fileUpdates := l |}.

(** [trimmed.split('=')[1].toLowerCase()]: calling a method on
    [undefined] throws. *)
Definition parseStartContainers (trimmed : jsstring) (c : Config)
    : exn + Config :=
  if startsWith trimmed (js "START_CONTAINERS=") then
    match split "=" trimmed !! 1%nat with
    | None => inl TypeError
    | Some v =>
        let value := toLowerCase v in
        if includes [js "false"; js "no"; js "0"] value
        then inr (set_startContainers false c)
        else if includes [js "true"; js "yes"; js "1"] value
        then inr (set_startContainers true c)
        else inr c
    end
  else inr c.

(** [parseInt(undefined, 10)] is [NaN]. *)
Definition parsePortOffsetIncrement (trimmed : jsstring) (c : Config)
    : Config :=
  if startsWith trimmed (js "PORT_OFFSET_INCREMENT=") then
    match from_option parseInt NaN (split "=" trimmed !! 1%nat) with
    | Num z => set_portOffsetIncrement z c
    | NaN => c
    end
  else c.

(** The body of the loop over the items of [PORT_MAPPINGS]. *)
Definition addPortMapping (pm : object number) (mapping : jsstring)
    : object number :=
  let parts := split ":" mapping in
  let varName := hd [] parts in
  match parts !! 1%nat with
  | Some basePort =>
      if negb (str_eqb varName [])
      then obj_set pm varName (parseInt basePort)
      else pm
  | None => pm
  end.

(** The body of the loop over the items of [CONTAINER_NAMES]. *)
Definition addContainerName (cn : object jsstring) (nameMapping : jsstring)
    : object jsstring :=
  let parts := split ":" nameMapping in
  let varName := hd [] parts in
  match parts !! 1%nat with
  | Some template =>
      if negb (str_eqb varName []) && negb (str_eqb template [])
      then obj_set cn varName template
      else cn
  | None => cn
  end.

(** The body of the loop over the items of [FILE_UPDATES]. *)
Definition addFileUpdate (fu : list FileUpdate) (update : jsstring)
    : list FileUpdate :=
  let parts := split "|" update in
  if (3 <=? length parts)%nat then
    let p0 := nth 0 parts [] in
    let p1 := nth 1 parts [] in
    let p2 := nth 2 parts [] in
    let p3 := nth 3 parts [] in
    if str_eqb p1 (js "replace") && (4 <=? length parts)%nat
    then fu ++ [mkFileUpdate p0 p1 p3 (Some p2) (Some p3)]
    else fu ++ [mkFileUpdate p0 p1 p2 None None]
  else fu.

Definition parseArrays (content trimmed : jsstring) (c : Config) : Config :=
  let c1 :=
    if startsWith trimmed (js "PORT_MAPPINGS=(") then
      set_portMappings
        (fold_left addPortMapping (parseArray content (js "PORT_MAPPINGS"))
           (portMappings c)) c
    else c in
  let c2 :=
    if startsWith trimmed (js "CONTAINER_NAMES=(") then
      set_containerNames
        (fold_left addContainerName
           (parseArray content (js "CONTAINER_NAMES")) (containerNames c1)) c1
    else c1 in
  let c3 :=
    if startsWith trimmed (js "ENV_FILES=(") then
      set_envFiles (parseArray content (js "ENV_FILES")) c2
    else c2 in
  if startsWith trimmed (js "FILE_UPDATES=(") then
    set_fileUpdates
      (fold_left addFileUpdate (parseArray content (js "FILE_UPDATES"))
         (fileUpdates c3)) c3
  else c3.

(** The body of the loop over the lines of the file. *)
Definition parseLine (content : jsstring) (c : Config) (line : jsstring)
    : exn + Config :=
  let trimmed := trim line in
  if str_eqb trimmed [] || is_comment trimmed then inr c
  else
    match parseStartContainers trimmed c with
    | inl e => inl e
    | inr c1 =>
        inr (parseArrays content trimmed
               (parsePortOffsetIncrement trimmed c1))
    end.

Definition parseConfig (content : jsstring) : exn + Config :=
  Fs.fold_throw (parseLine content) (split LF content) loadDefaultConfig.

(** [loadConfig]: the configuration is read from [.wt.conf] in the main
    worktree; the result is the new value of [this.config], which stays
    as it is when the file is missing. *)
Definition loadConfig (execa : Git.Execa) (config : Config) : Fs.IO Config :=
  Fs.bind (Fs.lift (Git.getMainWorktreeDir execa)) (fun mainDir =>
  let configPath := Fs.path_join mainDir (js ".wt.conf") in
  Fs.bind (Fs.pathExists configPath) (fun existing =>
  if existing : bool then
    Fs.bind (Fs.readFile configPath) (fun configContent =>
    Fs.lift (parseConfig configContent))
  else Fs.ret config)).

End ConfigLoader.

(** ** The class [EnvironmentUpdater] (src/environment-updater.ts) *)
Module EnvironmentUpdater.
Import Js Fs ConfigLoader.
Local Open Scope io_scope.

(** The index resolver of src/git-manager.ts, an external collaborator:
    it runs [git worktree list] and throws when the command fails. *)
Record GitManager : Type := mkGitManager {
  getWorktreeIndex : jsstring -> exn + Z
}.

Section Updater.

(** The fields [this.config] (as returned by [this.config.get()]) and
    [this.git]. *)
Variable config : Config.
Variable git : GitManager.

Context {directories : Directories}.

Definition calculatePortOffset (worktreeName : jsstring) : IO Z :=
  index <- lift (getWorktreeIndex git worktreeName) ;;
  ret (index * portOffsetIncrement config).

(** One round of the port loop of [substituteTemplate]. *)
Definition substitutePort (portOffset : Z) (result : jsstring)
    (entry : jsstring * number) : exn + jsstring :=
  let '(portVar, basePort) := entry in
  let newPort := add basePort (Num portOffset) in
  match RegExp_new (Some (js "\{\{" ++ portVar ++ js "\}\}")) true false with
  | inl e => inl e
  | inr regex => inr (replace result regex (toString newPort))
  end.

(** [template] is [None] when the caller passes [undefined], on which
    [template.replace] throws. *)
Definition substituteTemplate (template : option jsstring)
    (worktreeName : jsstring) (worktreeIndex : Z) (portOffset : Z)
    : exn + jsstring :=
  match template with
  | None => inl TypeError
  | Some result =>
      match RegExp_new (Some (js "\{\{WORKTREE_NAME\}\}")) true false with
      | inl e => inl e
      | inr reName =>
          let result := replace result reName worktreeName in
          match RegExp_new (Some (js "\{\{WORKTREE_INDEX\}\}")) true false with
          | inl e => inl e
          | inr reIndex =>
              let result :=
                replace result reIndex (toString (Num worktreeIndex)) in
              fold_throw (substitutePort portOffset)
                (entries (portMappings config)) result
          end
      end
  end.

(** The statement that the three upsert loops share (lines 92-98,
    144-150 and 172-178): replace the lines of [VARNAME=...] or append
    one. *)
Definition upsert (content varName value : jsstring) : exn + jsstring :=
  match RegExp_new (Some (js "^" ++ varName ++ js "=.*$")) true true with
  | inl e => inl e
  | inr regex =>
      if test regex content
      then inr (replace content regex (varName ++ js "=" ++ value))
      else inr (content ++ LF :: varName ++ js "=" ++ value)
  end.

(** The body of the loop of [updateEnvVars].  An inherited value is
    truthy, and [+] concatenates its text and the offset. *)
Definition envVarStep (portOffset : Z) (content varName : jsstring)
    : exn + jsstring :=
  match obj_get (portMappings config) varName with
  | Own basePort =>
      if truthy basePort then
        upsert content varName (toString (add basePort (Num portOffset)))
      else inr content
  | Inherited basePort =>
      upsert content varName
        (inherited_toString basePort ++ toString (Num portOffset))
  | Undefined => inr content
  end.

Definition updateEnvVars (filePath varSpec : jsstring) (portOffset : Z)
    : IO unit :=
  let vars := map trim (split "," varSpec) in
  existing <- pathExists filePath ;;
  (if existing : bool then ret tt else ensureFile filePath) ;;;
  content <- readFile filePath ;;
  content <- lift (fold_throw (envVarStep portOffset) vars content) ;;
  writeFile filePath content.

Definition replaceInFile (filePath : jsstring)
    (searchPattern replacement : option jsstring)
    (worktreeName : jsstring) (worktreeIndex : Z) : IO unit :=
  existing <- pathExists filePath ;;
  if existing : bool then
    content <- readFile filePath ;;
    portOffset <- calculatePortOffset worktreeName ;;
    substitutedReplacement <-
      lift (substituteTemplate replacement worktreeName worktreeIndex
              portOffset) ;;
    regex <- lift (RegExp_new searchPattern true false) ;;
    writeFile filePath (replace content regex substitutedReplacement)
  else ret tt.

Definition processFileUpdate (update : FileUpdate)
    (worktreeName worktreeDir : jsstring) (worktreeIndex portOffset : Z)
    : IO unit :=
  let fullPath := path_join worktreeDir (filePath update) in
  if str_eqb (updateType update) (js "env_vars") then
    updateEnvVars fullPath (spec update) portOffset
  else if str_eqb (updateType update) (js "replace") then
    replaceInFile fullPath (searchPattern update) (replacement update)
      worktreeName worktreeIndex
  else if str_eqb (updateType update) (js "append") then
    content <- lift (substituteTemplate (Some (spec update)) worktreeName
                       worktreeIndex portOffset) ;;
    appendFile fullPath (LF :: content)
  else ret tt.

(** The body of the loop of [updatePortVariables]. *)
Definition portVariableStep (portOffset : Z) (content : jsstring)
    (entry : jsstring * number) : exn + jsstring :=
  let '(varName, basePort) := entry in
  upsert content varName (toString (add basePort (Num portOffset))).

Definition updatePortVariables (worktreeDir : jsstring)
    (portMappings : object number) (portOffset : Z) : IO unit :=
  let envPath := path_join worktreeDir (js ".env") in
  existing <- pathExists envPath ;;
  (if existing : bool then ret tt else ensureFile envPath) ;;;
  content <- readFile envPath ;;
  content <- lift (fold_throw (portVariableStep portOffset)
                     (entries portMappings) content) ;;
  writeFile envPath content.

(** The body of the loop of [updateContainerNames]. *)
Definition containerNameStep (worktreeName : jsstring) (worktreeIndex : Z)
    (content : jsstring) (entry : jsstring * jsstring) : exn + jsstring :=
  let '(varName, template) := entry in
  match substituteTemplate (Some template) worktreeName worktreeIndex 0 with
  | inl e => inl e
  | inr containerName => upsert content varName containerName
  end.

Definition updateContainerNames (worktreeDir : jsstring)
    (containerNames : object jsstring) (worktreeName : jsstring)
    (worktreeIndex : Z) : IO unit :=
  let envPath := path_join worktreeDir (js ".env") in
  existing <- pathExists envPath ;;
  (if existing : bool then ret tt else ensureFile envPath) ;;;
  content <- readFile envPath ;;
  content <- lift (fold_throw (containerNameStep worktreeName worktreeIndex)
                     (entries containerNames) content) ;;
  writeFile envPath content.

(** Steps 3 to 5: the rules in declaration order, then the port
    variables, then the container names. *)
Definition applyUpdates (worktreeName worktreeDir : jsstring)
    (worktreeIndex portOffset : Z) : IO unit :=
  for_each (fileUpdates config)
    (fun update =>
       processFileUpdate update worktreeName worktreeDir worktreeIndex
         portOffset) ;;;
  (if (0 <? length (portMappings config))%nat
   then updatePortVariables worktreeDir (portMappings config) portOffset
   else ret tt) ;;;
  (if (0 <? length (containerNames config))%nat
   then updateContainerNames worktreeDir (containerNames config)
          worktreeName worktreeIndex
   else ret tt).

Definition updateEnvironmentFiles (worktreeName worktreeDir : jsstring)
    : IO unit :=
  worktreeIndex <- lift (getWorktreeIndex git worktreeName) ;;
  portOffset <- calculatePortOffset worktreeName ;;
  applyUpdates worktreeName worktreeDir worktreeIndex portOffset.

End Updater.

(** The constructor: [this.git = new GitManager()]. *)
Definition GitManager_new (execa : Git.Execa) : GitManager :=
  mkGitManager (Git.getWorktreeIndex execa).

End EnvironmentUpdater.


(** ** Lines and assignments of an environment file

    The vocabulary of the specification: a file is a sequence of lines
    separated by line terminators, an assignment of [k] is a line that
    starts with [k=], and an upsert replaces the assignments of [k] or
    appends one. *)
Module Lines.
Import Js.

(** The first line and, for every line terminator, the terminator and the
    line after it. *)
Fixpoint segments (s : jsstring) : jsstring * list (ascii * jsstring) :=
  match s with
  | [] => ([], [])
  | c :: s' =>
      let '(l0, rest) := segments s' in
      if is_line_terminator c then ([], (c, l0) :: rest) else (c :: l0, rest)
  end.

Definition unsegments (l0 : jsstring) (rest : list (ascii * jsstring))
    : jsstring :=
  l0 ++ flat_map (fun tl => fst tl :: snd tl) rest.

Definition lines (s : jsstring) : list jsstring :=
  fst (segments s) :: map snd (snd (segments s)).

(** Rewriting every line, terminators kept. *)
Definition map_lines (f : jsstring -> jsstring) (s : jsstring) : jsstring :=
  unsegments (f (fst (segments s)))
    (map (fun tl => (fst tl, f (snd tl))) (snd (segments s))).

Definition is_assignment (k l : jsstring) : bool :=
  startsWith l (k ++ js "=").

Definition has_key (k content : jsstring) : bool :=
  existsb (is_assignment k) (lines content).

Definition assign (k v l : jsstring) : jsstring :=
  if is_assignment k l then k ++ js "=" ++ v else l.

(** Upsert as the specification words it, but on every assignment of the
    variable. *)
Definition set_variable (content k v : jsstring) : jsstring :=
  if has_key k content then map_lines (assign k v) content
  else content ++ LF :: k ++ js "=" ++ v.

(** Upsert as the specification words it: the first assignment only. *)
Fixpoint assign_first (k v : jsstring) (rest : list (ascii * jsstring))
    : list (ascii * jsstring) :=
  match rest with
  | [] => []
  | (t, l) :: rest' =>
      if is_assignment k l then (t, k ++ js "=" ++ v) :: rest'
      else (t, l) :: assign_first k v rest'
  end.

Definition set_first_variable (content k v : jsstring) : jsstring :=
  let '(l0, rest) := segments content in
  if has_key k content then
    if is_assignment k l0 then unsegments (k ++ js "=" ++ v) rest
    else unsegments l0 (assign_first k v rest)
  else content ++ LF :: k ++ js "=" ++ v.

Definition is_letter (c : ascii) : bool :=
  let n := nat_of_ascii c in
  ((65 <=? n) && (n <=? 90) || (97 <=? n) && (n <=? 122))%nat.

Definition is_ident_char (c : ascii) : bool :=
  is_letter c || is_digit c || Ascii.eqb c "_".

(** A variable name as the configuration file means it: letters, digits
    and underscores, not starting with a digit. *)
Definition is_identifier (k : jsstring) : bool :=
  match k with
  | c :: _ => negb (is_digit c) && forallb is_ident_char k
  | [] => false
  end.

(** A value that an upsert writes as it stands: no [$], which the
    replacement string would expand, and no line terminator. *)
Definition is_plain_char (c : ascii) : bool :=
  negb (Ascii.eqb c "$") && negb (is_line_terminator c).

Definition is_plain (v : jsstring) : bool := forallb is_plain_char v.

End Lines.

Import Js Fs ConfigLoader EnvironmentUpdater Lines.

(** ** Definitions for the statements and the proofs *)

(** The terms of a text taken literally. *)
Definition lits (p : jsstring) : list term :=
  map (fun c => TAtom (AChar c) QOne) p.

(** The code unit before the position after [p] was read. *)
Definition prev_after (prev : option ascii) (p : jsstring) : option ascii :=
  fold_left (fun _ c => Some c) p prev.

(** The next token is no quantifier. *)
Definition no_quantifier_first (ks : list token) : Prop :=
  match ks with KQuant _ :: _ => False | _ => True end.

(** A text without line terminator. *)
Definition line_ok (l : jsstring) : bool :=
  forallb (fun c => negb (is_line_terminator c)) l.

(** Well-formed segments: terminators, then lines. *)
Definition segs_ok (rest : list (ascii * jsstring)) : Prop :=
  Forall (fun tl => is_line_terminator (fst tl) = true /\ line_ok (snd tl) = true) rest.

(** What follows a line: nothing, or a line terminator. *)
Definition tail_ok (tail : jsstring) : Prop :=
  match tail with
  | [] => True
  | t :: _ => is_line_terminator t = true
  end.

(** [search] as a test. *)
Definition found (r : RegExp) (prev : option ascii) (s : jsstring) : bool :=
  match search r prev s with Some _ => true | None => false end.

(** The expression that [upsert] builds for an identifier. *)
Definition upsert_re (k : jsstring) : RegExp :=
  mkRegExp (TBol :: lits k ++ [TAtom (AChar "=") QOne; TAtom AAny QStar; TEol])
    true true.

(** The characters of a printed number. *)
Definition is_num_char (c : ascii) : bool :=
  is_digit c || existsb (Ascii.eqb c) (js "-Na").

(** A rewriting of lines that yields lines. *)
Definition line_fun (f : jsstring -> jsstring) : Prop :=
  forall l, line_ok l = true -> line_ok (f l) = true.

(** The value that [updateEnvVars] writes for a variable, if it writes
    one: the shifted port of an entry with a truthy base port or, for a
    name that the table lacks and [Object.prototype] has, the text of
    the inherited member followed by the offset. *)
Definition env_var_value (pm : object number) (portOffset : Z)
    (varName : jsstring) : option jsstring :=
  match own_get pm varName with
  | Some basePort =>
      if truthy basePort
      then Some (toString (add basePort (Num portOffset)))
      else None
  | None =>
      match prototype_member varName with
      | Some i => Some (inherited_toString i ++ toString (Num portOffset))
      | None => None
      end
  end.

(** What [updateEnvVars] does for one variable, in the words of the
    specification corrected for the guard [if (basePort)]. *)
Definition env_var_spec (pm : object number) (portOffset : Z)
    (content varName : jsstring) : jsstring :=
  match env_var_value pm portOffset varName with
  | Some value => set_variable content varName value
  | None => content
  end.

(** The guard [if (basePort)] of [updateEnvVars]. *)
Definition known_port (pm : object number) (varName : jsstring) : bool :=
  match own_get pm varName with
  | Some basePort => truthy basePort
  | None => false
  end.

(** The variables of a rule that have a usable base port are identifiers. *)
Definition env_vars_wf (pm : object number) (varSpec : jsstring) : bool :=
  forallb (fun v => implb (known_port pm v) (forallb is_ident_char v))
    (map trim (split "," varSpec)).

(** The offset, the base ports and the shifted ports are integers that
    the code's numbers hold exactly. *)
Definition ports_safe (pm : object number) (portOffset : Z) : bool :=
  safe_integer portOffset
  && forallb (fun e : jsstring * number =>
                safe_number (snd e)
                && safe_number (add (snd e) (Num portOffset))) pm.

(** The shape shared by [updateEnvVars], [updatePortVariables] and
    [updateContainerNames]: create the file if missing, read it, run the
    loop on the content, write it back. *)
Definition rewrite_file (p : jsstring) (loop : jsstring -> exn + jsstring)
    : IO unit :=
  bind (pathExists p) (fun existing =>
  bind (if existing : bool then ret tt else ensureFile p) (fun _ =>
  bind (readFile p) (fun content =>
  bind (lift (loop content)) (fun content => writeFile p content)))).

(** A configuration with the given increment, tables and rules. *)
Definition config_of (inc : Z) (pm : object number) (cn : object jsstring)
    (fu : list FileUpdate) : Config :=
  mkConfig true inc [] pm cn fu.

(** Lines joined by LF. *)
Definition nl (ls : list string) : jsstring := join_with LF (map js ls).

(** A resolver that answers the index [i]. *)
Definition git_at (i : Z) : GitManager := mkGitManager (fun _ => inr i).

(** Every port-mapping variable is an identifier. *)
Definition ports_wf (config : Config) : bool :=
  forallb (fun e : jsstring * number => is_identifier (fst e)) (portMappings config).

(** A text without colon. *)
Definition no_colon (s : jsstring) : bool :=
  forallb (fun c => negb (Ascii.eqb c ":")) s.

(** The placeholder of a name. *)
Definition placeholder (k : jsstring) : jsstring := js "{{" ++ k ++ js "}}".

(** The expression for a text without syntax characters. *)
Definition literal_re (p : jsstring) : RegExp := mkRegExp (lits p) true false.

(** What [substituteTemplate] computes when every port variable is an
    identifier: three rounds of replacing a literal placeholder. *)
Definition render (pm : object number) (worktreeName : jsstring)
    (worktreeIndex portOffset : Z) (template : jsstring) : jsstring :=
  fold_left
    (fun result e =>
       replace result (literal_re (placeholder (fst e)))
         (toString (add (snd e) (Num portOffset))))
    pm
    (replace
       (replace template (literal_re (placeholder (js "WORKTREE_NAME")))
          worktreeName)
       (literal_re (placeholder (js "WORKTREE_INDEX")))
       (toString (Num worktreeIndex))).

(** The line that the upsert of all port mappings writes for an entry. *)
Definition port_line (portOffset : Z) (e : jsstring * number) : jsstring :=
  fst e ++ js "=" ++ toString (add (snd e) (Num portOffset)).

(** The body of the loop of [updatePortVariables] for an identifier. *)
Definition set_port (portOffset : Z) (content : jsstring)
    (e : jsstring * number) : jsstring :=
  set_variable content (fst e) (toString (add (snd e) (Num portOffset))).

(** A line opens the [PORT_MAPPINGS] block for the parser. *)
Definition opens_port_mappings (line : jsstring) : bool :=
  startsWith (trim line) (js "PORT_MAPPINGS=(").

(** What [addPortMapping] stores for an item, if anything. *)
Definition port_item (mapping : jsstring) : option (jsstring * number) :=
  let parts := split ":" mapping in
  match parts !! 1%nat with
  | Some basePort =>
      if negb (str_eqb (hd [] parts) []) then Some (hd [] parts, parseInt basePort)
      else None
  | None => None
  end.

(** No opening brace: such a text holds no placeholder. *)
Definition no_open_brace (s : jsstring) : bool :=
  forallb (fun c => negb (Ascii.eqb c "{")) s.

(** No dollar sign: such a replacement string stands for itself. *)
Definition no_dollar (s : jsstring) : bool :=
  forallb (fun c => negb (Ascii.eqb c "$")) s.

(** One round of the port loop of [render]. *)
Definition port_round (portOffset : Z) (result : jsstring)
    (e : jsstring * number) : jsstring :=
  replace result (literal_re (placeholder (fst e)))
    (toString (add (snd e) (Num portOffset))).

(** A sequence of upserts on one content. *)
Definition set_kv (content : jsstring) (kv : jsstring * jsstring) : jsstring :=
  set_variable content (fst kv) (snd kv).

(** The upserts in order. *)
Definition apply_kvs (kvs : list (jsstring * jsstring)) (content : jsstring)
    : jsstring :=
  fold_left set_kv kvs content.

(** An identifier and a value written as it stands. *)
Definition kv_wf (kv : jsstring * jsstring) : bool :=
  forallb is_ident_char (fst kv) && is_plain (snd kv).

(** What the upserts do to one line once every variable is assigned. *)
Definition assign_kvs (kvs : list (jsstring * jsstring)) (l : jsstring)
    : jsstring :=
  fold_left (fun l kv => assign (fst kv) (snd kv) l) kvs l.

(** A job: the upserts that one rule or one step makes in one file. *)
Abbreviation job := (jsstring * list (jsstring * jsstring))%type.

(** Running a job creates the file if it is missing. *)
Definition run_job (fs : Files) (j : job) : Files :=
  <[fst j := apply_kvs (snd j) (default [] (fs !! fst j))]> fs.

(** The jobs in order. *)
Definition run_jobs (jobs : list job) (fs : Files) : Files :=
  fold_left run_job jobs fs.

(** The upserts that the jobs make in the file [p]. *)
Definition job_kvs (p : jsstring) (jobs : list job)
    : list (jsstring * jsstring) :=
  flat_map (fun j : job => if str_eqb (fst j) p then snd j else []) jobs.

(** Some job writes the file [p]. *)
Definition touched (p : jsstring) (jobs : list job) : bool :=
  existsb (fun j : job => str_eqb (fst j) p) jobs.

(** Every upsert of the job is well formed. *)
Definition job_wf (j : job) : bool := forallb kv_wf (snd j).

(** The upserts of an [env_vars] rule. *)
Definition var_kvs (pm : object number) (portOffset : Z) (v : jsstring)
    : list (jsstring * jsstring) :=
  match env_var_value pm portOffset v with
  | Some value => [(v, value)]
  | None => []
  end.

(** The job of an [env_vars] rule. *)
Definition rule_job (pm : object number) (worktreeDir : jsstring)
    (portOffset : Z) (u : FileUpdate) : job :=
  (path_join worktreeDir (filePath u),
   flat_map (var_kvs pm portOffset) (map trim (split "," (spec u)))).

(** The upserts of step 4. *)
Definition ports_job (pm : object number) (worktreeDir : jsstring)
    (portOffset : Z) : job :=
  (path_join worktreeDir (js ".env"),
   map (fun e : jsstring * number =>
          (fst e, toString (add (snd e) (Num portOffset)))) pm).

(** The upserts of step 5. *)
Definition containers_job (config : Config)
    (worktreeName worktreeDir : jsstring) (worktreeIndex : Z) : job :=
  (path_join worktreeDir (js ".env"),
   map (fun e : jsstring * jsstring =>
          (fst e, render (portMappings config) worktreeName worktreeIndex 0
                    (snd e))) (containerNames config)).

(** Steps 3 to 5 as jobs. *)
Definition all_jobs (config : Config) (worktreeName worktreeDir : jsstring)
    (worktreeIndex portOffset : Z) : list job :=
  map (rule_job (portMappings config) worktreeDir portOffset)
    (fileUpdates config)
  ++ (if (0 <? length (portMappings config))%nat
      then [ports_job (portMappings config) worktreeDir portOffset] else [])
  ++ (if (0 <? length (containerNames config))%nat
      then [containers_job config worktreeName worktreeDir worktreeIndex]
      else []).

(** Every rule is an [env_vars] rule. *)
Definition rules_env_vars (config : Config) : bool :=
  forallb (fun u => str_eqb (updateType u) (js "env_vars")) (fileUpdates config).

(** Every container variable is an identifier and every rendered container
    name is written as it stands. *)
Definition containers_wf (config : Config) (worktreeName : jsstring)
    (worktreeIndex : Z) : bool :=
  forallb
    (fun e : jsstring * jsstring =>
       is_identifier (fst e)
       && is_plain (render (portMappings config) worktreeName worktreeIndex 0
                      (snd e)))
    (containerNames config).

(** The place of a name among the names of the listed worktrees, counted
    from 1: that of the first one equal to it, or one past the last. *)
Fixpoint rank (names : list jsstring) (n : jsstring) : Z :=
  match names with
  | [] => 1
  | x :: names' => if str_eqb x n then 1 else 1 + rank names' n
  end.

(** A text without white space. *)
Definition no_ws (s : jsstring) : bool :=
  forallb (fun c => negb (is_whitespace c)) s.

(** A text without slash. *)
Definition no_slash (s : jsstring) : bool :=
  forallb (fun c => negb (Ascii.eqb c "/")) s.

(** A text without line feed. *)
Definition no_lf (s : jsstring) : bool :=
  forallb (fun c => negb (Ascii.eqb c LF)) s.

(** A line of [git worktree list]: the path, then the commit and the
    branch. *)
Definition listing_line (path info : jsstring) : jsstring :=
  path ++ js "  " ++ info.

(** The directory that [createWorktree] gives the worktree [name] of
    the project [projectName], beside the main worktree. *)
Definition sibling (parent projectName name : jsstring) : jsstring :=
  parent ++ js "/" ++ projectName ++ js "-" ++ name.

(** A repository that answers the two commands of [GitManager]. *)
Definition git_answers (toplevel listing : exn + jsstring) : Git.Execa :=
  fun file args =>
    if str_eqb file (js "git") then
      if bool_decide (args = [js "rev-parse"; js "--show-toplevel"])
      then toplevel
      else if bool_decide (args = [js "worktree"; js "list"]) then listing
      else inl GitError
    else inl GitError.

(** The call [m] deletes no file and creates or changes only files whose
    path is in [T], whether it returns or throws. *)
Definition writes_only {A} (T : jsstring -> Prop) (m : IO A) : Prop :=
  forall fs : Files,
    (forall p : jsstring, is_Some (fs !! p) -> is_Some (snd (m fs) !! p)) /\
    (forall p : jsstring, ~ T p -> snd (m fs) !! p = fs !! p).

(** A template as the pieces it is written with: text without opening
    brace, and placeholders [{{k}}]. *)
Inductive piece : Type :=
| Text (s : jsstring)
| Hole (k : jsstring).

Definition piece_text (p : piece) : jsstring :=
  match p with
  | Text s => s
  | Hole k => placeholder k
  end.

(** The template that the pieces spell. *)
Definition unpieces (ps : list piece) : jsstring :=
  flat_map piece_text ps.

(** The text holds no opening brace; the placeholder names an
    identifier. *)
Definition piece_ok (p : piece) : bool :=
  match p with
  | Text s => no_open_brace s
  | Hole k => forallb is_ident_char k
  end.

(** What a piece stands for: the worktree's name, its index, the shifted
    port of a port variable, or the placeholder itself when it names
    none of these. *)
Definition render_piece (pm : object number) (worktreeName : jsstring)
    (worktreeIndex portOffset : Z) (p : piece) : jsstring :=
  match p with
  | Text s => s
  | Hole k =>
      if str_eqb k (js "WORKTREE_NAME") then worktreeName
      else if str_eqb k (js "WORKTREE_INDEX") then toString (Num worktreeIndex)
      else match own_get pm k with
           | Some basePort => toString (add basePort (Num portOffset))
           | None => placeholder k
           end
  end.

(** One round of replacement, on a piece. *)
Definition fill (K repl : jsstring) (p : piece) : piece :=
  match p with
  | Text s => Text s
  | Hole k => if str_eqb k K then Text repl else Hole k
  end.

(** The rounds of the port loop, on a piece. *)
Definition fill_ports (pm : object number) (portOffset : Z) (p : piece)
    : piece :=
  fold_left
    (fun p (e : jsstring * number) =>
       fill (fst e) (toString (add (snd e) (Num portOffset))) p)
    pm p.

(** A text without closing parenthesis. *)
Definition no_close_paren (s : jsstring) : bool :=
  forallb (fun c => negb (Ascii.eqb c ")")) s.

(** White space other than the line feed: what indents an item. *)
Definition is_indent (s : jsstring) : bool :=
  forallb (fun c => is_whitespace c && negb (Ascii.eqb c LF)) s.

(** The line of an item in a block: the item between double quotes,
    indented. *)
Definition item_line (indent item : jsstring) : jsstring :=
  indent ++ DQUOTE :: item ++ [DQUOTE].

(** An array as the README writes it: the name, the opening
    parenthesis, one line for each item, the closing parenthesis. *)
Definition array_block (name indent : jsstring) (items : list jsstring)
    : jsstring :=
  name ++ js "=(" ++ LF
    :: flat_map (fun item => item_line indent item ++ [LF]) items ++ js ")".

(** The six settings that [parseConfig] reads. *)
Definition config_keys : list jsstring :=
  [js "START_CONTAINERS="; js "PORT_OFFSET_INCREMENT="; js "PORT_MAPPINGS=(";
   js "CONTAINER_NAMES=("; js "ENV_FILES=("; js "FILE_UPDATES=("].

(** A line that sets none of them. *)
Definition sets_nothing (line : jsstring) : bool :=
  negb (existsb (startsWith (trim line)) config_keys).

(** A name that [parseConfig] stores: not empty, without colon. *)
Definition key_ok (k : jsstring) : Prop := k <> [] /\ no_colon k = true.

(** A container name that [parseConfig] stores. *)
Definition container_ok (e : jsstring * jsstring) : Prop :=
  key_ok (fst e) /\ snd e <> [] /\ no_colon (snd e) = true.

(** A rule that [parseConfig] stores: either it is a [replace] rule with a
    pattern and a replacement, which is also its [spec], or it has
    neither. *)
Definition rule_ok (u : FileUpdate) : Prop :=
  match searchPattern u, replacement u with
  | Some _, Some r => updateType u = js "replace" /\ spec u = r
  | None, None => True
  | _, _ => False
  end.

(** The body of the loop of [parseArray]. *)
Definition keep_item (items : list jsstring) (line : jsstring)
    : list jsstring :=
  let trimmed := trim line in
  if negb (str_eqb trimmed []) && negb (is_comment trimmed)
  then items ++ [strip_quotes trimmed]
  else items.

(** Some segment of the path is [..]. *)
Definition has_dotdot (p : jsstring) : bool :=
  existsb (str_eqb (js "..")) (split "/" p).

(** A segment that [path.normalize] keeps: neither empty nor [.]. *)
Definition kept_segment (seg : jsstring) : bool :=
  negb (str_eqb seg [] || str_eqb seg (js ".")).

(** A character that stands for itself in a pattern: no syntax
    character, no backslash. *)
Definition is_literal_char (c : ascii) : bool :=
  match token_of_char c with
  | KChar _ => negb (Ascii.eqb c "\")
  | _ => false
  end.

(** The items of [PORT_MAPPINGS] for a table of ports. *)
Definition port_items (table : list (jsstring * Z)) : list jsstring :=
  map (fun e => fst e ++ js ":" ++ toString (Num (snd e))) table.

(** The port mappings that the items stand for. *)
Definition port_table (table : list (jsstring * Z)) : object number :=
  map (fun e => (fst e, Num (snd e))) table.

(** A configuration file with the ports of a table and an increment. *)
Definition config_text (indent : jsstring) (table : list (jsstring * Z))
    (increment : Z) : jsstring :=
  array_block (js "PORT_MAPPINGS") indent (port_items table)
  ++ LF :: js "PORT_OFFSET_INCREMENT=" ++ toString (Num increment).

(** The line that an upsert writes. *)
Definition kv_line (kv : jsstring * jsstring) : jsstring :=
  fst kv ++ js "=" ++ snd kv.

(** ** Concrete configurations and files

    The inputs at which the statements below are evaluated. *)

(** One port variable. *)
Definition C1_config := config_of 10 [(js "A", Num 100)] [] [].

(** A file that assigns the variable twice. *)
Definition C1_files : Files := {[ js "/w/.env" := nl ["A=1"; "A=2"]%string ]}.

(** Port 0, and a variable whose name is not a valid expression. *)
Definition C1_config_odd :=
  config_of 10 [(js "ZERO", Num 0); (js "**", Num 100)] [] [].

(** The port table of the example of the specification. *)
Definition C1_witness_config :=
  config_of 10 [(js "A", Num 100)] [] [].

(** One [append] rule. *)
Definition C2_config :=
  config_of 10 [] []
    [mkFileUpdate (js "notes.txt") (js "append") (js "wt {{WORKTREE_NAME}}")
       None None].

(** The [replace] rule of the README. *)
Definition C2_config_replace :=
  config_of 10 [] []
    [mkFileUpdate (js "c.yml") (js "replace")
       (js "container_name: myapp-{{WORKTREE_NAME}}")
       (Some (js "container_name: myapp"))
       (Some (js "container_name: myapp-{{WORKTREE_NAME}}"))].

(** A container name with [$&], which a replacement string expands. *)
Definition C2_config_dollar :=
  config_of 10 [] [(js "K", js "x$&")] [].

(** An [env_vars] rule, a valid and an invalid port, a container name. *)
Definition C2_witness_config :=
  config_of 10 [(js "API_PORT", Num 3000); (js "CLIENT_PORT", NaN)]
    [(js "DB_CONTAINER", js "myapp-{{WORKTREE_NAME}}-db")]
    [mkFileUpdate (js "config/.env.local") (js "env_vars")
       (js "API_PORT, CLIENT_PORT") None None].

(** A resolver for which git fails. *)
Definition C3_execa_fails : Git.Execa := fun _ _ => inl GitError.

(** One port variable. *)
Definition C4_config := config_of 10 [(js "API_PORT", Num 3000)] [] [].

(** A port variable as [PORT_MAPPINGS] yields it from the item [**:3000]. *)
Definition C4_config_bad_port := config_of 10 [(js "**", Num 3000)] [] [].

(** The directory [/w/config] is missing. *)
Definition C5_directories : Directories :=
  fun d => str_eqb d (js "/w/config").

(** One rule of every strategy. *)
Definition C5_config :=
  config_of 10 [(js "API_PORT", Num 3000)] []
    [mkFileUpdate (js "a.yml") (js "replace") (js "new") (Some (js "old"))
       (Some (js "new"));
     mkFileUpdate (js "b.env") (js "env_vars") (js "API_PORT") None None;
     mkFileUpdate (js "c.txt") (js "append") (js "port {{API_PORT}}") None None].

(** A port variable as [PORT_MAPPINGS] yields it from the item [**:3000]. *)
Definition C5_config_bad_port := config_of 10 [(js "**", Num 3000)] [] [].

(** A port variable and the container name of the specification. *)
Definition C6_config :=
  config_of 10 [(js "DB_PORT", Num 5432)]
    [(js "DB_CONTAINER", js "myapp-{{WORKTREE_NAME}}-db")] [].

(** A container name with [$&], which a replacement string expands. *)
Definition C6_config_dollar :=
  config_of 10 [] [(js "K", js "x$&")] [].

(** A port variable whose name is not a valid expression. *)
Definition C6_config_bad_port :=
  config_of 10 [(js "**", Num 3000)] [(js "K", js "x")] [].

(** A [replace] rule whose pattern does not compile, then an [append] rule. *)
Definition C7_config :=
  config_of 10 [] []
    [mkFileUpdate (js "a.txt") (js "replace") (js "x") (Some (js "**"))
       (Some (js "x"));
     mkFileUpdate (js "b.txt") (js "append") (js "later") None None].

(** The same with a [replace] rule as [FILE_UPDATES] yields it from an item
    of three fields. *)
Definition C7_config_missing :=
  config_of 10 [] []
    [mkFileUpdate (js "a.txt") (js "replace") (js "x") None None;
     mkFileUpdate (js "b.txt") (js "append") (js "later") None None].

(** The target of the [replace] rule exists. *)
Definition C7_files : Files := {[ js "/w/a.txt" := js "text" ]}.

(** A configuration file with an increment and a port that do not parse. *)
Definition C8_content : jsstring :=
  nl ["PORT_OFFSET_INCREMENT=ten"; "PORT_MAPPINGS=("; "    'API_PORT:3000'";
      "    'CLIENT_PORT:not_a_number'"; ")"]%string.

(** A valid port, one that did not parse, and port 0. *)
Definition C10_config :=
  config_of 10 [(js "API_PORT", Num 3000); (js "CLIENT_PORT", NaN); (js "ZERO", Num 0)]
    [] [].

(** A port that did not parse, and a port variable whose name is not a
    valid expression. *)
Definition C10_config_bad_port :=
  config_of 10 [(js "CLIENT_PORT", NaN); (js "**", Num 3000)] [] [].

(** The repository of the tests of [getWorktreeNames]. *)
Definition X1_execa : Git.Execa :=
  git_answers (inr (js "/Users/test/my-project"))
    (inr (nl ["/Users/test/my-project  abcd1234 [main]";
              "/Users/test/my-project-feature1  efgh5678 [feature1]";
              "/Users/test/my-project-feature2  ijkl9012 [feature2]";
              "/Users/test/my-project-bugfix  mnop3456 [bugfix]"]%string)).

(** A repository with a worktree for the branch [fix/login]. *)
Definition X5_execa : Git.Execa :=
  git_answers (inr (js "/Users/test/my-project"))
    (inr (nl ["/Users/test/my-project  abcd1234 [main]";
              "/Users/test/my-project-fix/login  efgh5678 [fix/login]"]%string)).

(** A repository in which [git] fails. *)
Definition X6_execa : Git.Execa := git_answers (inl GitError) (inl GitError).

(** The template of the README and its pieces. *)
Definition X9_pieces : list piece :=
  [Text (js "app-"); Hole (js "WORKTREE_NAME"); Text (js "-");
   Hole (js "WORKTREE_INDEX"); Text (js ":"); Hole (js "API_PORT");
   Text (js "/"); Hole (js "OTHER")].

(** The configuration of the README: two port variables. *)
Definition X9_config : Config :=
  config_of 10 [(js "API_PORT", Num 3000); (js "DB_PORT", Num 5432)] [] [].

(** An environment file with one of the port variables and another
    variable. *)
Definition X9_files : Files :=
  {[ js "/w/.env" := nl ["NAME=app"; "DB_PORT=1"]%string ]}.

(** A configuration file with two arrays, and one whose last rule holds a
    closing parenthesis. *)
Definition X11_content : jsstring :=
  nl ["# ports"; "START_CONTAINERS=no"; ""]%string
  ++ array_block (js "PORT_MAPPINGS") (js "    ")
       [js "API_PORT:3000"; js "DB_PORT:5432"]
  ++ LF :: array_block (js "ENV_FILES") (js "  ") [js ".env"].

Definition X12_content : jsstring :=
  array_block (js "FILE_UPDATES") (js "  ")
    [js ".env|env_vars|API_PORT"; js "a.yml|replace|name: (x)|name: y";
     js "b.txt|append|tail"].

(** A configuration file that sets nothing. *)
Definition X17_content : jsstring :=
  nl ["# wt configuration"; ""; "  PORTS=(3000)"; "start_containers=false"]%string.

(** The repository of X1 after [feature1] was removed and [hotfix]
    added. *)
Definition X18_execa : Git.Execa :=
  git_answers (inr (js "/Users/test/my-project"))
    (inr (nl ["/Users/test/my-project  abcd1234 [main]";
              "/Users/test/my-project-feature2  ijkl9012 [feature2]";
              "/Users/test/my-project-bugfix  mnop3456 [bugfix]";
              "/Users/test/my-project-hotfix  qrst7890 [hotfix]"]%string)).

(** The repository of X1 after [hotfix] was added. *)
Definition X18_execa_more : Git.Execa :=
  git_answers (inr (js "/Users/test/my-project"))
    (inr (nl ["/Users/test/my-project  abcd1234 [main]";
              "/Users/test/my-project-feature1  efgh5678 [feature1]";
              "/Users/test/my-project-feature2  ijkl9012 [feature2]";
              "/Users/test/my-project-bugfix  mnop3456 [bugfix]";
              "/Users/test/my-project-hotfix  qrst7890 [hotfix]"]%string)).

(** A rule inside the worktree and a rule that leaves it. *)
Definition X19_config : Config :=
  config_of 10 [(js "API_PORT", Num 3000)] []
    [mkFileUpdate (js "client/.env") (js "env_vars") (js "API_PORT") None None].

Definition X19_config_outside : Config :=
  config_of 10 [(js "API_PORT", Num 3000)] []
    [mkFileUpdate (js "../other/.env") (js "env_vars") (js "API_PORT")
       None None].

(** A main worktree under a directory with a space in its name, and its
    configuration file. *)
Definition X20_execa : Git.Execa :=
  git_answers (inr (js "/Users/test/My Projects/my-project"))
    (inr (js "/Users/test/My Projects/my-project  abcd1234 [main]")).

Definition X20_files : Files :=
  {[ js "/Users/test/My Projects/my-project/.wt.conf"
     := js "PORT_OFFSET_INCREMENT=25" ]}.

(** The rule of the README for [docker-compose.yml], and such a file. *)
Definition X21_config : Config :=
  config_of 10 [(js "API_PORT", Num 3000)] []
    [mkFileUpdate (js "docker-compose.yml") (js "replace")
       (js "container_name: myapp-{{WORKTREE_NAME}}")
       (Some (js "container_name: myapp"))
       (Some (js "container_name: myapp-{{WORKTREE_NAME}}"))].

Definition X21_files : Files :=
  {[ js "/w/docker-compose.yml"
     := nl ["services:"; "  web:"; "    container_name: myapp"; "  db:";
            "    image: postgres"]%string ]}.

(** The ports of the README. *)
Definition X22_table : list (jsstring * Z) :=
  [(js "API_PORT", 3000); (js "DB_PORT", 5432)].


(** ** Lemmas *)

#[local] Arguments Ascii.eqb : simpl never.

(** * Facts about characters *)
Section Characters.

Ltac by_cases_on c :=
  destruct c as [[] [] [] [] [] [] [] []]; try discriminate; vm_compute; intuition congruence.

Lemma ident_char_token c :
  is_ident_char c = true -> token_of_char c = KChar c /\ c <> "\"%char.
Proof. by_cases_on c. Qed.

Lemma ident_char_plain c :
  is_ident_char c = true ->
  is_plain_char c = true /\ c <> "="%char /\ c <> "{"%char /\ c <> "}"%char.
Proof. by_cases_on c. Qed.

End Characters.

(** * Building the expressions *)
Section Patterns.

Lemma tokenize_ident k p :
  forallb is_ident_char k = true ->
  tokenize (k ++ p) = map KChar k ++ tokenize p.
Proof.
  induction k as [|c k IH]; simpl; [done|].
  intros [Hc Hk]%andb_prop.
  destruct (ident_char_token c Hc) as [Ht Hb].
  destruct (Ascii.eqb_spec c "\"%char) as [->|_]; [done|].
  by rewrite Ht, IH.
Qed.

Lemma parse_lits k ks ts :
  parse_tokens ks = inr ts -> no_quantifier_first ks ->
  parse_tokens (map KChar k ++ ks) = inr (lits k ++ ts).
Proof.
  intros Hks Hq. induction k as [|c k IH]; simpl; [done|].
  destruct k as [|d k]; simpl in *.
  - destruct ks as [|[] ks]; simplify_eq/=; try done; by rewrite ?Hks.
  - by rewrite IH.
Qed.

Lemma upsert_regex k :
  forallb is_ident_char k = true ->
  RegExp_new (Some (js "^" ++ k ++ js "=.*$")) true true =
  inr (mkRegExp (TBol :: lits k ++
                   [TAtom (AChar "=") QOne; TAtom AAny QStar; TEol]) true true).
Proof.
  intros Hk. unfold RegExp_new. simpl.
  rewrite (tokenize_ident k _ Hk). simpl.
  by erewrite parse_lits.
Qed.

Lemma placeholder_regex k :
  forallb is_ident_char k = true ->
  RegExp_new (Some (js "\{\{" ++ k ++ js "\}\}")) true false =
  inr (mkRegExp (lits (js "{{" ++ k ++ js "}}")) true false).
Proof.
  intros Hk. unfold RegExp_new.
  assert (tokenize (default [] (Some (js "\{\{" ++ k ++ js "\}\}"))) =
          map KChar (js "{{" ++ k ++ js "}}") ++ []) as ->.
  { simpl. rewrite (tokenize_ident k _ Hk). simpl.
    by rewrite map_app, app_nil_r. }
  by rewrite (parse_lits _ [] []), app_nil_r.
Qed.

End Patterns.

(** * Matching *)
Section Matching.

Lemma match_lits m p ts prev s :
  match_terms m (lits p ++ ts) prev s =
  if startsWith s p
  then option_map (Nat.add (length p))
         (match_terms m ts (prev_after prev p) (drop (length p) s))
  else None.
Proof.
  revert prev s. induction p as [|c p IH]; intros prev s; simpl.
  - rewrite drop_0. by destruct (match_terms m ts prev s).
  - destruct s as [|d s]; [done|]. simpl.
    rewrite (Ascii.eqb_sym d c).
    destruct (Ascii.eqb_spec c d) as [<-|_]; simpl; [|done].
    rewrite IH. destruct (startsWith s p); [|done].
    by destruct (match_terms m ts _ _).
Qed.

Lemma match_lits_only m p prev s :
  match_terms m (lits p) prev s =
  if startsWith s p then Some (length p) else None.
Proof.
  rewrite <-(app_nil_r (lits p)), match_lits. simpl.
  destruct (startsWith s p); [|done]. simpl. f_equal. lia.
Qed.

Lemma match_any_eol prev s :
  match_terms true [TAtom AAny QStar; TEol] prev s =
  Some (length (fst (segments s))).
Proof.
  revert prev. induction s as [|c s IH]; intros prev; [done|].
  simpl in *. destruct (segments s) as [l0 rest].
  destruct (is_line_terminator c) eqn:Hc; simpl.
  - done.
  - by rewrite IH.
Qed.

End Matching.

(** * Lines *)
Section LinesFacts.

Lemma unsegments_segments s :
  unsegments (fst (segments s)) (snd (segments s)) = s.
Proof.
  induction s as [|c s IH]; [done|]. simpl.
  destruct (segments s) as [l0 rest]. simpl in IH.
  destruct (is_line_terminator c); simpl; by rewrite <-IH.
Qed.

Lemma segments_ok s :
  line_ok (fst (segments s)) = true /\ segs_ok (snd (segments s)).
Proof.
  induction s as [|c s [IH1 IH2]]; [by split; [|constructor]|]. simpl.
  destruct (segments s) as [l0 rest]. simpl in *.
  destruct (is_line_terminator c) eqn:Hc; simpl.
  - split; [done|]. by constructor.
  - rewrite Hc. by split.
Qed.

Lemma segments_app_tail l tail :
  line_ok l = true -> tail_ok tail ->
  fst (segments (l ++ tail)) = l.
Proof.
  intros Hl Ht. induction l as [|c l IH]; simpl in *.
  - destruct tail as [|t tail]; [done|]. simpl in *.
    destruct (segments tail). by rewrite Ht.
  - apply andb_prop in Hl as [Hc Hl].
    destruct (segments (l ++ tail)) as [l0 rest] eqn:E. simpl in IH.
    destruct (is_line_terminator c); [done|]. simpl. by rewrite IH.
Qed.

Lemma segments_unsegments l0 rest :
  line_ok l0 = true -> segs_ok rest ->
  segments (unsegments l0 rest) = (l0, rest).
Proof.
  revert l0. induction rest as [|[t l1] rest IH]; intros l0 Hl Hr.
  - unfold unsegments. simpl. rewrite app_nil_r.
    induction l0 as [|c l0 IHl]; [done|]. simpl in *.
    apply andb_prop in Hl as [Hc Hl]. rewrite (IHl Hl).
    by destruct (is_line_terminator c).
  - inversion Hr as [|? ? [Ht Hl1] Hr']; subst. simpl in *.
    specialize (IH l1 Hl1 Hr'). unfold unsegments in *. simpl.
    induction l0 as [|c l0 IHl]; simpl in *.
    + by rewrite IH, Ht.
    + apply andb_prop in Hl as [Hc Hl]. rewrite (IHl Hl).
      by destruct (is_line_terminator c).
Qed.

Lemma tail_ok_flat rest :
  segs_ok rest -> tail_ok (flat_map (fun tl => fst tl :: snd tl) rest).
Proof. intros [|[t l] ? [Ht _] _]; simpl; done. Qed.

End LinesFacts.

(** * The replacement string *)
Section Expand.

Lemma expand_plain repl matched before after :
  forallb (fun c => negb (Ascii.eqb c "$")) repl = true ->
  expand repl matched before after = repl.
Proof.
  induction repl as [|c r IH]; simpl; [done|].
  intros [Hc Hr]%andb_prop.
  destruct (Ascii.eqb c "$"); [done|]. by rewrite IH.
Qed.

End Expand.

(** * The scan of [replace] and [test] for the expression of an upsert *)
Section Scan.

Variable k : jsstring.
Hypothesis Hk : forallb is_ident_char k = true.

Local Abbreviation K := (k ++ js "=").

Lemma upsert_re_match prev s :
  match_at (upsert_re k) prev s =
  if at_bol true prev && startsWith s K
  then Some (length K + length (fst (segments (drop (length K) s))))%nat
  else None.
Proof.
  unfold match_at, upsert_re. cbn [multiline source match_terms].
  destruct (at_bol true prev); [|done]. cbn [andb].
  change (lits k ++ [TAtom (AChar "=") QOne; TAtom AAny QStar; TEol]) with
    (lits k ++ lits (js "=") ++ [TAtom AAny QStar; TEol]).
  rewrite app_assoc. unfold lits at 1 2. rewrite <-map_app.
  fold (lits (k ++ js "=")).
  rewrite match_lits, match_any_eol. by destruct (startsWith s K).
Qed.

Lemma K_first_not_terminator c s :
  is_line_terminator c = true -> startsWith (c :: s) K = false.
Proof.
  intros Hc. destruct k as [|d k']; simpl.
  - destruct (Ascii.eqb_spec "="%char c) as [<-|]; [by vm_compute in Hc|done].
  - simpl in Hk. apply andb_prop in Hk as [Hd _].
    destruct (Ascii.eqb_spec d c) as [<-|]; [|done].
    apply ident_char_plain in Hd as [Hd _].
    unfold is_plain_char in Hd. rewrite Hc in Hd.
    by rewrite andb_false_r in Hd.
Qed.

Lemma K_line_ok : line_ok K = true.
Proof.
  unfold line_ok. rewrite forallb_app. apply andb_true_intro. split; [|done].
  apply forallb_forall. intros c Hc.
  rewrite forallb_forall in Hk. apply Hk, ident_char_plain in Hc as [Hc _].
  unfold is_plain_char in Hc. by apply andb_prop in Hc as [_ ->].
Qed.

Lemma startsWith_line p l tail :
  line_ok p = true -> tail_ok tail ->
  startsWith (l ++ tail) p = startsWith l p.
Proof.
  intros Hp Ht. revert l. induction p as [|c p IH]; intros l; [done|].
  simpl in Hp. apply andb_prop in Hp as [Hc Hp].
  destruct l as [|d l]; simpl.
  - destruct tail as [|t tail]; [done|]. simpl in Ht.
    destruct (Ascii.eqb_spec c t) as [->|]; [|done].
    by rewrite Ht in Hc.
  - by rewrite IH.
Qed.

Lemma startsWith_app s p :
  startsWith s p = true -> s = p ++ drop (length p) s.
Proof.
  revert s. induction p as [|c p IH]; intros s; [done|].
  destruct s as [|d s]; [done|]. simpl.
  destruct (Ascii.eqb_spec c d) as [->|]; [|done]. simpl.
  intros H. f_equal. by apply IH.
Qed.

Lemma line_ok_app a b : line_ok (a ++ b) = line_ok a && line_ok b.
Proof. apply forallb_app. Qed.

(** The match at the start of an assignment covers the line. *)
Lemma upsert_re_match_line prev l tail :
  at_bol true prev = true -> line_ok l = true -> tail_ok tail ->
  match_at (upsert_re k) prev (l ++ tail) =
  if is_assignment k l then Some (length l) else None.
Proof.
  intros Hb Hl Ht. rewrite upsert_re_match, Hb. cbn [andb].
  rewrite (startsWith_line _ _ _ K_line_ok Ht). unfold is_assignment.
  destruct (startsWith l K) eqn:Hs; [|done].
  apply startsWith_app in Hs. set (x := drop (length K) l) in Hs.
  clearbody x. subst l.
  rewrite line_ok_app in Hl. apply andb_prop in Hl as [_ Hl].
  rewrite <-app_assoc, drop_app_length, (segments_app_tail _ _ Hl Ht).
  by rewrite (length_app K x).
Qed.

Lemma upsert_re_no_match_inside d s :
  is_line_terminator d = false ->
  match_at (upsert_re k) (Some d) s = None.
Proof. intros Hd. rewrite upsert_re_match. simpl. by rewrite Hd. Qed.

End Scan.

(** * [replace] with the expression of an upsert rewrites the lines *)
Section Replace.

Variable k v : jsstring.
Hypothesis Hk : forallb is_ident_char k = true.
Hypothesis Hv : is_plain v = true.

Local Abbreviation R := (upsert_re k).
Local Abbreviation repl := (k ++ js "=" ++ v).

Lemma repl_expand matched before after :
  expand repl matched before after = repl.
Proof.
  apply expand_plain. rewrite !forallb_app.
  apply andb_true_intro; split; [|apply andb_true_intro; split; [done|]].
  - apply forallb_forall. intros c Hc. rewrite forallb_forall in Hk.
    apply Hk, ident_char_plain in Hc as [Hc _].
    unfold is_plain_char in Hc. by apply andb_prop in Hc as [-> _].
  - apply forallb_forall. intros c Hc. unfold is_plain in Hv.
    rewrite forallb_forall in Hv. apply Hv in Hc.
    unfold is_plain_char in Hc. by apply andb_prop in Hc as [-> _].
Qed.

Lemma replace_loop_skip (r : RegExp) rp a seen tail :
  replace_loop r rp seen (a ++ tail) (length a) =
  replace_loop r rp (rev a ++ seen) tail 0.
Proof.
  revert seen. induction a as [|c a IH]; intros seen; simpl.
  - by destruct tail.
  - by rewrite IH, <-app_assoc.
Qed.

Lemma replace_loop_inside l d seen tail :
  line_ok l = true -> is_line_terminator d = false ->
  replace_loop R repl (d :: seen) (l ++ tail) 0 =
  l ++ replace_loop R repl (rev l ++ d :: seen) tail 0.
Proof.
  revert d seen. induction l as [|c l IH]; intros d seen Hl Hd; [done|].
  simpl in Hl. apply andb_prop in Hl as [Hc Hl].
  apply negb_true_iff in Hc.
  cbn [app replace_loop head].
  rewrite upsert_re_no_match_inside by done.
  rewrite (IH c (d :: seen) Hl Hc). cbn [rev]. by rewrite <-app_assoc.
Qed.

(** One line, scanned from its start. *)
Lemma replace_loop_line l seen tail :
  at_bol true (head seen) = true -> line_ok l = true -> tail_ok tail ->
  replace_loop R repl seen (l ++ tail) 0 =
  assign k v l ++
  match l with
  | [] => replace_loop R repl seen tail 0
  | _ => replace_loop R repl (rev l ++ seen) tail 0
  end.
Proof.
  intros Hb Hl Ht. unfold assign.
  destruct l as [|c l]; [by destruct k|].
  pose proof (upsert_re_match_line k Hk (head seen) (c :: l) tail Hb Hl Ht) as Hm.
  cbn [app] in *. cbn [replace_loop]. rewrite Hm.
  destruct (is_assignment k (c :: l)).
  - rewrite repl_expand. cbn [length]. rewrite replace_loop_skip.
    cbn [rev]. by rewrite <-(app_assoc (rev l) [c] seen).
  - simpl in Hl. apply andb_prop in Hl as [Hc Hl]. apply negb_true_iff in Hc.
    rewrite (replace_loop_inside l c seen tail Hl Hc).
    cbn [rev app]. by rewrite <-app_assoc.
Qed.

Lemma replace_loop_lines rest : forall l0 seen,
  at_bol true (head seen) = true -> line_ok l0 = true -> segs_ok rest ->
  replace_loop R repl seen (unsegments l0 rest) 0 =
  unsegments (assign k v l0)
    (map (fun tl => (fst tl, assign k v (snd tl))) rest).
Proof.
  induction rest as [|[t l1] rest IH]; intros l0 seen Hb Hl Hr.
  - unfold unsegments. cbn [flat_map map]. rewrite (replace_loop_line l0 seen [] Hb Hl I).
    f_equal.
    assert (forall d, replace_loop R repl d [] 0 = []) as Hnil.
    { intros d. cbn [replace_loop].
      rewrite upsert_re_match.
      assert (startsWith [] (k ++ js "=") = false) as -> by (by destruct k).
      by rewrite andb_false_r. }
    destruct l0; apply Hnil.
  - inversion Hr as [|? ? [Ht Hl1] Hr']; subst. simpl in Ht, Hl1.
    unfold unsegments in *. cbn [flat_map map fst snd app].
    rewrite (replace_loop_line l0 seen (t :: l1 ++ _) Hb Hl Ht). f_equal.
    assert (forall d, replace_loop R repl d
              (t :: l1 ++ flat_map (fun tl => fst tl :: snd tl) rest) 0 =
            t :: replace_loop R repl (t :: d)
              (l1 ++ flat_map (fun tl => fst tl :: snd tl) rest) 0) as Hstep.
    { intros d. cbn [replace_loop].
      rewrite upsert_re_match, (K_first_not_terminator k Hk t _ Ht).
      by rewrite andb_false_r. }
    assert (forall d, replace_loop R repl d
              (t :: l1 ++ flat_map (fun tl => fst tl :: snd tl) rest) 0 =
            t :: assign k v l1 ++
            flat_map (fun tl => fst tl :: snd tl)
              (map (fun tl => (fst tl, assign k v (snd tl))) rest)) as Hgo.
    { intros d. rewrite Hstep. f_equal. apply IH; [|done|done].
      simpl. by rewrite Ht. }
    destruct l0; apply Hgo.
Qed.

Theorem replace_upsert content :
  replace content R repl = map_lines (assign k v) content.
Proof.
  unfold replace, map_lines. simpl.
  rewrite <-(unsegments_segments content) at 1.
  destruct (segments_ok content) as [H1 H2].
  by apply replace_loop_lines.
Qed.

End Replace.

(** * [test] with the expression of an upsert looks for an assignment *)
Section TestScan.

Variable k : jsstring.
Hypothesis Hk : forallb is_ident_char k = true.

Local Abbreviation R := (upsert_re k).

Lemma found_unfold (r : RegExp) prev s :
  found r prev s =
  match match_at r prev s with
  | Some _ => true
  | None =>
      match s with
      | c :: s' => found r (Some c) s'
      | [] => false
      end
  end.
Proof.
  unfold found. destruct s as [|c s]; simpl.
  - by destruct (match_at r prev []).
  - destruct (match_at r prev (c :: s)); [done|].
    by destruct (search r (Some c) s) as [[]|].
Qed.

Lemma found_inside l d tail :
  line_ok l = true -> is_line_terminator d = false ->
  found R (Some d) (l ++ tail) = found R (prev_after (Some d) l) tail.
Proof.
  revert d. induction l as [|c l IH]; intros d Hl Hd; [done|].
  simpl in Hl. apply andb_prop in Hl as [Hc Hl]. apply negb_true_iff in Hc.
  rewrite found_unfold.
  rewrite upsert_re_no_match_inside by done.
  cbn [app]. by rewrite IH.
Qed.

Lemma found_line l prev tail :
  at_bol true prev = true -> line_ok l = true -> tail_ok tail ->
  found R prev (l ++ tail) =
  is_assignment k l || found R (prev_after prev l) tail.
Proof.
  intros Hb Hl Ht. destruct l as [|c l]; [by destruct k|].
  rewrite found_unfold.
  rewrite (upsert_re_match_line k Hk prev (c :: l) tail Hb Hl Ht).
  destruct (is_assignment k (c :: l)); [done|].
  simpl in Hl. apply andb_prop in Hl as [Hc Hl]. apply negb_true_iff in Hc.
  cbn [app]. by rewrite found_inside.
Qed.

Lemma found_lines rest : forall l0 prev,
  at_bol true prev = true -> line_ok l0 = true -> segs_ok rest ->
  found R prev (unsegments l0 rest) =
  is_assignment k l0 || existsb (is_assignment k) (map snd rest).
Proof.
  induction rest as [|[t l1] rest IH]; intros l0 prev Hb Hl Hr.
  - unfold unsegments. cbn [flat_map map existsb]. rewrite (found_line l0 prev [] Hb Hl I).
    f_equal. rewrite found_unfold. rewrite upsert_re_match.
    assert (startsWith [] (k ++ js "=") = false) as -> by (by destruct k).
    by rewrite andb_false_r.
  - inversion Hr as [|? ? [Ht Hl1] Hr']; subst. simpl in Ht, Hl1.
    unfold unsegments in *. cbn [flat_map map fst snd app existsb].
    rewrite (found_line l0 prev (t :: l1 ++ _) Hb Hl Ht). f_equal.
    rewrite found_unfold.
    rewrite upsert_re_match, (K_first_not_terminator k Hk t _ Ht), andb_false_r.
    apply IH; [|done|done]. simpl. by rewrite Ht.
Qed.

Theorem test_upsert content : test R content = has_key k content.
Proof.
  unfold has_key, lines. simpl.
  change (test R content) with (found R None content).
  rewrite <-(unsegments_segments content) at 1.
  destruct (segments_ok content) as [H1 H2].
  by apply found_lines.
Qed.

End TestScan.

(** * The upsert statement of the source is [set_variable] *)
Section Upsert.

Theorem upsert_set_variable content k v :
  forallb is_ident_char k = true -> is_plain v = true ->
  upsert content k v = inr (set_variable content k v).
Proof.
  intros Hk Hv. unfold upsert, set_variable.
  rewrite (upsert_regex k Hk). fold (upsert_re k).
  rewrite (test_upsert k Hk). destruct (has_key k content); [|done].
  by rewrite (replace_upsert k v Hk Hv).
Qed.

End Upsert.

(** * Printing numbers *)
Section Numbers.

Lemma uint_chars u :
  forallb is_num_char (js (NilEmpty.string_of_uint u)) = true.
Proof. induction u; simpl; try done. Qed.

Lemma toString_chars n : forallb is_num_char (toString n) = true.
Proof.
  destruct n as [z|]; [|done]. unfold toString, Z_toString.
  destruct (Z.to_int z) as [u|u]; simpl.
  - destruct u; try done; apply (uint_chars (_ u)).
  - destruct u; try done; apply (uint_chars (_ u)).
Qed.

Lemma num_char_plain c :
  is_num_char c = true ->
  is_plain_char c = true /\ c <> "{"%char /\ c <> "}"%char.
Proof.
  destruct c as [[] [] [] [] [] [] [] []]; try discriminate; vm_compute; intuition congruence.
Qed.

Lemma toString_plain n : is_plain (toString n) = true.
Proof.
  unfold is_plain. apply forallb_forall. intros c Hc.
  pose proof (toString_chars n) as H. rewrite forallb_forall in H.
  by apply H, num_char_plain in Hc as [Hc _].
Qed.

End Numbers.

(** * Rewriting lines *)
Section MapLines.

Lemma lines_ok c : Forall (fun l => line_ok l = true) (lines c).
Proof.
  destruct (segments_ok c) as [H1 H2]. unfold lines. constructor; [done|].
  apply Forall_map. eapply Forall_impl; [exact H2|]. by intros [t l] [_ Hl].
Qed.

Lemma segments_map_lines f c :
  line_fun f ->
  segments (map_lines f c) =
  (f (fst (segments c)), map (fun tl => (fst tl, f (snd tl))) (snd (segments c))).
Proof.
  intros Hf. unfold map_lines. destruct (segments_ok c) as [H1 H2].
  apply segments_unsegments; [by apply Hf|].
  apply Forall_map. eapply Forall_impl; [exact H2|].
  intros [t l] [Ht Hl]. split; [done|]. by apply Hf.
Qed.

Lemma lines_map_lines f c :
  line_fun f -> lines (map_lines f c) = map f (lines c).
Proof.
  intros Hf. unfold lines at 1. rewrite (segments_map_lines f c Hf). simpl.
  unfold lines. simpl. f_equal. rewrite !map_map. done.
Qed.

Lemma unsegments_snoc l0 rest t x :
  unsegments l0 (rest ++ [(t, x)]) = unsegments l0 rest ++ t :: x.
Proof.
  unfold unsegments. rewrite flat_map_app. simpl.
  by rewrite app_nil_r, app_assoc.
Qed.

Lemma segments_append c x :
  line_ok x = true ->
  segments (c ++ LF :: x) =
  (fst (segments c), snd (segments c) ++ [(LF, x)]).
Proof.
  intros Hx. rewrite <-(unsegments_segments c) at 1.
  rewrite <-unsegments_snoc. destruct (segments_ok c) as [H1 H2].
  apply segments_unsegments; [done|].
  apply Forall_app. split; [done|]. by repeat constructor.
Qed.

Lemma lines_append c x :
  line_ok x = true -> lines (c ++ LF :: x) = lines c ++ [x].
Proof.
  intros Hx. unfold lines. rewrite (segments_append c x Hx). simpl.
  by rewrite map_app.
Qed.

Lemma map_lines_ext f g c :
  (forall l, In l (lines c) -> f l = g l) -> map_lines f c = map_lines g c.
Proof.
  intros H. unfold map_lines, lines in *. f_equal.
  - apply H. by left.
  - apply map_ext_in. intros [t l] Hl. simpl. f_equal. apply H. right.
    apply in_map_iff. by exists (t, l).
Qed.

Lemma map_lines_id c : map_lines (fun l => l) c = c.
Proof.
  unfold map_lines. rewrite <-(unsegments_segments c) at 3. f_equal.
  rewrite <-(map_id (snd (segments c))) at 2. apply map_ext. by intros [].
Qed.

Lemma map_lines_fixed f c :
  (forall l, In l (lines c) -> f l = l) -> map_lines f c = c.
Proof.
  intros H. rewrite (map_lines_ext f (fun l => l)); [apply map_lines_id|done].
Qed.

Lemma map_lines_compose f g c :
  line_fun f ->
  map_lines g (map_lines f c) = map_lines (fun l => g (f l)) c.
Proof.
  intros Hf. unfold map_lines at 1. rewrite (segments_map_lines f c Hf).
  unfold map_lines. simpl. f_equal. by rewrite map_map.
Qed.

End MapLines.

(** * Assignments *)
Section Assignments.

Lemma plain_line_ok v : is_plain v = true -> line_ok v = true.
Proof.
  unfold is_plain, line_ok. rewrite !forallb_forall. intros H c Hc.
  apply H in Hc. unfold is_plain_char in Hc. by apply andb_prop in Hc as [_ ->].
Qed.

Lemma ident_plain k : forallb is_ident_char k = true -> is_plain k = true.
Proof.
  unfold is_plain. rewrite !forallb_forall. intros H c Hc.
  by apply H, ident_char_plain in Hc as [Hc _].
Qed.

Lemma assignment_line_ok k v :
  forallb is_ident_char k = true -> is_plain v = true ->
  line_ok (k ++ js "=" ++ v) = true.
Proof.
  intros Hk Hv. rewrite !line_ok_app.
  rewrite (plain_line_ok k (ident_plain k Hk)), (plain_line_ok v Hv). done.
Qed.

Lemma assign_line_fun k v :
  forallb is_ident_char k = true -> is_plain v = true ->
  line_fun (assign k v).
Proof.
  intros Hk Hv l Hl. unfold assign.
  destruct (is_assignment k l); [by apply assignment_line_ok|done].
Qed.

Lemma startsWith_refl_app p s : startsWith (p ++ s) p = true.
Proof.
  induction p as [|c p IH]; [done|]. simpl.
  by rewrite Ascii.eqb_refl, IH.
Qed.

Lemma is_assignment_self k v : is_assignment k (k ++ js "=" ++ v) = true.
Proof. unfold is_assignment. rewrite app_assoc. apply startsWith_refl_app. Qed.

(** Two identifiers that start the same assignment are equal. *)
Lemma is_assignment_inj k w l :
  forallb is_ident_char k = true -> forallb is_ident_char w = true ->
  is_assignment k l = true -> is_assignment w l = true -> k = w.
Proof.
  unfold is_assignment. revert w l.
  induction k as [|c k IH]; intros w l Hk Hw H1 H2.
  - destruct w as [|d w]; [done|]. destruct l as [|e l]; [done|].
    simpl in *. apply andb_prop in H1 as [H1 _]. apply andb_prop in H2 as [H2 _].
    apply Ascii.eqb_eq in H1, H2. subst.
    apply andb_prop in Hw as [Hw _]. by apply ident_char_plain in Hw as (_&?&_).
  - destruct l as [|e l]; [done|]. simpl in H1, Hk.
    apply andb_prop in H1 as [H1 H1']. apply Ascii.eqb_eq in H1. subst e.
    apply andb_prop in Hk as [Hc Hk].
    destruct w as [|d w]; simpl in H2.
    + apply andb_prop in H2 as [H2 _]. apply Ascii.eqb_eq in H2. subst.
      by apply ident_char_plain in Hc as (_&?&_).
    + apply andb_prop in H2 as [H2 H2']. apply Ascii.eqb_eq in H2. subst d.
      simpl in Hw. apply andb_prop in Hw as [_ Hw]. f_equal. by eapply IH.
Qed.

Lemma lines_set_variable c k v :
  forallb is_ident_char k = true -> is_plain v = true ->
  lines (set_variable c k v) =
  if has_key k c then map (assign k v) (lines c)
  else lines c ++ [k ++ js "=" ++ v].
Proof.
  intros Hk Hv. unfold set_variable. destruct (has_key k c).
  - by apply lines_map_lines, assign_line_fun.
  - by apply lines_append, assignment_line_ok.
Qed.

Lemma has_key_set_variable c k v :
  forallb is_ident_char k = true -> is_plain v = true ->
  has_key k (set_variable c k v) = true.
Proof.
  intros Hk Hv. unfold has_key at 1. rewrite (lines_set_variable c k v Hk Hv).
  destruct (has_key k c) eqn:E.
  - unfold has_key in E. apply existsb_exists in E as (l & Hl & Hkl).
    apply existsb_exists. exists (assign k v l). split; [by apply in_map|].
    unfold assign. rewrite Hkl. apply is_assignment_self.
  - rewrite existsb_app. cbn [existsb]. by rewrite is_assignment_self, orb_true_r.
Qed.

Lemma has_key_preserved c k v w :
  forallb is_ident_char k = true -> is_plain v = true ->
  forallb is_ident_char w = true ->
  has_key w c = true -> has_key w (set_variable c k v) = true.
Proof.
  intros Hk Hv Hwi Hw. unfold has_key at 1.
  rewrite (lines_set_variable c k v Hk Hv).
  apply existsb_exists in Hw as (l & Hl & Hwl).
  destruct (has_key k c).
  - apply existsb_exists. exists (assign k v l). split; [by apply in_map|].
    unfold assign. destruct (is_assignment k l) eqn:Hkl; [|done].
    rewrite (is_assignment_inj k w l Hk Hwi Hkl Hwl). apply is_assignment_self.
  - rewrite existsb_app. apply orb_true_iff. left.
    apply existsb_exists. by exists l.
Qed.

End Assignments.

(** * Reading, rewriting and writing one file *)
Section Files.

Lemma rewrite_file_ok (p : jsstring) (loop : jsstring -> exn + jsstring)
    (fs : Files) (content' : jsstring) :
  loop (default [] (fs !! p)) = inr content' ->
  rewrite_file p loop fs = (inr tt, <[p := content']> fs).
Proof.
  intros H. unfold rewrite_file, bind, pathExists, readFile, lift, writeFile,
    ensureFile, ret.
  destruct (fs !! p) as [c|] eqn:E; simpl in *.
  - by rewrite E, H.
  - rewrite E, lookup_insert_eq, H. by rewrite insert_insert_eq.
Qed.

Lemma rewrite_file_throw (p : jsstring) (loop : jsstring -> exn + jsstring)
    (fs : Files) (e : exn) :
  loop (default [] (fs !! p)) = inl e ->
  rewrite_file p loop fs =
  (inl e, match fs !! p with Some _ => fs | None => <[p := []]> fs end).
Proof.
  intros H. unfold rewrite_file, bind, pathExists, readFile, lift, writeFile,
    ensureFile, ret.
  destruct (fs !! p) as [c|] eqn:E; simpl in *.
  - by rewrite E, H.
  - by rewrite E, lookup_insert_eq, H.
Qed.

Lemma fold_throw_ok {A B} (body : B -> A -> exn + B) (f : B -> A -> B) l :
  forall b,
  (forall b a, In a l -> body b a = inr (f b a)) ->
  fold_throw body l b = inr (fold_left f l b).
Proof.
  induction l as [|a l IH]; intros b H; [done|]. simpl.
  rewrite H by (by left). apply IH. intros. apply H. by right.
Qed.

End Files.

(** * The members of [Object.prototype] *)
Section Prototype.

Lemma prototype_member_name k i :
  prototype_member k = Some i ->
  In k (js "__proto__" :: prototype_methods) /\
  i = if str_eqb k (js "__proto__") then Prototype else Method k.
Proof.
  unfold prototype_member. destruct (str_eqb k (js "__proto__")) eqn:E.
  - intros [= <-]. apply bool_decide_eq_true_1 in E. split; [by left|done].
  - destruct (includes prototype_methods k) eqn:Hk; [|done]. intros [= <-].
    split; [|done]. right. unfold includes in Hk.
    apply existsb_exists in Hk as (m & Hm & Hkm).
    apply bool_decide_eq_true_1 in Hkm. by subst.
Qed.

Lemma prototype_member_plain k i :
  prototype_member k = Some i ->
  forallb is_ident_char k = true /\ is_plain (inherited_toString i) = true.
Proof.
  intros [Hk ->]%prototype_member_name.
  cbn [In prototype_methods map] in Hk.
  repeat (destruct Hk as [<-|Hk]; [by vm_compute|]). done.
Qed.

Lemma inherited_value_plain k i n :
  prototype_member k = Some i ->
  is_plain (inherited_toString i ++ toString n) = true.
Proof.
  intros [_ Hi]%prototype_member_plain. unfold is_plain in *.
  rewrite forallb_app, Hi. apply toString_plain.
Qed.

End Prototype.

(** * [updateEnvVars] *)
Section EnvVars.

Variable config : Config.

Lemma envVarStep_spec portOffset content v :
  implb (known_port (portMappings config) v) (forallb is_ident_char v) = true ->
  envVarStep config portOffset content v =
  inr (env_var_spec (portMappings config) portOffset content v).
Proof.
  unfold envVarStep, env_var_spec, env_var_value, known_port, obj_get.
  destruct (own_get (portMappings config) v) as [b|].
  - destruct (truthy b); [|done]. simpl. intros Hv.
    apply upsert_set_variable; [done|apply toString_plain].
  - intros _. destruct (prototype_member v) as [i|] eqn:E; [|done].
    apply upsert_set_variable.
    + by apply prototype_member_plain in E as [].
    + by eapply inherited_value_plain.
Qed.

Theorem updateEnvVars_spec (filePath varSpec : jsstring) (portOffset : Z)
    (fs : Files) :
  env_vars_wf (portMappings config) varSpec = true ->
  updateEnvVars config filePath varSpec portOffset fs =
  (inr tt,
   <[filePath :=
       fold_left (env_var_spec (portMappings config) portOffset)
         (map trim (split "," varSpec)) (default [] (fs !! filePath))]> fs).
Proof.
  intros Hwf. unfold env_vars_wf in Hwf. rewrite forallb_forall in Hwf.
  change (updateEnvVars config filePath varSpec portOffset) with
    (rewrite_file filePath
       (fold_throw (envVarStep config portOffset) (map trim (split "," varSpec)))).
  apply rewrite_file_ok, fold_throw_ok.
  intros b a Ha. by apply envVarStep_spec, Hwf.
Qed.

End EnvVars.

(** * Objects *)
Section Objects.

Context {V : Type}.

Lemma str_eqb_refl s : str_eqb s s = true.
Proof. unfold str_eqb. by apply bool_decide_eq_true_2. Qed.

Lemma str_eqb_eq s t : str_eqb s t = true -> s = t.
Proof. unfold str_eqb. by intros ?%bool_decide_eq_true_1. Qed.

Lemma str_eqb_ne s t : s <> t -> str_eqb s t = false.
Proof. unfold str_eqb. by intros ?; apply bool_decide_eq_false_2. Qed.

Lemma own_get_set_eq (o : object V) k v :
  k <> js "__proto__" -> own_get (obj_set o k v) k = Some v.
Proof.
  intros Hk. induction o as [|[k' v'] o IH]; cbn [obj_set own_get].
  - rewrite (str_eqb_ne k (js "__proto__")) by done. cbn [own_get].
    by rewrite str_eqb_refl.
  - destruct (str_eqb k k') eqn:E; cbn [own_get]; by rewrite ?str_eqb_refl, ?E.
Qed.

Lemma own_get_set_ne (o : object V) k k' v :
  k <> k' -> own_get (obj_set o k v) k' = own_get o k'.
Proof.
  intros Hne. induction o as [|[k2 v2] o IH]; cbn [obj_set own_get].
  - destruct (str_eqb k (js "__proto__")); [done|]. cbn [own_get].
    by rewrite (str_eqb_ne k' k).
  - destruct (str_eqb k k2) eqn:E; cbn [own_get].
    + apply str_eqb_eq in E. subst k2. by rewrite !(str_eqb_ne k' k).
    + by rewrite IH.
Qed.

(** An assignment to [__proto__] adds no property. *)
Lemma obj_set_proto (o : object V) v :
  own_get o (js "__proto__") = None -> obj_set o (js "__proto__") v = o.
Proof.
  induction o as [|[k' v'] o IH]; [done|]. cbn [obj_set own_get].
  destruct (str_eqb (js "__proto__") k'); [done|]. intros H. by rewrite IH.
Qed.

Lemma identifier_chars k : is_identifier k = true -> forallb is_ident_char k = true.
Proof. destruct k; [done|]. unfold is_identifier. by intros [_ ?]%andb_prop. Qed.

Lemma identifier_not_index k : is_identifier k = true -> array_index k = None.
Proof.
  destruct k as [|c k]; [done|]. unfold is_identifier, array_index.
  intros [Hc _]%andb_prop. apply negb_true_iff in Hc.
  cbn [forallb]. by rewrite Hc.
Qed.

Lemma entries_named (o : object V) :
  forallb (fun e => is_identifier (fst e)) o = true -> entries o = o.
Proof.
  intros H. unfold entries, named_entries.
  assert (index_entries o = []) as ->.
  { induction o as [|[k v] o IH]; [done|]. simpl in *.
    apply andb_prop in H as [Hk Ho].
    by rewrite (identifier_not_index k Hk), IH. }
  cbn [map app]. induction o as [|[k v] o IH]; [done|]. cbn [forallb fst] in H.
  apply andb_prop in H as [Hk Ho].
  rewrite filter_cons_True by (by apply identifier_not_index).
  by rewrite IH.
Qed.

End Objects.

(** * [split] *)
Section Splitting.

Lemma split_no_sep sep s :
  forallb (fun c => negb (Ascii.eqb c sep)) s = true -> split sep s = [s].
Proof.
  induction s as [|c s IH]; [done|]. simpl.
  intros [Hc Hs]%andb_prop. apply negb_true_iff in Hc.
  by rewrite Hc, IH.
Qed.

Lemma split_first sep s rest :
  forallb (fun c => negb (Ascii.eqb c sep)) s = true ->
  split sep (s ++ sep :: rest) = s :: split sep rest.
Proof.
  induction s as [|c s IH]; simpl.
  - by rewrite Ascii.eqb_refl.
  - intros [Hc Hs]%andb_prop. apply negb_true_iff in Hc.
    by rewrite Hc, IH.
Qed.

End Splitting.

(** * Rendering with identifiers as port variables *)
Section Render.

Variable config : Config.
Hypothesis Hwf : ports_wf config = true.

Lemma substitutePort_literal portOffset result e :
  is_identifier (fst e) = true ->
  substitutePort portOffset result e =
  inr (replace result (literal_re (placeholder (fst e)))
         (toString (add (snd e) (Num portOffset)))).
Proof.
  destruct e as [k b]. cbn [fst snd]. intros Hk. unfold substitutePort.
  by rewrite (placeholder_regex k (identifier_chars k Hk)).
Qed.

Theorem substituteTemplate_render template worktreeName worktreeIndex portOffset :
  substituteTemplate config (Some template) worktreeName worktreeIndex portOffset
  = inr (render (portMappings config) worktreeName worktreeIndex portOffset
           template).
Proof.
  unfold substituteTemplate, render.
  change (RegExp_new (Some (js "\{\{WORKTREE_NAME\}\}")) true false) with
    (@inr exn _ (literal_re (placeholder (js "WORKTREE_NAME")))).
  change (RegExp_new (Some (js "\{\{WORKTREE_INDEX\}\}")) true false) with
    (@inr exn _ (literal_re (placeholder (js "WORKTREE_INDEX")))).
  cbv iota beta.
  rewrite (entries_named (portMappings config) Hwf).
  apply fold_throw_ok. intros b a Ha. apply substitutePort_literal.
  unfold ports_wf in Hwf. rewrite forallb_forall in Hwf. by apply Hwf.
Qed.

End Render.

(** * Batches of rules *)
Section Batch.

Lemma for_each_app {A} (pre post : list A) (body : A -> IO unit) (fs fs1 : Files) :
  for_each pre body fs = (inr tt, fs1) ->
  for_each (pre ++ post) body fs = for_each post body fs1.
Proof.
  revert fs. induction pre as [|a pre IH]; intros fs H; simpl in *.
  - unfold ret in H. by simplify_eq.
  - unfold bind in *. destruct (body a fs) as [[e|[]] fs'] eqn:E; [done|].
    by apply IH.
Qed.

End Batch.

(** * Lines kept and lines written by an upsert *)
Section LineMembership.

Lemma line_created c k v :
  forallb is_ident_char k = true -> is_plain v = true ->
  In (k ++ js "=" ++ v) (lines (set_variable c k v)).
Proof.
  intros Hk Hv. rewrite (lines_set_variable c k v Hk Hv).
  destruct (has_key k c) eqn:E.
  - unfold has_key in E. apply existsb_exists in E as (l & Hl & Hkl).
    apply in_map_iff. exists l. split; [|done]. unfold assign. by rewrite Hkl.
  - apply in_app_iff. right. by left.
Qed.

Lemma line_preserved c k v l :
  forallb is_ident_char k = true -> is_plain v = true ->
  In l (lines c) -> is_assignment k l = false ->
  In l (lines (set_variable c k v)).
Proof.
  intros Hk Hv Hl Hkl. rewrite (lines_set_variable c k v Hk Hv).
  destruct (has_key k c).
  - apply in_map_iff. exists l. split; [|done]. unfold assign. by rewrite Hkl.
  - apply in_app_iff. by left.
Qed.

Lemma other_assignment k w v :
  forallb is_ident_char k = true -> forallb is_ident_char w = true ->
  k <> w -> is_assignment k (w ++ js "=" ++ v) = false.
Proof.
  intros Hk Hw Hne. destruct (is_assignment k _) eqn:E; [|done].
  destruct Hne. eapply is_assignment_inj; [done|done|exact E|].
  apply is_assignment_self.
Qed.

End LineMembership.

(** * [updatePortVariables] *)
Section PortVariables.

Variable config : Config.

Lemma portVariableStep_spec portOffset content e :
  is_identifier (fst e) = true ->
  portVariableStep portOffset content e = inr (set_port portOffset content e).
Proof.
  destruct e as [k b]. cbn [fst]. intros Hk. unfold portVariableStep, set_port.
  apply upsert_set_variable; [by apply identifier_chars|apply toString_plain].
Qed.

Lemma updatePortVariables_spec (worktreeDir : jsstring) (pm : object number)
    (portOffset : Z) (fs : Files) :
  forallb (fun e : jsstring * number => is_identifier (fst e)) pm = true ->
  let envPath := path_join worktreeDir (js ".env") in
  updatePortVariables worktreeDir pm portOffset fs =
  (inr tt,
   <[envPath := fold_left (set_port portOffset) pm (default [] (fs !! envPath))]> fs).
Proof.
  intros Hpm envPath.
  change (updatePortVariables worktreeDir pm portOffset) with
    (rewrite_file envPath (fold_throw (portVariableStep portOffset) (entries pm))).
  apply rewrite_file_ok. rewrite (entries_named pm Hpm).
  apply fold_throw_ok. intros b a Ha. apply portVariableStep_spec.
  rewrite forallb_forall in Hpm. by apply Hpm.
Qed.

Lemma fold_set_port_keeps portOffset (pm : object number) : forall content l,
  forallb (fun e : jsstring * number => is_identifier (fst e)) pm = true ->
  In l (lines content) ->
  (forall e, In e pm -> is_assignment (fst e) l = false) ->
  In l (lines (fold_left (set_port portOffset) pm content)).
Proof.
  induction pm as [|e pm IH]; intros content l Hpm Hl Hno; [done|].
  cbn [forallb] in Hpm. apply andb_prop in Hpm as [He Hpm]. cbn [fold_left].
  apply IH; [done| |by intros; apply Hno; right].
  apply line_preserved;
    [by apply identifier_chars|apply toString_plain|done|by apply Hno; left].
Qed.

Lemma fold_set_port_writes portOffset (pm : object number) : forall content e,
  forallb (fun e : jsstring * number => is_identifier (fst e)) pm = true ->
  NoDup (map fst pm) -> In e pm ->
  In (port_line portOffset e) (lines (fold_left (set_port portOffset) pm content)).
Proof.
  induction pm as [|e' pm IH]; intros content e Hpm Hnd Hin; [done|].
  cbn [forallb] in Hpm. apply andb_prop in Hpm as [He Hpm].
  cbn [map] in Hnd. apply NoDup_cons in Hnd as [Hfresh Hnd]. cbn [fold_left].
  destruct Hin as [->|Hin]; [|by apply IH].
  apply fold_set_port_keeps; [done| |].
  - apply line_created; [by apply identifier_chars|apply toString_plain].
  - intros e2 He2. rewrite forallb_forall in Hpm.
    apply other_assignment;
      [by apply identifier_chars, Hpm|by apply identifier_chars|].
    intros Heq. apply Hfresh. rewrite <-Heq. apply list_elem_of_In.
    by apply in_map.
Qed.

End PortVariables.

Lemma own_get_In {V} (o : object V) k v : own_get o k = Some v -> In (k, v) o.
Proof.
  induction o as [|[k' v'] o IH]; [done|]. cbn [own_get].
  destruct (str_eqb k k') eqn:E.
  - apply str_eqb_eq in E. intros [= ->]. subst. by left.
  - intros H. right. by apply IH.
Qed.

(** * [parseConfig] *)
Section Parsing.

Lemma split_nonempty sep s : split sep s <> [].
Proof.
  destruct s as [|c s]; [done|]. simpl.
  destruct (Ascii.eqb c sep); [done|]. by destruct (split sep s).
Qed.

Lemma split_second sep p s :
  forallb (fun c => negb (Ascii.eqb c sep)) p = true ->
  startsWith s (p ++ [sep]) = true ->
  is_Some (split sep s !! 1%nat).
Proof.
  intros Hp Hs. apply startsWith_app in Hs. rewrite Hs, <-app_assoc. simpl.
  rewrite (split_first sep p _ Hp). simpl.
  destruct (split sep (drop (length (p ++ [sep])) s)) eqn:E; [|eauto].
  by apply split_nonempty in E.
Qed.

Lemma parseStartContainers_total trimmed c :
  exists c', parseStartContainers trimmed c = inr c'.
Proof.
  unfold parseStartContainers.
  destruct (startsWith trimmed (js "START_CONTAINERS=")) eqn:E; [|eauto].
  destruct (split_second "=" (js "START_CONTAINERS") trimmed eq_refl E) as [v ->].
  destruct (includes _ _); [eauto|]. destruct (includes _ _); eauto.
Qed.

Lemma parseLine_total content c line :
  exists c', parseLine content c line = inr c'.
Proof.
  unfold parseLine. destruct (_ || _); [eauto|].
  destruct (parseStartContainers_total (trim line) c) as [c' ->]. eauto.
Qed.

Lemma parseConfig_total content : exists cfg, parseConfig content = inr cfg.
Proof.
  unfold parseConfig. generalize loadDefaultConfig.
  induction (split LF content) as [|line ls IH]; intros c; simpl; [eauto|].
  destruct (parseLine_total content c line) as [c' ->]. apply IH.
Qed.

Lemma addPortMapping_item pm mapping :
  addPortMapping pm mapping =
  match port_item mapping with
  | Some (k, x) => obj_set pm k x
  | None => pm
  end.
Proof.
  unfold addPortMapping, port_item.
  destruct (split ":" mapping !! 1%nat); [|done].
  by destruct (negb _).
Qed.

Lemma port_item_invalid varName number :
  varName <> [] -> no_colon varName = true -> no_colon number = true ->
  port_item (varName ++ js ":" ++ number) = Some (varName, parseInt number).
Proof.
  intros Hv Hcv Hcn. unfold port_item, js. simpl.
  rewrite (split_first ":" varName) by done.
  rewrite (split_no_sep ":" number) by done. simpl.
  by rewrite str_eqb_ne.
Qed.

(** The table after the items: the last item of a name decides. *)
Lemma fold_addPortMapping_nan items : forall pm k,
  k <> js "__proto__" ->
  (own_get pm k = Some NaN \/
   exists it, In it items /\ port_item it = Some (k, NaN)) ->
  (forall it x, In it items -> port_item it = Some (k, x) -> x = NaN) ->
  own_get (fold_left addPortMapping items pm) k = Some NaN.
Proof.
  induction items as [|it items IH]; intros pm k Hk Hsome Hall.
  - destruct Hsome as [?|(?&[]&_)]. done.
  - cbn [fold_left]. apply IH; [done| |by intros; eapply Hall; [right|]].
    rewrite addPortMapping_item.
    destruct (port_item it) as [[k' x]|] eqn:E.
    + destruct (decide (k' = k)) as [->|Hne].
      * left. rewrite (Hall it x (or_introl eq_refl) E). by apply own_get_set_eq.
      * rewrite (own_get_set_ne pm k' k x Hne).
        destruct Hsome as [?|(it'&[->|Hin]&Hit')]; [by left| |by right; eauto].
        rewrite E in Hit'. by simplify_eq.
    + destruct Hsome as [?|(it'&[->|Hin]&Hit')]; [by left| |by right; eauto].
      by rewrite E in Hit'.
Qed.

Lemma parseStartContainers_ports trimmed c c' :
  parseStartContainers trimmed c = inr c' -> portMappings c' = portMappings c.
Proof.
  unfold parseStartContainers. destruct (startsWith _ _); [|by intros [= <-]].
  destruct (_ !! _); [|done].
  destruct (includes _ _); [by intros [= <-]|].
  destruct (includes _ _); by intros [= <-].
Qed.

Lemma parsePortOffsetIncrement_ports trimmed c :
  portMappings (parsePortOffsetIncrement trimmed c) = portMappings c.
Proof.
  unfold parsePortOffsetIncrement. destruct (startsWith _ _); [|done].
  by destruct (from_option _ _ _).
Qed.

Lemma parseArrays_ports content trimmed c :
  portMappings (parseArrays content trimmed c) =
  if startsWith trimmed (js "PORT_MAPPINGS=(")
  then fold_left addPortMapping (parseArray content (js "PORT_MAPPINGS"))
         (portMappings c)
  else portMappings c.
Proof.
  unfold parseArrays.
  destruct (startsWith trimmed (js "PORT_MAPPINGS=("));
    destruct (startsWith trimmed (js "CONTAINER_NAMES=("));
    destruct (startsWith trimmed (js "ENV_FILES=("));
    by destruct (startsWith trimmed (js "FILE_UPDATES=(")).
Qed.

Lemma parseLine_ports content c line c' :
  parseLine content c line = inr c' ->
  portMappings c' =
  if opens_port_mappings line
  then fold_left addPortMapping (parseArray content (js "PORT_MAPPINGS"))
         (portMappings c)
  else portMappings c.
Proof.
  unfold parseLine, opens_port_mappings.
  destruct (str_eqb (trim line) [] || is_comment (trim line)) eqn:E.
  - intros [= <-]. apply orb_true_iff in E as [E|E].
    + apply str_eqb_eq in E. by rewrite E.
    + unfold is_comment in E. destruct (trim line) as [|ch r]; [done|].
      simpl in *. apply andb_prop in E as [E _]. apply Ascii.eqb_eq in E.
      by subst ch.
  - destruct (parseStartContainers (trim line) c) as [|c1] eqn:E1; [done|].
    intros [= <-]. rewrite parseArrays_ports, parsePortOffsetIncrement_ports.
    by rewrite (parseStartContainers_ports _ _ _ E1).
Qed.

End Parsing.

(** * Replacing a literal text *)
Section Literal.

Lemma literal_match_at p prev s :
  match_at (literal_re p) prev s =
  if startsWith s p then Some (length p) else None.
Proof. apply match_lits_only. Qed.

(** A literal expression at a position where its text stands. *)
Lemma literal_replace_at p repl seen b :
  p <> [] ->
  replace_loop (literal_re p) repl seen (p ++ b) 0 =
  expand repl p (rev seen) b
  ++ replace_loop (literal_re p) repl (rev p ++ seen) b 0.
Proof.
  intros Hp. destruct p as [|c p]; [done|].
  assert (forall s, replace_loop (literal_re (c :: p)) repl seen s 0 =
    match match_at (literal_re (c :: p)) (head seen) s with
    | Some n =>
        expand repl (take n s) (rev seen) (drop n s) ++
        match s with
        | d :: s' =>
            match n with
            | O => d :: replace_loop (literal_re (c :: p)) repl (d :: seen) s' 0
            | S k => replace_loop (literal_re (c :: p)) repl (d :: seen) s' k
            end
        | [] => []
        end
    | None =>
        match s with
        | d :: s' => d :: replace_loop (literal_re (c :: p)) repl (d :: seen) s' 0
        | [] => []
        end
    end) as -> by (by intros []).
  rewrite literal_match_at, startsWith_refl_app.
  rewrite take_app_length, drop_app_length. f_equal.
  cbn [app length rev]. by rewrite replace_loop_skip, <-app_assoc.
Qed.

End Literal.

(** * Replacing a placeholder *)
Section Placeholders.

Variable K : jsstring.
Variable repl : jsstring.
Hypothesis Hrepl : no_dollar repl = true.

Local Abbreviation R := (literal_re (placeholder K)).

Lemma replace_loop_plain a : forall seen b,
  no_open_brace a = true ->
  replace_loop R repl seen (a ++ b) 0 = a ++ replace_loop R repl (rev a ++ seen) b 0.
Proof.
  induction a as [|c a IH]; intros seen b Ha; [done|].
  cbn [forallb no_open_brace] in Ha. apply andb_prop in Ha as [Hc Ha].
  apply negb_true_iff in Hc.
  cbn [app replace_loop]. rewrite literal_match_at.
  assert (startsWith (c :: a ++ b) (placeholder K) = false) as ->.
  { unfold placeholder, js. simpl. rewrite Ascii.eqb_sym. by rewrite Hc. }
  rewrite IH by done. cbn [rev]. by rewrite <-app_assoc.
Qed.

Lemma replace_loop_nil seen : replace_loop R repl seen [] 0 = [].
Proof. cbn [replace_loop]. by rewrite literal_match_at. Qed.

Lemma replace_plain s :
  no_open_brace s = true -> replace s R repl = s.
Proof.
  intros Hs. unfold replace. change (global R) with true. cbv iota.
  rewrite <-(app_nil_r s) at 1. rewrite (replace_loop_plain s [] [] Hs).
  by rewrite replace_loop_nil, app_nil_r.
Qed.

Lemma replace_same pre post :
  no_open_brace pre = true -> no_open_brace post = true ->
  replace (pre ++ placeholder K ++ post) R repl = pre ++ repl ++ post.
Proof.
  intros Hpre Hpost. unfold replace. change (global R) with true. cbv iota.
  rewrite (replace_loop_plain pre [] _ Hpre). f_equal.
  rewrite (literal_replace_at (placeholder K) repl) by done.
  rewrite (expand_plain repl _ _ _ Hrepl). f_equal.
  rewrite <-(app_nil_r post) at 1. rewrite (replace_loop_plain post _ [] Hpost).
  by rewrite replace_loop_nil, app_nil_r.
Qed.

End Placeholders.

Lemma startsWith_placeholder s K :
  startsWith ("{"%char :: "{"%char :: s) (placeholder K)
  = startsWith s (K ++ js "}}").
Proof.
  change (placeholder K) with ("{"%char :: "{"%char :: K ++ js "}}").
  cbn [startsWith]. by rewrite !Ascii.eqb_refl.
Qed.

Lemma startsWith_placeholder_no c s K :
  c <> "{"%char -> startsWith ("{"%char :: c :: s) (placeholder K) = false.
Proof.
  intros Hc. change (placeholder K) with ("{"%char :: "{"%char :: K ++ js "}}").
  cbn [startsWith]. rewrite Ascii.eqb_refl.
  by destruct (Ascii.eqb_spec "{"%char c) as [<-|].
Qed.

Section OtherPlaceholder.

Variable K P : jsstring.
Variable repl : jsstring.
Hypothesis HK : forallb is_ident_char K = true.
Hypothesis HP : forallb is_ident_char P = true.
Hypothesis Hne : K <> P.

Lemma ident_no_open_brace k :
  forallb is_ident_char k = true -> no_open_brace k = true.
Proof.
  unfold no_open_brace. rewrite !forallb_forall. intros H c Hc.
  apply H, ident_char_plain in Hc as (_&_&Hc&_).
  apply negb_true_iff. by destruct (Ascii.eqb_spec c "{"%char).
Qed.

(** Two identifiers closed by the same brace are equal. *)
Lemma closed_ident_inj k p s :
  forallb is_ident_char k = true -> forallb is_ident_char p = true ->
  startsWith (p ++ js "}}" ++ s) (k ++ js "}}") = true -> k = p.
Proof.
  revert p. induction k as [|c k IH]; intros p Hk Hp H.
  - destruct p as [|d p]; [done|]. simpl in H, Hp.
    apply andb_prop in H as [H _]. apply Ascii.eqb_eq in H. subst d.
    apply andb_prop in Hp as [Hp _]. by apply ident_char_plain in Hp as (_&_&_&?).
  - simpl in Hk. apply andb_prop in Hk as [Hc Hk].
    destruct p as [|d p]; simpl in H.
    + apply andb_prop in H as [H _]. apply Ascii.eqb_eq in H. subst c.
      by apply ident_char_plain in Hc as (_&_&_&?).
    + apply andb_prop in H as [H H']. apply Ascii.eqb_eq in H. subst d.
      simpl in Hp. apply andb_prop in Hp as [_ Hp]. f_equal. by apply IH.
Qed.

Lemma replace_other pre post :
  no_open_brace pre = true -> no_open_brace post = true ->
  replace (pre ++ placeholder P ++ post) (literal_re (placeholder K)) repl
  = pre ++ placeholder P ++ post.
Proof.
  intros Hpre Hpost. unfold replace.
  change (global (literal_re (placeholder K))) with true. cbv iota.
  rewrite (replace_loop_plain K repl pre [] _ Hpre). f_equal.
  remember (rev pre ++ []) as seen eqn:Hseen. clear Hseen.
  change (placeholder P ++ post) with
    ("{"%char :: "{"%char :: (P ++ js "}}") ++ post).
  cbn [replace_loop]. rewrite literal_match_at.
  rewrite startsWith_placeholder, <-app_assoc.
  assert (startsWith (P ++ js "}}" ++ post) (K ++ js "}}") = false) as ->.
  { destruct (startsWith _ _) eqn:E; [|done].
    destruct Hne. by eapply closed_ident_inj. }
  f_equal. cbn [replace_loop]. rewrite literal_match_at.
  assert (startsWith ("{"%char :: P ++ js "}}" ++ post) (placeholder K) = false)
    as ->.
  { destruct P as [|d p]; [by apply startsWith_placeholder_no|].
    apply startsWith_placeholder_no.
    cbn [forallb] in HP. apply andb_prop in HP as [Hd _].
    by apply ident_char_plain in Hd as (_&_&Hd&_). }
  f_equal.
  rewrite <-(app_nil_r (P ++ js "}}" ++ post)) at 1.
  rewrite replace_loop_plain, replace_loop_nil, app_nil_r; [done|].
  pose proof (ident_no_open_brace P HP) as HP'.
  unfold no_open_brace in *. rewrite !forallb_app.
  by rewrite HP', Hpost.
Qed.

End OtherPlaceholder.

(** * Rendering one placeholder *)
Section RenderPlaceholder.

Variable pm : object number.
Hypothesis Hpm : forallb (fun e : jsstring * number => is_identifier (fst e)) pm = true.

Variable worktreeName : jsstring.
Variable worktreeIndex portOffset : Z.

Lemma toString_no_dollar n : no_dollar (toString n) = true.
Proof.
  pose proof (toString_plain n) as H. unfold is_plain, no_dollar in *.
  rewrite forallb_forall in *. intros c Hc. apply H in Hc.
  unfold is_plain_char in Hc. by apply andb_prop in Hc as [-> _].
Qed.

Lemma toString_no_open_brace n : no_open_brace (toString n) = true.
Proof.
  pose proof (toString_chars n) as H. unfold no_open_brace.
  rewrite forallb_forall in *. intros c Hc.
  apply H, num_char_plain in Hc as (_&Hc&_).
  apply negb_true_iff. by destruct (Ascii.eqb_spec c "{"%char).
Qed.

Lemma port_rounds_plain (o : object number) s :
  no_open_brace s = true -> fold_left (port_round portOffset) o s = s.
Proof.
  intros Hs. induction o as [|e o IH]; [done|]. cbn [fold_left].
  unfold port_round at 2. by rewrite replace_plain.
Qed.

Lemma port_rounds_placeholder (o : object number) pre post P b :
  forallb (fun e : jsstring * number => is_identifier (fst e)) o = true ->
  NoDup (map fst o) -> In (P, b) o ->
  no_open_brace pre = true -> no_open_brace post = true ->
  fold_left (port_round portOffset) o (pre ++ placeholder P ++ post)
  = pre ++ toString (add b (Num portOffset)) ++ post.
Proof.
  intros Ho Hnd Hin Hpre Hpost. induction o as [|[k b'] o IH]; [done|].
  cbn [forallb fst] in Ho. apply andb_prop in Ho as [Hk Ho].
  cbn [map fst] in Hnd. apply NoDup_cons in Hnd as [Hfresh Hnd].
  cbn [fold_left]. unfold port_round at 2. cbn [fst snd].
  destruct Hin as [[= -> ->]|Hin].
  - rewrite replace_same by (done || apply toString_no_dollar).
    apply port_rounds_plain. unfold no_open_brace in *. rewrite !forallb_app.
    pose proof (toString_no_open_brace (add b (Num portOffset))) as Hn.
    unfold no_open_brace in Hn. by rewrite Hpre, Hn, Hpost.
  - assert (is_identifier P = true) as HP.
    { rewrite forallb_forall in Ho. by apply (Ho (P, b)). }
    rewrite replace_other; [by apply IH| | | |done|done].
    + by apply identifier_chars.
    + by apply identifier_chars.
    + intros ->. apply Hfresh. apply list_elem_of_In.
      by apply (in_map fst _ (P, b)).
Qed.

Theorem render_port_placeholder pre post P b :
  NoDup (map fst pm) -> In (P, b) pm ->
  P <> js "WORKTREE_NAME" -> P <> js "WORKTREE_INDEX" ->
  no_open_brace pre = true -> no_open_brace post = true ->
  render pm worktreeName worktreeIndex portOffset (pre ++ placeholder P ++ post)
  = pre ++ toString (add b (Num portOffset)) ++ post.
Proof.
  intros Hnd Hin Hn1 Hn2 Hpre Hpost. unfold render.
  assert (is_identifier P = true) as HP.
  { rewrite forallb_forall in Hpm. by apply (Hpm (P, b)). }
  rewrite !replace_other by (done || by apply identifier_chars).
  by apply port_rounds_placeholder.
Qed.

Theorem render_name_placeholder pre post :
  no_dollar worktreeName = true -> no_open_brace worktreeName = true ->
  no_open_brace pre = true -> no_open_brace post = true ->
  render pm worktreeName worktreeIndex portOffset
    (pre ++ placeholder (js "WORKTREE_NAME") ++ post)
  = pre ++ worktreeName ++ post.
Proof.
  intros Hd Hb Hpre Hpost. unfold render.
  rewrite replace_same by done.
  assert (no_open_brace (pre ++ worktreeName ++ post) = true) as Hall.
  { unfold no_open_brace in *. rewrite !forallb_app. by rewrite Hpre, Hb, Hpost. }
  rewrite replace_plain by done. by apply port_rounds_plain.
Qed.

End RenderPlaceholder.

(** * Upserts are idempotent on a content *)
Section Idempotence.

Lemma kv_wf_parts kv :
  kv_wf kv = true -> forallb is_ident_char (fst kv) = true /\ is_plain (snd kv) = true.
Proof. by intros ?%andb_prop. Qed.

Lemma apply_kvs_app a b c : apply_kvs (a ++ b) c = apply_kvs b (apply_kvs a c).
Proof. apply fold_left_app. Qed.

(** After the upserts every variable has an assignment. *)
Lemma keys_present kvs : forall c k,
  forallb kv_wf kvs = true -> forallb is_ident_char k = true ->
  has_key k c = true \/ In k (map fst kvs) ->
  has_key k (apply_kvs kvs c) = true.
Proof.
  induction kvs as [|[k1 v1] kvs IH]; intros c k Hwf Hk Hcase.
  - by destruct Hcase as [?|[]].
  - cbn [forallb] in Hwf. apply andb_prop in Hwf as [H1 Hwf].
    apply kv_wf_parts in H1 as [Hk1 Hv1]. cbn [fst snd] in *.
    cbn [apply_kvs fold_left]. apply (IH _ _ Hwf Hk).
    cbn [map fst] in Hcase. destruct Hcase as [Hc|[<-|Hin]].
    + left. by apply has_key_preserved.
    + left. by apply has_key_set_variable.
    + by right.
Qed.

(** With every variable assigned, the upserts only rewrite lines. *)
Lemma apply_kvs_map_lines kvs : forall c,
  forallb kv_wf kvs = true ->
  (forall k, In k (map fst kvs) -> has_key k c = true) ->
  apply_kvs kvs c = map_lines (assign_kvs kvs) c.
Proof.
  induction kvs as [|[k1 v1] kvs IH]; intros c Hwf Hkeys.
  - symmetry. apply map_lines_id.
  - cbn [forallb] in Hwf. apply andb_prop in Hwf as [H1 Hwf].
    pose proof (forallb_forall kv_wf kvs) as [Hall _]. specialize (Hall Hwf).
    apply kv_wf_parts in H1 as [Hk1 Hv1]. cbn [fst snd] in *.
    cbn [apply_kvs fold_left]. unfold set_kv at 2. cbn [fst snd].
    unfold set_variable. rewrite (Hkeys k1) by (by left).
    fold (apply_kvs kvs (map_lines (assign k1 v1) c)).
    rewrite IH; [|done|].
    + by rewrite map_lines_compose by (by apply assign_line_fun).
    + intros k Hk.
      assert (forallb is_ident_char k = true) as Hki.
      { apply in_map_iff in Hk as (kv & <- & Hkv). by apply Hall, kv_wf_parts in Hkv as []. }
      pose proof (has_key_preserved c k1 v1 k Hk1 Hv1 Hki) as Hp.
      unfold set_variable in Hp. rewrite (Hkeys k1) in Hp by (by left).
      apply Hp, Hkeys. by right.
Qed.

Lemma assign_kvs_keeps_assignment kvs : forall k l,
  forallb kv_wf kvs = true -> forallb is_ident_char k = true ->
  is_assignment k l = true -> is_assignment k (assign_kvs kvs l) = true.
Proof.
  induction kvs as [|[k1 v1] kvs IH]; intros k l Hwf Hk Hl; [done|].
  cbn [forallb] in Hwf. apply andb_prop in Hwf as [H1 Hwf].
  apply kv_wf_parts in H1 as [Hk1 Hv1]. cbn [fst snd] in *.
  cbn [assign_kvs fold_left fst snd]. apply (IH _ _ Hwf Hk).
  unfold assign. destruct (is_assignment k1 l) eqn:E; [|done].
  rewrite (is_assignment_inj k k1 l Hk Hk1 Hl E). apply is_assignment_self.
Qed.

Lemma assign_kvs_snoc kvs k v l :
  assign_kvs (kvs ++ [(k, v)]) l = assign k v (assign_kvs kvs l).
Proof. unfold assign_kvs. by rewrite fold_left_app. Qed.

Lemma assign_fixed k v l :
  is_assignment k l = true -> assign k v l = k ++ js "=" ++ v.
Proof. unfold assign. by intros ->. Qed.

(** The lines that the upserts leave are fixed by rewriting again. *)
Lemma lines_fixed kvs : forall c l,
  forallb kv_wf kvs = true ->
  In l (lines (apply_kvs kvs c)) -> assign_kvs kvs l = l.
Proof.
  induction kvs as [|[k v] kvs IH] using rev_ind; intros c l Hwf Hl; [done|].
  rewrite forallb_app in Hwf. apply andb_prop in Hwf as [Hwf Hkv].
  cbn [forallb] in Hkv. rewrite andb_true_r in Hkv.
  apply kv_wf_parts in Hkv as [Hk Hv]. cbn [fst snd] in *.
  rewrite assign_kvs_snoc. rewrite apply_kvs_app in Hl.
  cbn [apply_kvs fold_left] in Hl. unfold set_kv in Hl. cbn [fst snd] in Hl.
  fold (apply_kvs kvs c) in Hl. rewrite (lines_set_variable _ k v Hk Hv) in Hl.
  assert (l = k ++ js "=" ++ v \/
          (In l (lines (apply_kvs kvs c)) /\ is_assignment k l = false)) as [->|[Hin Hno]].
  { destruct (has_key k (apply_kvs kvs c)) eqn:E.
    - apply in_map_iff in Hl as (l0 & <- & Hl0). unfold assign.
      destruct (is_assignment k l0) eqn:E0; [by left|right]. by rewrite E0.
    - apply in_app_iff in Hl as [Hl|[<-|[]]]; [right|by left].
      split; [done|]. destruct (is_assignment k l) eqn:E0; [|done].
      unfold has_key in E. rewrite <-E. symmetry. apply existsb_exists. eauto. }
  - apply assign_fixed, assign_kvs_keeps_assignment; [done|done|].
    apply is_assignment_self.
  - rewrite (IH c l Hwf Hin). unfold assign. by rewrite Hno.
Qed.

Theorem apply_kvs_idempotent kvs c :
  forallb kv_wf kvs = true ->
  apply_kvs kvs (apply_kvs kvs c) = apply_kvs kvs c.
Proof.
  intros Hwf. rewrite apply_kvs_map_lines; [|done|].
  - apply map_lines_fixed. intros l Hl. by eapply lines_fixed.
  - intros k Hk. apply keys_present; [done| |by right].
    apply in_map_iff in Hk as (kv & <- & Hkv).
    rewrite forallb_forall in Hwf. by apply Hwf, kv_wf_parts in Hkv as [].
Qed.

End Idempotence.

(** * Jobs are idempotent on the files *)
Section Jobs.

Lemma job_kvs_untouched p jobs : touched p jobs = false -> job_kvs p jobs = [].
Proof.
  induction jobs as [|j jobs IH]; [done|]. cbn [touched existsb job_kvs flat_map].
  intros [Hj Hjobs]%orb_false_elim. rewrite Hj. by apply IH.
Qed.

Lemma run_jobs_lookup (jobs : list job) : forall (fs : Files) (p : jsstring),
  run_jobs jobs fs !! p =
  if touched p jobs
  then Some (apply_kvs (job_kvs p jobs) (default [] (fs !! p)))
  else fs !! p.
Proof.
  induction jobs as [|[q kvs] jobs IH]; intros fs p; [done|].
  cbn [run_jobs fold_left]. fold (run_jobs jobs (run_job fs (q, kvs))).
  rewrite IH. cbn [touched existsb job_kvs flat_map fst snd].
  fold (touched p jobs). fold (job_kvs p jobs). unfold run_job. cbn [fst snd].
  destruct (str_eqb q p) eqn:E.
  - apply str_eqb_eq in E. subst q. rewrite lookup_insert_eq. cbn [orb default].
    destruct (touched p jobs) eqn:Ht.
    + by rewrite apply_kvs_app.
    + by rewrite (job_kvs_untouched p jobs Ht), app_nil_r.
  - assert (q <> p) as Hne by (intros ->; by rewrite str_eqb_refl in E).
    rewrite lookup_insert_ne by done. done.
Qed.

Lemma job_kvs_wf p jobs :
  forallb job_wf jobs = true -> forallb kv_wf (job_kvs p jobs) = true.
Proof.
  induction jobs as [|j jobs IH]; [done|]. cbn [forallb].
  intros [Hj Hjobs]%andb_prop.
  change (job_kvs p (j :: jobs)) with
    ((if str_eqb (fst j) p then snd j else []) ++ job_kvs p jobs).
  rewrite forallb_app, (IH Hjobs), andb_true_r.
  by destruct (str_eqb (fst j) p).
Qed.

Theorem run_jobs_idempotent (jobs : list job) (fs : Files) :
  forallb job_wf jobs = true ->
  run_jobs jobs (run_jobs jobs fs) = run_jobs jobs fs.
Proof.
  intros Hwf. apply map_eq. intros p. rewrite !run_jobs_lookup.
  destruct (touched p jobs); [|done]. cbn [default]. f_equal.
  by apply apply_kvs_idempotent, job_kvs_wf.
Qed.

End Jobs.

(** * Steps 3 to 5 with [env_vars] rules are jobs *)
Section Pipeline.

Variable config : Config.
Variable git : GitManager.
Variable worktreeName worktreeDir : jsstring.
Variable worktreeIndex portOffset : Z.

Hypothesis Hports : ports_wf config = true.

Lemma known_port_identifier v :
  known_port (portMappings config) v = true -> forallb is_ident_char v = true.
Proof.
  unfold known_port. destruct (own_get _ v) as [b|] eqn:E; [|done]. intros _.
  apply own_get_In in E. unfold ports_wf in Hports.
  rewrite forallb_forall in Hports. by apply identifier_chars, (Hports (v, b)).
Qed.

Lemma env_vars_wf_ports varSpec :
  env_vars_wf (portMappings config) varSpec = true.
Proof.
  unfold env_vars_wf. apply forallb_forall. intros v _.
  destruct (known_port (portMappings config) v) eqn:E; [|done].
  by apply known_port_identifier.
Qed.

Lemma env_var_spec_kvs vars : forall c,
  fold_left (env_var_spec (portMappings config) portOffset) vars c
  = apply_kvs (flat_map (var_kvs (portMappings config) portOffset) vars) c.
Proof.
  induction vars as [|v vars IH]; intros c; [done|].
  cbn [fold_left flat_map]. rewrite apply_kvs_app, IH. f_equal.
  unfold env_var_spec, var_kvs. by destruct (env_var_value _ _ v).
Qed.

Lemma rule_step (u : FileUpdate) (fs : Files) :
  updateType u = js "env_vars" ->
  processFileUpdate config git u worktreeName worktreeDir worktreeIndex
    portOffset fs
  = (inr tt, run_job fs (rule_job (portMappings config) worktreeDir portOffset u)).
Proof.
  intros Hu. unfold processFileUpdate. rewrite Hu, str_eqb_refl.
  rewrite (updateEnvVars_spec config _ _ _ _ (env_vars_wf_ports _)).
  unfold run_job, rule_job. cbn [fst snd]. by rewrite env_var_spec_kvs.
Qed.

Lemma rules_run (rules : list FileUpdate) : forall (fs : Files),
  forallb (fun u => str_eqb (updateType u) (js "env_vars")) rules = true ->
  for_each rules
    (fun u => processFileUpdate config git u worktreeName worktreeDir
                worktreeIndex portOffset) fs
  = (inr tt,
     run_jobs (map (rule_job (portMappings config) worktreeDir portOffset) rules)
       fs).
Proof.
  induction rules as [|u rules IH]; intros fs Hr; [done|].
  cbn [forallb] in Hr. apply andb_prop in Hr as [Hu Hr].
  apply str_eqb_eq in Hu. cbn [for_each map run_jobs fold_left].
  unfold bind. rewrite (rule_step u fs Hu). by apply IH.
Qed.

Lemma ports_step (fs : Files) :
  updatePortVariables worktreeDir (portMappings config) portOffset fs
  = (inr tt, run_job fs (ports_job (portMappings config) worktreeDir portOffset)).
Proof.
  rewrite (updatePortVariables_spec _ _ _ _ Hports).
  unfold run_job, ports_job. cbn [fst snd]. do 2 f_equal.
  unfold apply_kvs. generalize (default [] (fs !! path_join worktreeDir (js ".env"))).
  induction (portMappings config) as [|e pm IH]; intros c; [done|].
  cbn [fold_left map]. by rewrite IH.
Qed.

Hypothesis Hcontainers : containers_wf config worktreeName worktreeIndex = true.

Lemma containers_step (fs : Files) :
  updateContainerNames config worktreeDir (containerNames config) worktreeName
    worktreeIndex fs
  = (inr tt,
     run_job fs (containers_job config worktreeName worktreeDir worktreeIndex)).
Proof.
  change (updateContainerNames config worktreeDir (containerNames config)
            worktreeName worktreeIndex) with
    (rewrite_file (path_join worktreeDir (js ".env"))
       (fold_throw (containerNameStep config worktreeName worktreeIndex)
          (entries (containerNames config)))).
  unfold run_job, containers_job. cbn [fst snd].
  apply rewrite_file_ok. unfold containers_wf in Hcontainers.
  rewrite entries_named.
  2:{ apply forallb_forall. intros e He. rewrite forallb_forall in Hcontainers.
      by apply Hcontainers, andb_prop in He as [-> _]. }
  generalize (default [] (fs !! path_join worktreeDir (js ".env"))).
  induction (containerNames config) as [|[k t] cn IH]; intros c; [done|].
  cbn [forallb fst snd] in Hcontainers.
  apply andb_prop in Hcontainers as [Hkt Hcn].
  apply andb_prop in Hkt as [Hk Ht].
  cbn [fold_throw map apply_kvs fold_left]. unfold containerNameStep at 1.
  rewrite (substituteTemplate_render config Hports).
  rewrite upsert_set_variable by (done || by apply identifier_chars).
  by apply IH.
Qed.

Theorem applyUpdates_jobs (fs : Files) :
  rules_env_vars config = true ->
  applyUpdates config git worktreeName worktreeDir worktreeIndex portOffset fs
  = (inr tt,
     run_jobs (all_jobs config worktreeName worktreeDir worktreeIndex portOffset)
       fs).
Proof.
  intros Hrules. unfold applyUpdates, all_jobs, run_jobs.
  rewrite !fold_left_app. unfold bind at 1. unfold bind at 1.
  rewrite (rules_run _ fs Hrules). unfold run_jobs.
  set (fs1 := fold_left run_job _ fs).
  destruct (0 <? length (portMappings config))%nat.
  - rewrite ports_step. cbn [fold_left].
    destruct (0 <? length (containerNames config))%nat; [|done].
    by rewrite containers_step.
  - cbn [fold_left]. unfold ret at 1.
    destruct (0 <? length (containerNames config))%nat; [|done].
    by rewrite containers_step.
Qed.

Lemma all_jobs_wf :
  forallb job_wf
    (all_jobs config worktreeName worktreeDir worktreeIndex portOffset) = true.
Proof.
  unfold all_jobs. rewrite !forallb_app. repeat (apply andb_true_intro; split).
  - apply forallb_forall. intros j (u & <- & _)%in_map_iff.
    unfold job_wf, rule_job. cbn [snd]. apply forallb_forall.
    intros kv (v & _ & Hkv)%in_flat_map. unfold var_kvs, env_var_value in Hkv.
    destruct (own_get _ v) as [b|] eqn:E.
    + destruct (truthy b) eqn:Hb; [|done]. destruct Hkv as [<-|[]].
      unfold kv_wf. cbn [fst snd]. rewrite toString_plain, andb_true_r.
      apply known_port_identifier. unfold known_port. by rewrite E.
    + destruct (prototype_member v) as [i|] eqn:Hi; [|done].
      destruct Hkv as [<-|[]]. unfold kv_wf. cbn [fst snd].
      rewrite (inherited_value_plain v i _ Hi), andb_true_r.
      by apply prototype_member_plain in Hi as [].
  - destruct (0 <? _)%nat; [|done]. cbn [forallb]. rewrite andb_true_r.
    unfold job_wf, ports_job. cbn [snd]. apply forallb_forall.
    intros kv (e & <- & He)%in_map_iff. unfold kv_wf. cbn [fst snd].
    rewrite toString_plain, andb_true_r. unfold ports_wf in Hports.
    rewrite forallb_forall in Hports. by apply identifier_chars, Hports.
  - destruct (0 <? _)%nat; [|done]. cbn [forallb]. rewrite andb_true_r.
    unfold job_wf, containers_job. cbn [snd]. apply forallb_forall.
    intros kv (e & <- & He)%in_map_iff. unfold kv_wf. cbn [fst snd].
    unfold containers_wf in Hcontainers. rewrite forallb_forall in Hcontainers.
    apply Hcontainers, andb_prop in He as [Hk ->].
    by rewrite (identifier_chars _ Hk).
Qed.

End Pipeline.

(** * The index of a worktree *)
Section Rank.

Lemma rank_bounds names n : 1 <= rank names n <= Z.of_nat (length names) + 1.
Proof.
  induction names as [|x names IH]; cbn [rank length]; [lia|].
  destruct (str_eqb x n); lia.
Qed.

Lemma rank_missing names n :
  ~ In n names -> rank names n = Z.of_nat (length names) + 1.
Proof.
  induction names as [|x names IH]; cbn [rank length In]; [done|].
  intros H. rewrite str_eqb_ne by tauto. rewrite IH by tauto. lia.
Qed.

Lemma rank_found names n : forall i : nat,
  names !! i = Some n -> ~ In n (take i names) ->
  rank names n = Z.of_nat i + 1.
Proof.
  induction names as [|x names IH]; intros [|i]; cbn [rank]; try done.
  - intros [= ->] _. by rewrite str_eqb_refl.
  - cbn [lookup list_lookup take In]. intros Hi Hn.
    rewrite str_eqb_ne by tauto. rewrite (IH i) by tauto. lia.
Qed.

Lemma rank_inj names n1 n2 :
  In n1 names -> rank names n1 = rank names n2 -> n1 = n2.
Proof.
  induction names as [|x names IH]; cbn [rank In]; [done|].
  pose proof (rank_bounds names n1). pose proof (rank_bounds names n2).
  destruct (str_eqb x n1) eqn:E1, (str_eqb x n2) eqn:E2; try lia.
  - apply str_eqb_eq in E1, E2. congruence.
  - intros [->|Hin] Hr; [by rewrite str_eqb_refl in E1|].
    apply IH; [done|lia].
Qed.

End Rank.

Section IndexLoop.

Variables P M : jsstring.

Lemma names_acc lines : forall acc,
  fold_left (Git.namesStep P M) lines acc =
  acc ++ fold_left (Git.namesStep P M) lines [].
Proof.
  induction lines as [|line lines IH]; intros acc; cbn [fold_left].
  - by rewrite app_nil_r.
  - rewrite (IH (Git.namesStep P M acc line)),
      (IH (Git.namesStep P M [] line)).
    unfold Git.namesStep. destruct (str_eqb _ M); cbn [app]; [done|].
    by rewrite <-app_assoc.
Qed.

Lemma indexLoop_rank n lines : forall index,
  Git.indexLoop P M n lines index =
  index + rank (fold_left (Git.namesStep P M) lines []) n.
Proof.
  induction lines as [|line lines IH]; intros index;
    cbn [Git.indexLoop fold_left rank]; [done|].
  rewrite names_acc. unfold Git.namesStep at 1.
  destruct (str_eqb _ M); [by rewrite IH|].
  cbn [app rank]. destruct (str_eqb _ n); [done|]. rewrite IH. lia.
Qed.

End IndexLoop.

Lemma getWorktreeIndex_rank (execa : Git.Execa) (names : list jsstring)
    (n : jsstring) :
  Git.getWorktreeNames execa = inr names ->
  Git.getWorktreeIndex execa n = inr (rank names n).
Proof.
  unfold Git.getWorktreeNames, Git.getWorktreeIndex.
  destruct (Git.getProjectName execa) as [e|P]; [done|].
  unfold Git.getMainWorktreeDir.
  destruct (execa (js "git") [js "worktree"; js "list"]) as [e|out]; [done|].
  intros [= <-]. by rewrite indexLoop_rank.
Qed.

(** * Texts without a given character *)
Section Characters.

Lemma no_ws_no_lf s : no_ws s = true -> no_lf s = true.
Proof.
  unfold no_ws, no_lf. rewrite !forallb_forall. intros H c Hc.
  specialize (H c Hc). apply negb_true_iff in H. apply negb_true_iff.
  destruct (Ascii.eqb c LF) eqn:E; [|done].
  apply Ascii.eqb_eq in E. by subst c.
Qed.

Lemma no_lf_app a b : no_lf (a ++ b) = no_lf a && no_lf b.
Proof. apply forallb_app. Qed.

Lemma no_ws_app a b : no_ws (a ++ b) = no_ws a && no_ws b.
Proof. apply forallb_app. Qed.

Lemma no_slash_app a b : no_slash (a ++ b) = no_slash a && no_slash b.
Proof. apply forallb_app. Qed.

Lemma listing_line_no_lf path info :
  no_ws path = true -> no_lf info = true ->
  no_lf (listing_line path info) = true.
Proof.
  intros Hp Hi. unfold listing_line. rewrite !no_lf_app.
  by rewrite (no_ws_no_lf path Hp), Hi.
Qed.

Lemma split_join_lines l ls :
  Forall (fun s => no_lf s = true) (l :: ls) ->
  split LF (join_with LF (l :: ls)) = l :: ls.
Proof.
  revert l. induction ls as [|l2 ls IH]; intros l H.
  - cbn [join_with]. apply split_no_sep. by inversion H.
  - change (join_with LF (l :: l2 :: ls))
      with (l ++ LF :: join_with LF (l2 :: ls)).
    inversion H; subst. rewrite split_first by done. by rewrite IH.
Qed.

Lemma split_ws_first path c rest :
  no_ws path = true -> is_whitespace c = true ->
  split_ws (path ++ c :: rest) = path :: split_ws_from true rest.
Proof.
  unfold split_ws. intros Hp Hc.
  induction path as [|d path IH]; cbn [app split_ws_from].
  - by rewrite Hc.
  - cbn [no_ws forallb] in Hp. apply andb_prop in Hp as [Hd Hp].
    apply negb_true_iff in Hd. rewrite Hd. by rewrite IH.
Qed.

Lemma split_ws_whole path : no_ws path = true -> split_ws path = [path].
Proof.
  unfold split_ws. intros Hp.
  induction path as [|d path IH]; cbn [split_ws_from]; [done|].
  cbn [no_ws forallb] in Hp. apply andb_prop in Hp as [Hd Hp].
  apply negb_true_iff in Hd. rewrite Hd. by rewrite IH.
Qed.

Lemma listing_line_path path info :
  no_ws path = true -> hd [] (split_ws (listing_line path info)) = path.
Proof.
  intros Hp. unfold listing_line.
  change (js "  " ++ info) with (SP :: SP :: info).
  by rewrite split_ws_first.
Qed.

Lemma up_to_slash_app a b :
  no_slash a = true -> up_to_slash (a ++ "/"%char :: b) = a.
Proof.
  induction a as [|c a IH]; cbn [app up_to_slash no_slash forallb].
  - by rewrite Ascii.eqb_refl.
  - intros [Hc Ha]%andb_prop. apply negb_true_iff in Hc.
    rewrite Hc. by rewrite IH.
Qed.

Lemma no_slash_rev a : no_slash a = true -> no_slash (rev a) = true.
Proof.
  unfold no_slash. rewrite !forallb_forall. intros H c Hc.
  apply H. by apply in_rev.
Qed.

Lemma basename_last parent seg :
  seg <> [] -> no_slash seg = true ->
  basename (parent ++ js "/" ++ seg) = seg.
Proof.
  intros Hne Hs. unfold basename.
  change (js "/" ++ seg) with ("/"%char :: seg).
  rewrite rev_app_distr. cbn [rev]. rewrite <-app_assoc. cbn [app].
  assert (skip_slashes (rev seg ++ "/"%char :: rev parent)
          = rev seg ++ "/"%char :: rev parent) as ->.
  { pose proof (no_slash_rev seg Hs) as Hr.
    destruct (rev seg) as [|c r] eqn:E.
    - apply (f_equal (@rev ascii)) in E. rewrite rev_involutive in E.
      by subst seg.
    - cbn [app skip_slashes]. cbn [no_slash forallb] in Hr.
      apply andb_prop in Hr as [Hc _]. apply negb_true_iff in Hc.
      by rewrite Hc. }
  rewrite up_to_slash_app by (by apply no_slash_rev).
  apply rev_involutive.
Qed.

Lemma indexOf_unfold s pat :
  indexOf s pat =
  if startsWith s pat then Some 0%nat
  else match s with
       | _ :: s' => option_map S (indexOf s' pat)
       | [] => None
       end.
Proof. by destruct s. Qed.

Lemma replaceString_prefix pat s : replaceString (pat ++ s) pat [] = s.
Proof.
  unfold replaceString. rewrite indexOf_unfold, startsWith_refl_app.
  cbn [take expand app Nat.add]. by rewrite drop_app_length.
Qed.

Lemma up_to_slash_no_slash r : no_slash (up_to_slash r) = true.
Proof.
  induction r as [|c r IH]; cbn [up_to_slash]; [done|].
  destruct (Ascii.eqb c "/") eqn:E; [done|].
  unfold no_slash in *. cbn [forallb]. by rewrite E, IH.
Qed.

Lemma basename_no_slash p : no_slash (basename p) = true.
Proof. apply no_slash_rev, up_to_slash_no_slash. Qed.

Lemma replaceString_chars s pat c :
  In c (replaceString s pat []) -> In c s.
Proof.
  unfold replaceString. destruct (indexOf s pat) as [i|]; [|done].
  cbn [expand app]. rewrite in_app_iff. intros [H|H].
  - rewrite <-(take_drop i s). apply in_app_iff. by left.
  - rewrite <-(take_drop (i + length pat) s). apply in_app_iff. by right.
Qed.

Lemma replaceString_no_slash s pat :
  no_slash s = true -> no_slash (replaceString s pat []) = true.
Proof.
  unfold no_slash. rewrite !forallb_forall. intros H c Hc.
  by apply H, (replaceString_chars _ pat).
Qed.

End Characters.

(** * The names that git lists *)
Section Names.

Lemma names_no_slash P M lines :
  Forall (fun n => no_slash n = true)
    (fold_left (Git.namesStep P M) lines []).
Proof.
  induction lines as [|line lines IH]; cbn [fold_left]; [constructor|].
  rewrite names_acc. apply Forall_app. split; [|done].
  unfold Git.namesStep at 1. destruct (str_eqb _ M); constructor; [|constructor].
  apply replaceString_no_slash, basename_no_slash.
Qed.

Lemma getWorktreeNames_no_slash (execa : Git.Execa) names :
  Git.getWorktreeNames execa = inr names ->
  Forall (fun n => no_slash n = true) names.
Proof.
  unfold Git.getWorktreeNames.
  destruct (Git.getProjectName execa) as [e|P]; [done|].
  destruct (Git.getMainWorktreeDir execa) as [e|M]; [done|].
  destruct (execa (js "git") [js "worktree"; js "list"]) as [e|out]; [done|].
  intros [= <-]. apply names_no_slash.
Qed.

Lemma sibling_names P M parent (wts : list (jsstring * jsstring)) :
  M = parent ++ js "/" ++ P ->
  Forall (fun w => no_ws (fst w) = true /\ no_slash (fst w) = true) wts ->
  no_ws parent = true -> no_ws P = true -> no_slash P = true ->
  fold_left (Git.namesStep P M)
    (map (fun w => listing_line (sibling parent P (fst w)) (snd w)) wts) []
  = map fst wts.
Proof.
  intros -> Hw Hparent HP HPs.
  induction Hw as [|[name info] wts [Hn Hs] Hw IH]; [done|].
  cbn [map fold_left fst snd] in *. rewrite names_acc, IH.
  assert (no_ws (sibling parent P name) = true) as Hws.
  { unfold sibling, no_ws in *. rewrite !forallb_app.
    by rewrite Hparent, HP, Hn. }
  unfold Git.namesStep at 1. rewrite listing_line_path by done.
  rewrite str_eqb_ne; cycle 1.
  { unfold sibling. intros H%app_inv_head%app_inv_head.
    apply (f_equal (@length ascii)) in H. rewrite !length_app in H.
    cbn [length js list_ascii_of_string] in H. lia. }
  unfold sibling.
  rewrite (basename_last parent (P ++ js "-" ++ name)); cycle 1.
  { by destruct P. }
  { unfold no_slash in *. rewrite !forallb_app. by rewrite HPs, Hs. }
  rewrite (app_assoc P (js "-") name). by rewrite replaceString_prefix.
Qed.

End Names.

(** * What a call may write *)
Section Frame.

Context {A B : Type}.
Implicit Types T : jsstring -> Prop.

Lemma writes_only_ret T (a : A) : writes_only T (ret a).
Proof. by intros fs. Qed.

Lemma writes_only_lift T (r : exn + A) : writes_only T (lift r).
Proof. by intros fs. Qed.

Lemma writes_only_bind T (m : IO A) (k : A -> IO B) :
  writes_only T m -> (forall a, writes_only T (k a)) ->
  writes_only T (bind m k).
Proof.
  intros Hm Hk fs. unfold bind. destruct (Hm fs) as [Hm1 Hm2].
  destruct (m fs) as [[e|a] fs1]; cbn [snd] in *; [done|].
  destruct (Hk a fs1) as [Hk1 Hk2]. split.
  - intros p Hp. by apply Hk1, Hm1.
  - intros p Hp. by rewrite Hk2, Hm2.
Qed.

Lemma writes_only_weaken T (T' : jsstring -> Prop) (m : IO A) :
  (forall p, T p -> T' p) -> writes_only T m -> writes_only T' m.
Proof.
  intros HT Hm fs. destruct (Hm fs) as [H1 H2]. split; [done|].
  intros p Hp. apply H2. intros Hn. by apply Hp, HT.
Qed.

End Frame.

Section FrameCalls.

Context {directories : Directories}.
Implicit Types T : jsstring -> Prop.

Lemma writes_only_pathExists T p : writes_only T (pathExists p).
Proof. by intros fs. Qed.

Lemma writes_only_readFile T p : writes_only T (readFile p).
Proof. intros fs. unfold readFile. by destruct (fs !! p). Qed.

Lemma insert_keeps (fs : Files) (p q c : jsstring) :
  is_Some (fs !! q) -> is_Some (<[p := c]> fs !! q).
Proof.
  intros Hq. destruct (decide (p = q)) as [->|Hne].
  - rewrite lookup_insert_eq. eauto.
  - by rewrite lookup_insert_ne.
Qed.

Lemma writes_only_writeFile T p c : T p -> writes_only T (writeFile p c).
Proof.
  intros Hp fs. unfold writeFile. cbn [snd]. split.
  - intros q. apply insert_keeps.
  - intros q Hq. apply lookup_insert_ne. by intros ->.
Qed.

Lemma writes_only_appendFile T p c : T p -> writes_only T (appendFile p c).
Proof.
  intros Hp fs. unfold appendFile.
  destruct (fs !! p) as [old|]; [|destruct (creatable fs p); [|done]];
    cbn [snd]; (split; [intros q; apply insert_keeps|]);
    intros q Hq; apply lookup_insert_ne; by intros ->.
Qed.

Lemma writes_only_ensureFile T p : T p -> writes_only T (ensureFile p).
Proof.
  intros Hp fs. unfold ensureFile. cbn [snd].
  destruct (fs !! p) eqn:E; [done|]. split.
  - intros q. apply insert_keeps.
  - intros q Hq. apply lookup_insert_ne. by intros ->.
Qed.

Lemma writes_only_for_each {A} T (l : list A) (body : A -> IO unit) :
  (forall x, In x l -> writes_only T (body x)) ->
  writes_only T (for_each l body).
Proof.
  induction l as [|x l IH]; intros H; cbn [for_each].
  - apply writes_only_ret.
  - apply writes_only_bind; [apply H; by left|].
    intros _. apply IH. intros y Hy. apply H. by right.
Qed.

Lemma writes_only_rewrite_file T p (loop : jsstring -> exn + jsstring) :
  T p -> writes_only T (rewrite_file p loop).
Proof.
  intros Hp. unfold rewrite_file.
  apply writes_only_bind; [apply writes_only_pathExists|]. intros existing.
  apply writes_only_bind.
  { destruct existing; [apply writes_only_ret|by apply writes_only_ensureFile]. }
  intros _. apply writes_only_bind; [apply writes_only_readFile|].
  intros content. apply writes_only_bind; [apply writes_only_lift|].
  intros content'. by apply writes_only_writeFile.
Qed.

End FrameCalls.

(** * What the engine may write *)
Section FrameEngine.

Variable config : Config.
Variable git : GitManager.
Context {directories : Directories}.
Implicit Types T : jsstring -> Prop.

Lemma writes_only_updateEnvVars T p varSpec portOffset :
  T p -> writes_only T (updateEnvVars config p varSpec portOffset).
Proof. apply (writes_only_rewrite_file T p). Qed.

Lemma writes_only_updatePortVariables T dir pm portOffset :
  T (path_join dir (js ".env")) ->
  writes_only T (updatePortVariables dir pm portOffset).
Proof. apply (writes_only_rewrite_file T). Qed.

Lemma writes_only_updateContainerNames T dir cn name index :
  T (path_join dir (js ".env")) ->
  writes_only T (updateContainerNames config dir cn name index).
Proof. apply (writes_only_rewrite_file T). Qed.

Lemma writes_only_replaceInFile T p pat repl name index :
  T p -> writes_only T (replaceInFile config git p pat repl name index).
Proof.
  intros Hp. unfold replaceInFile.
  apply writes_only_bind; [apply writes_only_pathExists|].
  intros [|]; [|apply writes_only_ret].
  apply writes_only_bind; [apply writes_only_readFile|]. intros content.
  apply writes_only_bind.
  { unfold calculatePortOffset.
    apply writes_only_bind; [apply writes_only_lift|].
    intros i. apply writes_only_ret. }
  intros portOffset. apply writes_only_bind; [apply writes_only_lift|].
  intros r. apply writes_only_bind; [apply writes_only_lift|].
  intros regex. by apply writes_only_writeFile.
Qed.

Lemma writes_only_processFileUpdate T u name dir index portOffset :
  T (path_join dir (filePath u)) ->
  writes_only T (processFileUpdate config git u name dir index portOffset).
Proof.
  intros Hp. unfold processFileUpdate.
  destruct (str_eqb (updateType u) (js "env_vars"));
    [by apply writes_only_updateEnvVars|].
  destruct (str_eqb (updateType u) (js "replace"));
    [by apply writes_only_replaceInFile|].
  destruct (str_eqb (updateType u) (js "append")); [|apply writes_only_ret].
  apply writes_only_bind; [apply writes_only_lift|].
  intros content. by apply writes_only_appendFile.
Qed.

(** The files that the engine may write in a worktree directory. *)
Lemma writes_only_updateEnvironmentFiles name dir :
  writes_only
    (fun p => p = path_join dir (js ".env") \/
              exists u, In u (fileUpdates config)
                        /\ p = path_join dir (filePath u))
    (updateEnvironmentFiles config git name dir).
Proof.
  unfold updateEnvironmentFiles.
  apply writes_only_bind; [apply writes_only_lift|]. intros index.
  apply writes_only_bind.
  { unfold calculatePortOffset.
    apply writes_only_bind; [apply writes_only_lift|].
    intros i. apply writes_only_ret. }
  intros portOffset. unfold applyUpdates.
  apply writes_only_bind.
  { apply writes_only_for_each. intros u Hu.
    apply writes_only_processFileUpdate. right. eauto. }
  intros _. apply writes_only_bind.
  { destruct (0 <? length (portMappings config))%nat;
      [|apply writes_only_ret].
    apply writes_only_updatePortVariables. by left. }
  intros _.
  destruct (0 <? length (containerNames config))%nat; [|apply writes_only_ret].
  apply writes_only_updateContainerNames. by left.
Qed.

End FrameEngine.

(** * Replacing a placeholder in a template given by its pieces *)
Section Pieces.

Variable K : jsstring.
Variable repl : jsstring.
Hypothesis HK : forallb is_ident_char K = true.
Hypothesis Hrepl : no_dollar repl = true.

Local Abbreviation R := (literal_re (placeholder K)).

Lemma no_open_brace_app a b :
  no_open_brace (a ++ b) = no_open_brace a && no_open_brace b.
Proof. apply forallb_app. Qed.

Lemma replace_loop_other P seen b :
  forallb is_ident_char P = true -> K <> P ->
  replace_loop R repl seen (placeholder P ++ b) 0
  = placeholder P ++ replace_loop R repl (rev (placeholder P) ++ seen) b 0.
Proof.
  intros HP Hne.
  change (placeholder P ++ b) with
    ("{"%char :: "{"%char :: (P ++ js "}}") ++ b).
  cbn [replace_loop]. rewrite literal_match_at.
  rewrite startsWith_placeholder, <-app_assoc.
  assert (startsWith (P ++ js "}}" ++ b) (K ++ js "}}") = false) as ->.
  { destruct (startsWith _ _) eqn:E; [|done].
    destruct Hne. by eapply closed_ident_inj. }
  change (placeholder P) with ("{"%char :: "{"%char :: P ++ js "}}").
  cbn [app]. f_equal. cbn [replace_loop]. rewrite literal_match_at.
  assert (startsWith ("{"%char :: P ++ js "}}" ++ b) (placeholder K) = false)
    as ->.
  { destruct P as [|d p]; [by apply startsWith_placeholder_no|].
    apply startsWith_placeholder_no.
    cbn [forallb] in HP. apply andb_prop in HP as [Hd _].
    by apply ident_char_plain in Hd as (_&_&Hd&_). }
  f_equal. rewrite (app_assoc P).
  rewrite (replace_loop_plain K repl (P ++ js "}}")); cycle 1.
  { rewrite no_open_brace_app. by rewrite (ident_no_open_brace P HP). }
  f_equal. f_equal. cbn [rev]. by rewrite <-!app_assoc.
Qed.

Lemma replace_loop_piece p seen b :
  piece_ok p = true ->
  replace_loop R repl seen (piece_text p ++ b) 0
  = piece_text (fill K repl p)
    ++ replace_loop R repl (rev (piece_text p) ++ seen) b 0.
Proof.
  destruct p as [s|k]; cbn [piece_ok piece_text fill]; intros Hp.
  - by apply replace_loop_plain.
  - destruct (str_eqb k K) eqn:E.
    + apply str_eqb_eq in E. subst k. cbn [piece_text].
      rewrite (literal_replace_at (placeholder K) repl) by done.
      by rewrite (expand_plain repl _ _ _ Hrepl).
    + cbn [piece_text]. apply replace_loop_other; [done|].
      intros ->. by rewrite str_eqb_refl in E.
Qed.

Lemma replace_loop_pieces ps : forall seen b,
  forallb piece_ok ps = true ->
  replace_loop R repl seen (unpieces ps ++ b) 0
  = unpieces (map (fill K repl) ps)
    ++ replace_loop R repl (rev (unpieces ps) ++ seen) b 0.
Proof.
  induction ps as [|p ps IH]; intros seen b Hps; [done|].
  cbn [forallb] in Hps. apply andb_prop in Hps as [Hp Hps].
  unfold unpieces. cbn [flat_map map]. fold (unpieces ps).
  fold (unpieces (map (fill K repl) ps)).
  rewrite <-!app_assoc. rewrite replace_loop_piece by done. f_equal.
  rewrite IH by done. f_equal. f_equal.
  by rewrite rev_app_distr, <-app_assoc.
Qed.

Lemma replace_pieces ps :
  forallb piece_ok ps = true ->
  replace (unpieces ps) R repl = unpieces (map (fill K repl) ps).
Proof.
  intros Hps. unfold replace. change (global R) with true. cbv iota.
  rewrite <-(app_nil_r (unpieces ps)) at 1.
  rewrite replace_loop_pieces by done.
  by rewrite replace_loop_nil, app_nil_r.
Qed.

Lemma fill_ok ps :
  no_open_brace repl = true ->
  forallb piece_ok ps = true -> forallb piece_ok (map (fill K repl) ps) = true.
Proof.
  intros Hb. induction ps as [|p ps IH]; [done|]. cbn [map forallb].
  intros [Hp Hps]%andb_prop. rewrite IH by done. rewrite andb_true_r.
  destruct p as [s|k]; [done|]. cbn [fill]. by destruct (str_eqb k K).
Qed.

End Pieces.

Lemma number_no_dollar n : no_dollar (toString n) = true.
Proof. by apply (toString_no_dollar []). Qed.

Lemma number_no_open_brace n : no_open_brace (toString n) = true.
Proof. by apply (toString_no_open_brace []). Qed.

(** * Rendering a template given by its pieces *)
Section RenderPieces.

Variable worktreeName : jsstring.
Variable worktreeIndex portOffset : Z.

Lemma fill_ports_text (pm : object number) s :
  fill_ports pm portOffset (Text s) = Text s.
Proof. unfold fill_ports. by induction pm as [|e pm IH]. Qed.

Lemma fill_ports_hole (pm : object number) k :
  piece_text (fill_ports pm portOffset (Hole k))
  = match own_get pm k with
    | Some basePort => toString (add basePort (Num portOffset))
    | None => placeholder k
    end.
Proof.
  induction pm as [|[k' b] pm IH]; [done|].
  change (fill_ports ((k', b) :: pm) portOffset (Hole k))
    with (fill_ports pm portOffset
            (fill k' (toString (add b (Num portOffset))) (Hole k))).
  cbn [fill own_get]. destruct (str_eqb k k'); [|done].
  by rewrite fill_ports_text.
Qed.

Lemma port_rounds_pieces (pm : object number) : forall ps,
  forallb (fun e : jsstring * number => is_identifier (fst e)) pm = true ->
  forallb piece_ok ps = true ->
  fold_left (port_round portOffset) pm (unpieces ps)
  = unpieces (map (fill_ports pm portOffset) ps).
Proof.
  induction pm as [|[k b] pm IH]; intros ps Hpm Hps.
  - unfold fill_ports. cbn [fold_left]. by rewrite map_id.
  - cbn [forallb fst] in Hpm. apply andb_prop in Hpm as [Hk Hpm].
    cbn [fold_left]. unfold port_round at 2. cbn [fst snd].
    rewrite replace_pieces;
      [|by apply identifier_chars|apply number_no_dollar|done].
    rewrite IH; [|done|].
    + by rewrite map_map.
    + apply fill_ok; [apply number_no_open_brace|done].
Qed.

Lemma render_pieces (pm : object number) ps :
  forallb (fun e : jsstring * number => is_identifier (fst e)) pm = true ->
  no_dollar worktreeName = true -> no_open_brace worktreeName = true ->
  forallb piece_ok ps = true ->
  render pm worktreeName worktreeIndex portOffset (unpieces ps)
  = flat_map (render_piece pm worktreeName worktreeIndex portOffset) ps.
Proof.
  intros Hpm Hd Hb Hps. unfold render.
  rewrite replace_pieces by done.
  rewrite replace_pieces;
    [|done|apply number_no_dollar|by apply fill_ok].
  fold (port_round portOffset).
  change (fun (result : jsstring) (e : jsstring * number) =>
            replace result (literal_re (placeholder (fst e)))
              (toString (add (snd e) (Num portOffset))))
    with (port_round portOffset).
  rewrite port_rounds_pieces; [|done|].
  2:{ apply fill_ok; [apply number_no_open_brace|by apply fill_ok]. }
  rewrite !map_map. unfold unpieces. clear Hps.
  induction ps as [|p ps IH]; [done|]. cbn [map flat_map]. rewrite IH.
  f_equal. destruct p as [s|k]; cbn [fill render_piece].
  - by rewrite fill_ports_text.
  - destruct (str_eqb k (js "WORKTREE_NAME")); cbn [fill];
      [by rewrite fill_ports_text|].
    destruct (str_eqb k (js "WORKTREE_INDEX")); [by rewrite fill_ports_text|].
    apply fill_ports_hole.
Qed.

End RenderPieces.

(** * Reading back what an upsert wrote *)
Section ReadBack.

Lemma assigned_lines_set_variable c k v l :
  forallb is_ident_char k = true -> is_plain v = true ->
  In l (lines (set_variable c k v)) -> is_assignment k l = true ->
  l = k ++ js "=" ++ v.
Proof.
  intros Hk Hv. rewrite (lines_set_variable c k v Hk Hv).
  destruct (has_key k c) eqn:E.
  - intros (l0 & <- & Hl0)%in_map_iff. unfold assign.
    destruct (is_assignment k l0) eqn:E0; [done|]. by rewrite E0.
  - intros [Hl|[<-|[]]]%in_app_iff; [|done]. intros Hkl.
    unfold has_key in E. assert (existsb (is_assignment k) (lines c) = true).
    { apply existsb_exists. eauto. }
    congruence.
Qed.

Lemma other_lines_set_variable c k v w :
  forallb is_ident_char k = true -> is_plain v = true ->
  forallb is_ident_char w = true -> w <> k ->
  List.filter (is_assignment w) (lines (set_variable c k v))
  = List.filter (is_assignment w) (lines c).
Proof.
  intros Hk Hv Hw Hne. rewrite (lines_set_variable c k v Hk Hv).
  destruct (has_key k c).
  - induction (lines c) as [|l ls IH]; [done|]. cbn [map List.filter].
    rewrite IH. unfold assign.
    destruct (is_assignment k l) eqn:E; [|done].
    rewrite other_assignment by done.
    destruct (is_assignment w l) eqn:E2; [|done].
    destruct Hne. by apply (is_assignment_inj w k l).
  - rewrite List.filter_app. cbn [List.filter].
    rewrite other_assignment by done. by rewrite app_nil_r.
Qed.

End ReadBack.

(** * The port variables after the upsert of all port mappings *)
Section PortTable.

Variable portOffset : Z.

Lemma fold_set_port_other (pm : object number) w : forall content,
  forallb (fun e : jsstring * number => is_identifier (fst e)) pm = true ->
  forallb is_ident_char w = true ->
  ~ In w (map fst pm) ->
  List.filter (is_assignment w)
    (lines (fold_left (set_port portOffset) pm content))
  = List.filter (is_assignment w) (lines content).
Proof.
  induction pm as [|[k b] pm IH]; intros content Hpm Hw Hnot; [done|].
  cbn [forallb fst] in Hpm. apply andb_prop in Hpm as [Hk Hpm].
  cbn [map fst In] in Hnot. cbn [fold_left]. rewrite IH by tauto.
  unfold set_port. cbn [fst snd].
  apply other_lines_set_variable;
    [by apply identifier_chars|apply toString_plain|done|].
  intros ->. tauto.
Qed.

Lemma fold_set_port_exact (pm : object number) : forall content e l,
  forallb (fun e : jsstring * number => is_identifier (fst e)) pm = true ->
  NoDup (map fst pm) -> In e pm ->
  In l (lines (fold_left (set_port portOffset) pm content)) ->
  is_assignment (fst e) l = true ->
  l = port_line portOffset e.
Proof.
  induction pm as [|[k b] pm IH]; intros content e l Hpm Hnd Hin Hl Hkl;
    [done|].
  cbn [forallb fst] in Hpm. apply andb_prop in Hpm as [Hk Hpm].
  cbn [map fst] in Hnd. apply NoDup_cons in Hnd as [Hfresh Hnd].
  cbn [fold_left] in Hl. destruct Hin as [<-|Hin]; [|by eapply IH].
  cbn [fst] in Hkl.
  assert (In l (List.filter (is_assignment k)
                  (lines (fold_left (set_port portOffset) pm
                            (set_port portOffset content (k, b)))))) as Hf.
  { apply filter_In. by split. }
  rewrite fold_set_port_other in Hf; [|done|by apply identifier_chars|].
  2:{ intros H. apply Hfresh. by apply list_elem_of_In. }
  apply filter_In in Hf as [Hf _]. unfold set_port in Hf. cbn [fst snd] in Hf.
  apply (assigned_lines_set_variable content k _ l);
    [by apply identifier_chars|apply toString_plain|done|done].
Qed.

End PortTable.

(** * Reading a printed number back *)
Section ReadNumber.

Local Abbreviation step := (fun (acc : Z) (c : ascii) => 10 * acc + digit_value c).
Local Abbreviation chars := (fun u => js (NilEmpty.string_of_uint u)).

Lemma digits_acc u : forall acc : positive,
  fold_left step (chars u) (Z.pos acc) = Z.pos (Pos.of_uint_acc u acc).
Proof.
  induction u; intros acc; cbn [NilEmpty.string_of_uint js
    list_ascii_of_string fold_left Pos.of_uint_acc]; [done|..];
    (etransitivity; [|apply IHu]); f_equal; vm_compute digit_value; lia.
Qed.

Lemma digits_of_uint u :
  fold_left step (chars u) 0 = Z.of_N (Pos.of_uint u).
Proof.
  induction u; cbn [NilEmpty.string_of_uint js list_ascii_of_string
    fold_left Pos.of_uint]; [done|exact IHu|..];
    (etransitivity; [|apply digits_acc]); f_equal.
Qed.

Lemma uint_digits u : forallb is_digit (chars u) = true.
Proof. induction u; simpl; try done. Qed.

Lemma digits_prefix_all s : forallb is_digit s = true -> digits_prefix s = s.
Proof.
  induction s as [|c s IH]; [done|]. cbn [forallb digits_prefix].
  intros [Hc Hs]%andb_prop. by rewrite Hc, IH.
Qed.

Lemma parseInt_digits c s :
  forallb is_digit (c :: s) = true ->
  parseInt (c :: s) = Num (digits_value (c :: s)) /\
  parseInt ("-"%char :: c :: s) = Num (- digits_value (c :: s)).
Proof.
  intros Hd. pose proof (digits_prefix_all _ Hd) as Hp.
  cbn [forallb] in Hd. apply andb_prop in Hd as [Hc _].
  assert (is_whitespace c = false /\ Ascii.eqb c "-" = false
          /\ Ascii.eqb c "+" = false) as (Hw & Hm & Hplus).
  { clear -Hc. destruct c as [[] [] [] [] [] [] [] []]; try discriminate;
      by vm_compute. }
  split.
  - unfold parseInt. cbn [trimStart]. rewrite Hw, Hm, Hplus, Hp. done.
  - unfold parseInt. cbn [trimStart].
    change (is_whitespace "-") with false. cbv iota.
    change (Ascii.eqb "-" "-") with true. cbv iota. by rewrite Hp.
Qed.

Lemma chars_nonempty p : chars (Pos.to_uint p) <> [].
Proof.
  pose proof (Unsigned.to_uint_nonnil p) as H.
  by destruct (Pos.to_uint p).
Qed.

Lemma nilzero_chars p :
  js (NilZero.string_of_uint (Pos.to_uint p)) = chars (Pos.to_uint p).
Proof.
  pose proof (Unsigned.to_uint_nonnil p) as H.
  by destruct (Pos.to_uint p).
Qed.

Theorem parseInt_toString z : parseInt (toString (Num z)) = Num z.
Proof.
  unfold toString, Z_toString. destruct z as [|p|p]; [done|..];
    cbn [Z.to_int NilZero.string_of_int].
  - rewrite nilzero_chars.
    destruct (chars (Pos.to_uint p)) as [|c s] eqn:E;
      [by apply chars_nonempty in E|].
    destruct (parseInt_digits c s) as [-> _].
    { rewrite <-E. apply uint_digits. }
    rewrite <-E. unfold digits_value. rewrite digits_of_uint.
    by rewrite DecimalPos.Unsigned.of_to.
  - change (js (String "-" ?s)) with ("-"%char :: js s).
    rewrite nilzero_chars.
    destruct (chars (Pos.to_uint p)) as [|c s] eqn:E;
      [by apply chars_nonempty in E|].
    destruct (parseInt_digits c s) as [_ ->].
    { rewrite <-E. apply uint_digits. }
    rewrite <-E. unfold digits_value. rewrite digits_of_uint.
    by rewrite DecimalPos.Unsigned.of_to.
Qed.

Lemma toString_no_colon n : no_colon (toString n) = true.
Proof.
  pose proof (toString_chars n) as H. unfold no_colon.
  rewrite forallb_forall in *. intros c Hc. apply H in Hc.
  clear -Hc. destruct c as [[] [] [] [] [] [] [] []]; try discriminate;
    by vm_compute.
Qed.

End ReadNumber.

(** * Finding the block of an array *)
Section FindBlock.

Lemma find_block_unfold varName s :
  find_block varName s =
  match block_at varName s with
  | Some body => Some body
  | None =>
      match s with
      | _ :: s' => find_block varName s'
      | [] => None
      end
  end.
Proof. by destruct s. Qed.

Lemma run_to_paren_app body rest :
  no_close_paren body = true ->
  run_to_paren (body ++ ")"%char :: rest) = Some body.
Proof.
  induction body as [|c body IH]; cbn [app run_to_paren no_close_paren forallb].
  - by rewrite Ascii.eqb_refl.
  - intros [Hc Hb]%andb_prop. apply negb_true_iff in Hc.
    rewrite Hc. unfold no_close_paren in IH. by rewrite IH.
Qed.

Lemma block_at_here name body rest :
  body <> [] -> no_close_paren body = true ->
  block_at name (name ++ js "=(" ++ body ++ ")"%char :: rest) = Some body.
Proof.
  intros Hne Hb. unfold block_at.
  rewrite (app_assoc name (js "=(")), startsWith_refl_app.
  replace (length name + 2)%nat with (length (name ++ js "=("))
    by (rewrite length_app; done).
  rewrite drop_app_length, run_to_paren_app by done.
  by destruct body.
Qed.

Lemma startsWith_length s p : startsWith s p = true -> (length p <= length s)%nat.
Proof.
  revert s. induction p as [|c p IH]; intros [|d s]; cbn [startsWith length];
    try done; try lia.
  intros [_ H]%andb_prop. apply IH in H. lia.
Qed.

Lemma startsWith_app_l s t p :
  (length p <= length s)%nat -> startsWith (s ++ t) p = startsWith s p.
Proof.
  revert s. induction p as [|c p IH]; intros [|d s]; cbn [startsWith length app];
    try done; try lia.
  intros H. rewrite IH by lia. done.
Qed.

Lemma indexOf_none_before pat : forall s n,
  indexOf s pat = Some n ->
  forall i, (i < n)%nat -> startsWith (drop i s) pat = false.
Proof.
  induction s as [|c s IH]; intros n; rewrite indexOf_unfold.
  - destruct (startsWith [] pat); [|done]. intros [= <-]. lia.
  - destruct (startsWith (c :: s) pat) eqn:E; [intros [= <-]; lia|].
    destruct (indexOf s pat) as [m|] eqn:Em; [|done].
    cbn [option_map]. intros [= <-] [|i] Hi; [done|].
    change (drop (S i) (c :: s)) with (drop i s). apply (IH m); [done|lia].
Qed.

Lemma find_block_skip name pre rest :
  (forall i, (i < length pre)%nat ->
             startsWith (drop i (pre ++ rest)) (name ++ js "=(") = false) ->
  find_block name (pre ++ rest) = find_block name rest.
Proof.
  induction pre as [|c pre IH]; intros H; [done|].
  rewrite find_block_unfold. unfold block_at.
  pose proof (H 0%nat ltac:(cbn [length]; lia)) as H0.
  change (startsWith ((c :: pre) ++ rest) (name ++ js "=(") = false) in H0.
  rewrite H0. cbn [app].
  apply IH. intros i Hi. apply (H (S i)). cbn [length]. lia.
Qed.

(** The block of an array is the text between the first [NAME=(] and the
    closing parenthesis that follows. *)
Lemma find_block_first name pre body rest :
  indexOf (pre ++ name ++ js "=(") (name ++ js "=(") = Some (length pre) ->
  body <> [] -> no_close_paren body = true ->
  find_block name (pre ++ name ++ js "=(" ++ body ++ ")"%char :: rest)
  = Some body.
Proof.
  intros Hfirst Hne Hb. rewrite find_block_skip.
  - rewrite find_block_unfold. by rewrite block_at_here.
  - intros i Hi.
    pose proof (indexOf_none_before _ _ _ Hfirst i Hi) as H.
    rewrite drop_app_le in H |- * by lia.
    etransitivity; [|exact H].
    replace (drop i pre ++ name ++ js "=(" ++ body ++ ")"%char :: rest)
      with ((drop i pre ++ name ++ js "=(") ++ body ++ ")"%char :: rest)
      by (by rewrite <-!app_assoc).
    apply startsWith_app_l. rewrite !length_app. lia.
Qed.

End FindBlock.

(** * The items of a block *)
Section Items.

Lemma parseArray_block content name body :
  find_block name content = Some body ->
  parseArray content name = fold_left keep_item (split LF body) [].
Proof. intros H. unfold parseArray. by rewrite H. Qed.

Lemma trimStart_indent indent c s :
  is_indent indent = true -> is_whitespace c = false ->
  trimStart (indent ++ c :: s) = c :: s.
Proof.
  intros Hi Hc. induction indent as [|d indent IH]; cbn [app trimStart].
  - by rewrite Hc.
  - cbn [is_indent forallb] in Hi. apply andb_prop in Hi as [Hd Hi].
    apply andb_prop in Hd as [Hd _]. rewrite Hd. by apply IH.
Qed.

Lemma trimEnd_last s c : is_whitespace c = false -> trimEnd (s ++ [c]) = s ++ [c].
Proof.
  intros Hc. unfold trimEnd. rewrite rev_app_distr. cbn [rev app trimStart].
  rewrite Hc. cbn [rev]. by rewrite rev_involutive.
Qed.

Lemma trim_item_line indent item :
  is_indent indent = true ->
  trim (item_line indent item) = DQUOTE :: item ++ [DQUOTE].
Proof.
  intros Hi. unfold trim, item_line. rewrite trimStart_indent by done.
  by rewrite (app_comm_cons item [DQUOTE] DQUOTE), trimEnd_last.
Qed.

Lemma strip_quotes_quoted item : strip_quotes (DQUOTE :: item ++ [DQUOTE]) = item.
Proof.
  unfold strip_quotes. change (is_quote DQUOTE) with true. cbv iota.
  rewrite rev_app_distr. cbn [rev app]. change (is_quote DQUOTE) with true.
  cbv iota. apply rev_involutive.
Qed.

Lemma keep_item_line items indent item :
  is_indent indent = true ->
  keep_item items (item_line indent item) = items ++ [item].
Proof.
  intros Hi. unfold keep_item. cbv zeta. rewrite trim_item_line by done.
  rewrite str_eqb_ne by done. unfold is_comment. cbn [startsWith js
    list_ascii_of_string negb andb].
  change (Ascii.eqb "#" DQUOTE) with false. cbn [andb negb].
  by rewrite strip_quotes_quoted.
Qed.

Lemma fold_keep_acc lines : forall acc,
  fold_left keep_item lines acc = acc ++ fold_left keep_item lines [].
Proof.
  induction lines as [|l lines IH]; intros acc; cbn [fold_left].
  - by rewrite app_nil_r.
  - rewrite (IH (keep_item acc l)), (IH (keep_item [] l)).
    unfold keep_item. cbv zeta.
    destruct (_ && _); cbn [app]; [by rewrite <-app_assoc|done].
Qed.

Lemma no_lf_indent indent : is_indent indent = true -> no_lf indent = true.
Proof.
  unfold is_indent, no_lf. rewrite !forallb_forall. intros H c Hc.
  by apply H, andb_prop in Hc as [_ Hc].
Qed.

Lemma item_line_no_lf indent item :
  is_indent indent = true -> no_lf item = true ->
  no_lf (item_line indent item) = true.
Proof.
  intros Hi Hit. unfold item_line.
  change (DQUOTE :: item ++ [DQUOTE]) with ([DQUOTE] ++ item ++ [DQUOTE]).
  rewrite !no_lf_app. by rewrite (no_lf_indent indent Hi), Hit.
Qed.

Lemma fold_keep_item_lines indent items :
  is_indent indent = true ->
  Forall (fun item => no_lf item = true) items ->
  fold_left keep_item
    (split LF (flat_map (fun item => item_line indent item ++ [LF]) items)) []
  = items.
Proof.
  intros Hi Hall. induction Hall as [|item items Hit Hall IH]; [done|].
  cbn [flat_map]. rewrite <-app_assoc. cbn [app].
  rewrite split_first by (by apply item_line_no_lf).
  cbn [fold_left]. rewrite fold_keep_acc, IH.
  by rewrite keep_item_line.
Qed.

Lemma no_close_paren_app a b :
  no_close_paren (a ++ b) = no_close_paren a && no_close_paren b.
Proof. apply forallb_app. Qed.

Lemma indent_no_close_paren indent :
  is_indent indent = true -> no_close_paren indent = true.
Proof.
  unfold is_indent, no_close_paren. rewrite !forallb_forall. intros H c Hc.
  apply H, andb_prop in Hc as [Hc _]. clear -Hc.
  destruct c as [[] [] [] [] [] [] [] []]; try discriminate; by vm_compute.
Qed.

Lemma item_lines_no_close_paren indent items :
  is_indent indent = true ->
  Forall (fun item => no_close_paren item = true) items ->
  no_close_paren (flat_map (fun item => item_line indent item ++ [LF]) items)
  = true.
Proof.
  intros Hi Hall. induction Hall as [|item items Hit Hall IH]; [done|].
  cbn [flat_map]. rewrite !no_close_paren_app, IH. unfold item_line.
  change (DQUOTE :: item ++ [DQUOTE]) with ([DQUOTE] ++ item ++ [DQUOTE]).
  rewrite !no_close_paren_app.
  by rewrite (indent_no_close_paren indent Hi), Hit.
Qed.

End Items.

(** * What [parseConfig] keeps true *)
Section Invariant.

Variable I : Config -> Prop.

Hypothesis I_startContainers : forall c b, I c -> I (set_startContainers b c).
Hypothesis I_portOffsetIncrement :
  forall c z, I c -> I (set_portOffsetIncrement z c).
Hypothesis I_envFiles : forall c l, I c -> I (set_envFiles l c).
Hypothesis I_portMapping : forall c item,
  I c -> I (set_portMappings (addPortMapping (portMappings c) item) c).
Hypothesis I_containerName : forall c item,
  I c -> I (set_containerNames (addContainerName (containerNames c) item) c).
Hypothesis I_fileUpdate : forall c item,
  I c -> I (set_fileUpdates (addFileUpdate (fileUpdates c) item) c).

Lemma I_portMappings items : forall c,
  I c -> I (set_portMappings (fold_left addPortMapping items (portMappings c)) c).
Proof.
  induction items as [|item items IH]; intros c Hc; cbn [fold_left].
  - by destruct c.
  - apply (IH _ (I_portMapping c item Hc)).
Qed.

Lemma I_containerNames items : forall c,
  I c ->
  I (set_containerNames
       (fold_left addContainerName items (containerNames c)) c).
Proof.
  induction items as [|item items IH]; intros c Hc; cbn [fold_left].
  - by destruct c.
  - apply (IH _ (I_containerName c item Hc)).
Qed.

Lemma I_fileUpdates items : forall c,
  I c -> I (set_fileUpdates (fold_left addFileUpdate items (fileUpdates c)) c).
Proof.
  induction items as [|item items IH]; intros c Hc; cbn [fold_left].
  - by destruct c.
  - apply (IH _ (I_fileUpdate c item Hc)).
Qed.

Lemma I_parseArrays content trimmed c : I c -> I (parseArrays content trimmed c).
Proof.
  intros Hc. unfold parseArrays.
  repeat match goal with
         | |- context [if startsWith trimmed ?k then _ else _] =>
             destruct (startsWith trimmed k)
         end;
    repeat first [apply I_fileUpdates | apply I_envFiles
                 | apply I_containerNames | apply I_portMappings]; exact Hc.
Qed.

Lemma I_parseLine content c line c' :
  I c -> parseLine content c line = inr c' -> I c'.
Proof.
  intros Hc. unfold parseLine. destruct (_ || _); [by intros [= <-]|].
  destruct (parseStartContainers (trim line) c) as [e|c1] eqn:E; [done|].
  intros [= <-]. apply I_parseArrays.
  unfold parsePortOffsetIncrement.
  assert (I c1) as Hc1.
  { unfold parseStartContainers in E.
    destruct (startsWith _ _); [|by injection E as <-].
    destruct (split "=" (trim line) !! 1%nat); [|done].
    destruct (includes _ _); [injection E as <-; by apply I_startContainers|].
    destruct (includes _ _); injection E as <-;
      [by apply I_startContainers|done]. }
  destruct (startsWith _ _); [|done].
  destruct (from_option _ _ _); [by apply I_portOffsetIncrement|done].
Qed.

Lemma parseConfig_invariant content cfg :
  I loadDefaultConfig -> parseConfig content = inr cfg -> I cfg.
Proof.
  unfold parseConfig. generalize loadDefaultConfig.
  induction (split LF content) as [|line ls IH]; intros c Hc; cbn [fold_throw].
  - by intros [= <-].
  - destruct (parseLine content c line) as [e|c'] eqn:E; [done|].
    apply IH. by apply (I_parseLine content c line).
Qed.

End Invariant.

(** * Tables as maps *)
Section Tables.

Context {V : Type}.

Lemma obj_set_keys (o : object V) k v x :
  In x (map fst (obj_set o k v)) -> x = k \/ In x (map fst o).
Proof.
  induction o as [|[k' v'] o IH]; cbn [obj_set map fst In].
  - destruct (str_eqb k (js "__proto__")); cbn [map fst In];
      intuition congruence.
  - destruct (str_eqb k k') eqn:E; cbn [map fst In]; [intuition congruence|].
    intros [?|?]; [tauto|]. destruct IH; tauto.
Qed.

Lemma obj_set_NoDup (o : object V) k v :
  NoDup (map fst o) -> NoDup (map fst (obj_set o k v)).
Proof.
  induction o as [|[k' v'] o IH]; cbn [obj_set map fst].
  - intros _. destruct (str_eqb k (js "__proto__")); [apply NoDup_nil_2|].
    apply NoDup_singleton.
  - intros [Hfresh Hnd]%NoDup_cons. destruct (str_eqb k k') eqn:E.
    + apply str_eqb_eq in E. subst k'. cbn [map fst]. by apply NoDup_cons.
    + cbn [map fst]. apply NoDup_cons. split; [|by apply IH].
      rewrite list_elem_of_In. intros [->|Hin]%obj_set_keys.
      * by rewrite str_eqb_refl in E.
      * apply Hfresh. by apply list_elem_of_In.
Qed.

Lemma obj_set_Forall (P : jsstring * V -> Prop) (o : object V) k v :
  P (k, v) -> Forall P o -> Forall P (obj_set o k v).
Proof.
  intros Hkv. induction 1 as [|[k' v'] o Hk' Ho IH]; cbn [obj_set].
  - destruct (str_eqb k (js "__proto__")); by repeat constructor.
  - destruct (str_eqb k k'); by constructor.
Qed.

End Tables.

Section Parts.

Lemma split_parts sep s :
  Forall (fun p => forallb (fun c => negb (Ascii.eqb c sep)) p = true)
    (split sep s).
Proof.
  induction s as [|c s IH]; cbn [split]; [by repeat constructor|].
  destruct (Ascii.eqb c sep) eqn:E; [by constructor|].
  destruct (split sep s) as [|w ws]; [by repeat constructor; cbn; rewrite E|].
  inversion IH; subst. constructor; [|done]. cbn [forallb]. by rewrite E.
Qed.

Lemma addPortMapping_keeps (P : jsstring * number -> Prop) pm item :
  (forall k v, key_ok k -> P (k, v)) ->
  NoDup (map fst pm) /\ Forall P pm ->
  NoDup (map fst (addPortMapping pm item)) /\ Forall P (addPortMapping pm item).
Proof.
  intros HP [Hnd Hall]. unfold addPortMapping.
  destruct (split ":" item !! 1%nat) as [basePort|]; [|done].
  destruct (str_eqb (hd [] (split ":" item)) []) eqn:E; [done|]. cbn [negb].
  split; [by apply obj_set_NoDup|]. apply obj_set_Forall; [|done].
  apply HP. split.
  - intros H. rewrite H in E. by rewrite str_eqb_refl in E.
  - pose proof (split_parts ":" item) as Hparts.
    destruct (split ":" item) as [|p ps]; [done|]. by inversion Hparts.
Qed.

Lemma addContainerName_keeps cn item :
  NoDup (map fst cn) /\ Forall container_ok cn ->
  NoDup (map fst (addContainerName cn item))
  /\ Forall container_ok (addContainerName cn item).
Proof.
  intros [Hnd Hall]. unfold addContainerName.
  destruct (split ":" item !! 1%nat) as [template|] eqn:Et; [|done].
  destruct (str_eqb (hd [] (split ":" item)) []) eqn:E; [done|].
  destruct (str_eqb template []) eqn:E2; [done|]. cbn [negb andb].
  split; [by apply obj_set_NoDup|]. apply obj_set_Forall; [|done].
  pose proof (split_parts ":" item) as Hparts.
  repeat split; cbn [fst snd].
  - intros H. rewrite H in E. by rewrite str_eqb_refl in E.
  - destruct (split ":" item) as [|p ps]; [done|]. by inversion Hparts.
  - intros ->. by rewrite str_eqb_refl in E2.
  - rewrite Forall_forall in Hparts. apply Hparts.
    by apply list_elem_of_lookup_2 in Et.
Qed.

Lemma addFileUpdate_keeps fu item :
  Forall rule_ok fu -> Forall rule_ok (addFileUpdate fu item).
Proof.
  intros Hall. unfold addFileUpdate.
  destruct (3 <=? length (split "|" item))%nat; [|done].
  destruct (str_eqb _ (js "replace")) eqn:E; cbn [andb].
  - destruct (4 <=? length (split "|" item))%nat;
      apply Forall_app; (split; [done|]); repeat constructor.
    + unfold rule_ok. cbn. by apply str_eqb_eq in E.
  - apply Forall_app. split; [done|]. by repeat constructor.
Qed.

End Parts.

(** * Lines that set nothing *)
Section Nothing.

Lemma parseLine_nothing content c line :
  sets_nothing line = true -> parseLine content c line = inr c.
Proof.
  unfold sets_nothing, config_keys. cbn [existsb]. rewrite !negb_orb.
  intros H. repeat (apply andb_prop in H as [?%negb_true_iff H]).
  unfold parseLine. destruct (_ || _); [done|].
  unfold parseStartContainers, parsePortOffsetIncrement, parseArrays.
  by repeat match goal with
            | Hk : startsWith _ _ = false |- _ => rewrite Hk; clear Hk
            end.
Qed.

End Nothing.

(** * Reading a block and a number back *)
Section ReadBackConfig.

Lemma parseArray_array_block
    (pre post name indent : jsstring) (items : list jsstring) :
  indexOf (pre ++ name ++ js "=(") (name ++ js "=(") = Some (length pre) ->
  is_indent indent = true ->
  Forall (fun item => no_lf item = true /\ no_close_paren item = true) items ->
  parseArray (pre ++ array_block name indent items ++ post) name = items.
Proof.
  intros Hfirst Hi Hitems. unfold array_block.
  set (F := flat_map (fun item => item_line indent item ++ [LF]) items).
  replace (pre ++ (name ++ js "=(" ++ LF :: F ++ js ")") ++ post)
    with (pre ++ name ++ js "=(" ++ (LF :: F) ++ ")"%char :: post)
    by (by rewrite <-!app_assoc; cbn [app]; rewrite <-!app_assoc).
  rewrite (parseArray_block _ name (LF :: F)).
  - cbn [split]. rewrite Ascii.eqb_refl. cbn [fold_left].
    change (keep_item [] []) with (@nil jsstring).
    apply fold_keep_item_lines; [done|].
    eapply Forall_impl; [exact Hitems|]. by intros item [? _].
  - apply find_block_first; [done|done|].
    unfold no_close_paren. cbn [forallb].
    change (Ascii.eqb LF ")") with false. cbn [negb andb].
    apply item_lines_no_close_paren; [done|].
    eapply Forall_impl; [exact Hitems|]. by intros item [_ ?].
Qed.

Lemma addPortMapping_decimal (pm : object number) (k : jsstring) (z : Z) :
  k <> [] -> no_colon k = true ->
  addPortMapping pm (k ++ js ":" ++ toString (Num z)) = obj_set pm k (Num z).
Proof.
  intros Hk Hc.
  rewrite addPortMapping_item, port_item_invalid;
    [|done|done|apply toString_no_colon].
  by rewrite parseInt_toString.
Qed.

Lemma toString_no_equals n :
  forallb (fun c => negb (Ascii.eqb c "=")) (toString n) = true.
Proof.
  pose proof (toString_chars n) as H.
  rewrite forallb_forall in *. intros d Hd. apply H in Hd.
  clear -Hd. destruct d as [[] [] [] [] [] [] [] []]; try discriminate;
    by vm_compute.
Qed.

Lemma parsePortOffsetIncrement_decimal (c : Config) (z : Z) :
  parsePortOffsetIncrement (js "PORT_OFFSET_INCREMENT=" ++ toString (Num z)) c
  = set_portOffsetIncrement z c.
Proof.
  unfold parsePortOffsetIncrement. rewrite startsWith_refl_app.
  change (js "PORT_OFFSET_INCREMENT=" ++ toString (Num z))
    with (js "PORT_OFFSET_INCREMENT" ++ "="%char :: toString (Num z)).
  rewrite split_first by done. rewrite split_no_sep by apply toString_no_equals.
  cbn [lookup list_lookup from_option]. by rewrite parseInt_toString.
Qed.

End ReadBackConfig.

(** * Indices are places *)
Section Places.

Lemma rank_app_l names more n :
  In n names -> rank (names ++ more) n = rank names n.
Proof.
  induction names as [|x names IH]; cbn [In app rank]; [done|].
  destruct (str_eqb x n) eqn:E; [done|].
  intros [->|Hin]; [by rewrite str_eqb_refl in E|]. by rewrite IH.
Qed.

Lemma rank_last names n :
  ~ In n names -> rank (names ++ [n]) n = Z.of_nat (length names) + 1.
Proof.
  intros Hn. rewrite (rank_found (names ++ [n]) n (length names)).
  - done.
  - by rewrite lookup_app_r, Nat.sub_diag.
  - by rewrite take_app_length.
Qed.

End Places.

(** * The pieces between white space *)
Section WhiteSpace.

Lemma split_ws_no_ws in_run s :
  Forall (fun piece => no_ws piece = true) (split_ws_from in_run s).
Proof.
  revert in_run. induction s as [|c s IH]; intros in_run;
    cbn [split_ws_from]; [by repeat constructor|].
  destruct (is_whitespace c) eqn:E.
  - destruct in_run; [apply IH|]. constructor; [done|apply IH].
  - specialize (IH false). destruct (split_ws_from false s) as [|w ws].
    + repeat constructor. unfold no_ws. cbn [forallb]. by rewrite E.
    + inversion IH; subst. constructor; [|done].
      unfold no_ws in *. cbn [forallb]. by rewrite E.
Qed.

End WhiteSpace.

(** * Joining paths *)
Section Join.

Lemma split_app sep a b :
  split sep (a ++ sep :: b) = split sep a ++ split sep b.
Proof.
  induction a as [|c a IH]; cbn [app split].
  - by rewrite Ascii.eqb_refl.
  - destruct (Ascii.eqb c sep); [by rewrite IH|]. rewrite IH.
    pose proof (split_nonempty sep a) as Hne.
    by destruct (split sep a).
Qed.

Lemma join_with_app sep l1 l2 :
  l1 <> [] -> l2 <> [] ->
  join_with sep (l1 ++ l2) = join_with sep l1 ++ sep :: join_with sep l2.
Proof.
  intros H1 H2. induction l1 as [|x l1 IH]; [done|].
  destruct l1 as [|y l1].
  - destruct l2 as [|z l2]; [done|]. done.
  - change (join_with sep ((x :: y :: l1) ++ l2))
      with (x ++ sep :: join_with sep ((y :: l1) ++ l2)).
    rewrite IH by done.
    change (join_with sep (x :: y :: l1))
      with (x ++ sep :: join_with sep (y :: l1)).
    by rewrite <-app_assoc.
Qed.

Lemma push_kept allow acc seg :
  kept_segment seg = true -> str_eqb seg (js "..") = false ->
  push_segment allow acc seg = seg :: acc.
Proof.
  unfold kept_segment, push_segment. intros H%negb_true_iff ->.
  by rewrite H.
Qed.

Lemma push_dropped allow acc seg :
  kept_segment seg = false -> push_segment allow acc seg = acc.
Proof.
  unfold kept_segment, push_segment. intros H%negb_false_iff. by rewrite H.
Qed.

(** Without [..], the segments are pushed in order. *)
Lemma fold_push_no_dotdot allow segs : forall acc,
  existsb (str_eqb (js "..")) segs = false ->
  fold_left (push_segment allow) segs acc
  = rev (List.filter kept_segment segs) ++ acc.
Proof.
  induction segs as [|seg segs IH]; intros acc; cbn [existsb fold_left
    List.filter]; [done|].
  intros [Hseg Hsegs]%orb_false_elim. rewrite IH by done.
  destruct (kept_segment seg) eqn:E.
  - rewrite push_kept; [|done|].
    + cbn [rev]. by rewrite <-app_assoc.
    + unfold str_eqb in *. rewrite bool_decide_eq_false in *. congruence.
  - by rewrite push_dropped.
Qed.

(** The segments on the stack are never empty. *)
Lemma fold_push_nonempty allow segs : forall acc,
  Forall (fun s => s <> []) acc ->
  Forall (fun s => s <> []) (fold_left (push_segment allow) segs acc).
Proof.
  induction segs as [|seg segs IH]; intros acc Hacc; [done|].
  cbn [fold_left]. apply IH. unfold push_segment.
  destruct (str_eqb seg []) eqn:E1; cbn [orb]; [done|].
  assert (seg <> []) as Hseg.
  { intros ->. by rewrite str_eqb_refl in E1. }
  destruct (str_eqb seg (js ".")); [done|].
  destruct (str_eqb seg (js "..")).
  - destruct acc as [|last acc]; [by destruct allow; repeat constructor|].
    inversion Hacc; subst. destruct (str_eqb last (js "..")); [|done].
    by repeat constructor.
  - by constructor.
Qed.

Lemma join_with_nonempty sep l :
  l <> [] -> Forall (fun s => s <> []) l -> join_with sep l <> [].
Proof.
  intros Hl Hall. destruct l as [|x l]; [done|]. inversion Hall; subst.
  destruct l; cbn [join_with]; [done|]. by destruct x.
Qed.

Lemma filter_split_nonempty sep (b : jsstring) :
  Forall (fun s : jsstring => s <> []) (List.filter kept_segment (split sep b)).
Proof.
  apply List.Forall_forall. intros s [_ Hs]%filter_In.
  unfold kept_segment in Hs. apply negb_true_iff, orb_false_elim in Hs as [Hs _].
  intros ->. by rewrite str_eqb_refl in Hs.
Qed.

Lemma rev_last_char (p : jsstring) c :
  match rev (p ++ [c]) with d :: _ => Ascii.eqb d "/" | [] => false end
  = Ascii.eqb c "/".
Proof. by rewrite rev_app_distr. Qed.

Lemma startsWith_mid (pre x y z : jsstring) :
  startsWith (pre ++ (x ++ y) ++ z) (pre ++ x) = true.
Proof. rewrite <-app_assoc, app_assoc. apply startsWith_refl_app. Qed.

(** [path.join(a, b)] for a path [b] without [..] starts with
    [path.join(a, ".")], the directory [a] in normal form. *)
Lemma path_join_inside a b :
  has_dotdot b = false ->
  path_join a (js ".") <> js "." ->
  startsWith (path_join a b) (path_join a (js ".")) = true.
Proof.
  intros Hb Ha.
  destruct a as [|c a].
  { exfalso. apply Ha. reflexivity. }
  assert (forall b' : jsstring, b' <> [] ->
    path_join (c :: a) b' = normalize ((c :: a) ++ "/"%char :: b')) as Hjoin.
  { intros b' Hb'. unfold path_join.
    rewrite filter_cons_True by done. rewrite filter_cons_True by done.
    by rewrite filter_nil. }
  assert (forall b' : jsstring, has_dotdot b' = false ->
    normalize ((c :: a) ++ "/"%char :: b') =
    let isAbsolute := Ascii.eqb c "/" in
    let trailing :=
      match rev ((c :: a) ++ "/"%char :: b') with
      | d :: _ => Ascii.eqb d "/" | [] => false end in
    let segs :=
      rev (fold_left (push_segment (negb isAbsolute)) (split "/" (c :: a)) [])
      ++ List.filter kept_segment (split "/" b') in
    match join_with "/" segs with
    | [] => if isAbsolute then js "/" else if trailing then js "./" else js "."
    | body => (if isAbsolute then js "/" else []) ++ body
              ++ (if trailing then js "/" else [])
    end) as Hnorm.
  { intros b' Hb'. unfold normalize. cbn [app].
    change (c :: a ++ "/"%char :: b') with ((c :: a) ++ "/"%char :: b').
    rewrite split_app, fold_left_app.
    rewrite (fold_push_no_dotdot _ (split "/" b')) by done.
    rewrite rev_app_distr, rev_involutive.
    by destruct (join_with _ _). }
  set (st := rev (fold_left (push_segment (negb (Ascii.eqb c "/")))
                    (split "/" (c :: a)) [])) in *.
  assert (Forall (fun s => s <> []) st) as Hst.
  { apply Forall_rev, fold_push_nonempty. constructor. }
  assert (path_join (c :: a) (js ".") =
          match join_with "/" st with
          | [] => if Ascii.eqb c "/" then js "/" else js "."
          | body => (if Ascii.eqb c "/" then js "/" else []) ++ body
          end) as Hdot.
  { rewrite Hjoin by done. rewrite (Hnorm (js ".")) by done. cbv zeta.
    assert (List.filter kept_segment (split "/" (js ".")) = []) as ->
      by (by vm_compute).
    rewrite app_nil_r.
    replace ((c :: a) ++ "/"%char :: js ".")
      with (((c :: a) ++ js "/") ++ ["."%char]) by (by rewrite <-app_assoc).
    rewrite rev_last_char. change (Ascii.eqb "." "/") with false.
    fold st. destruct (join_with "/" st); [done|]. by rewrite app_nil_r. }
  rewrite Hdot in Ha |- *.
  destruct b as [|d b].
  { (* [path.join(a, "")] is [path.normalize(a)] *)
    unfold path_join.
    rewrite filter_cons_True by done. rewrite filter_cons_False by (by intros ?).
    rewrite filter_nil. cbn [join_with]. unfold normalize. fold st.
    destruct (join_with "/" st) as [|e body] eqn:Eb.
    - destruct (Ascii.eqb c "/"); [done|]. by destruct Ha.
    - rewrite app_assoc. apply startsWith_refl_app. }
  rewrite Hjoin by done. rewrite (Hnorm (d :: b) Hb). cbv zeta. fold st.
  set (bs := List.filter kept_segment (split "/" (d :: b))).
  assert (Forall (fun s => s <> []) bs) as Hbs by apply filter_split_nonempty.
  destruct st as [|s0 st'].
  - (* the directory is the root *)
    cbn [join_with app] in *.
    destruct (Ascii.eqb c "/"); [|by destruct Ha].
    destruct (join_with "/" bs); [done|]. cbn [app js list_ascii_of_string
      startsWith]. by rewrite Ascii.eqb_refl.
  - assert (join_with "/" (s0 :: st') <> []) as Hbody
      by (by apply join_with_nonempty).
    destruct bs as [|b0 bs'].
    + rewrite app_nil_r.
      destruct (join_with "/" (s0 :: st')) as [|e body] eqn:Eb; [done|].
      rewrite <-(app_nil_r (e :: body)) at 1. apply startsWith_mid.
    + rewrite join_with_app by done.
      destruct (join_with "/" (s0 :: st')) as [|e body] eqn:Eb; [done|].
      cbn [app]. apply (startsWith_mid _ (e :: body)).
Qed.

End Join.

(** * Patterns without syntax characters *)
Section LiteralPattern.

Lemma literal_char_token c :
  is_literal_char c = true ->
  token_of_char c = KChar c /\ Ascii.eqb c "\" = false.
Proof.
  destruct c as [[] [] [] [] [] [] [] []]; try discriminate; by vm_compute.
Qed.

Lemma tokenize_literal p :
  forallb is_literal_char p = true -> tokenize p = map KChar p.
Proof.
  induction p as [|c p IH]; [done|]. cbn [forallb tokenize map].
  intros [Hc Hp]%andb_prop. destruct (literal_char_token c Hc) as [-> ->].
  by rewrite IH.
Qed.

Lemma literal_regex p g m :
  forallb is_literal_char p = true ->
  RegExp_new (Some p) g m = inr (mkRegExp (lits p) g m).
Proof.
  intros Hp. unfold RegExp_new. change (default [] (Some p)) with p.
  rewrite (tokenize_literal p Hp), <-(app_nil_r (map KChar p)).
  by rewrite (parse_lits p [] []), app_nil_r.
Qed.

End LiteralPattern.

(** * Replacing every occurrence of a text *)
Section ReplaceAll.

Variable p r : jsstring.
Hypothesis Hp : p <> [].
Hypothesis Hr : no_dollar r = true.

Local Abbreviation R := (literal_re p).

Lemma startsWith_nil_pattern : startsWith [] p = false.
Proof. by destruct p. Qed.

Lemma replace_loop_any_seen s : forall k seen seen',
  replace_loop R r seen s k = replace_loop R r seen' s k.
Proof.
  induction s as [|c s IH]; intros k seen seen'.
  - destruct k; cbn [replace_loop]; [|done].
    by rewrite !literal_match_at, startsWith_nil_pattern.
  - destruct k as [|k]; cbn [replace_loop]; [|apply IH].
    rewrite !literal_match_at. destruct (startsWith (c :: s) p).
    + rewrite !(expand_plain r) by done. f_equal.
      destruct (length p); [f_equal|]; apply IH.
    + f_equal. apply IH.
Qed.

Lemma replace_literal s : replace s R r = replace_loop R r [] s 0.
Proof. done. Qed.

Lemma replace_absent s : indexOf s p = None -> replace s R r = s.
Proof.
  rewrite replace_literal. generalize (@nil ascii).
  induction s as [|c s IH]; intros seen; rewrite indexOf_unfold.
  - intros _. cbn [replace_loop].
    by rewrite literal_match_at, startsWith_nil_pattern.
  - destruct (startsWith (c :: s) p) eqn:E; [done|].
    destruct (indexOf s p) eqn:Ei; [done|]. intros _.
    cbn [replace_loop]. rewrite literal_match_at, E. f_equal. by apply IH.
Qed.

Lemma replace_first s : forall n,
  indexOf s p = Some n ->
  replace s R r = take n s ++ r ++ replace (drop (n + length p) s) R r.
Proof.
  rewrite !replace_literal.
  assert (forall seen n, indexOf s p = Some n ->
    replace_loop R r seen s 0
    = take n s ++ r ++ replace_loop R r [] (drop (n + length p) s) 0) as H;
    [|by apply H].
  induction s as [|c s IH]; intros seen n; rewrite indexOf_unfold.
  - by rewrite startsWith_nil_pattern.
  - destruct (startsWith (c :: s) p) eqn:E.
    + intros [= <-]. apply startsWith_app in E. rewrite E at 1.
      rewrite literal_replace_at by done.
      rewrite (expand_plain r) by done. cbn [take app Nat.add]. f_equal.
      apply replace_loop_any_seen.
    + destruct (indexOf s p) as [m|] eqn:Ei; [|done].
      cbn [option_map]. intros [= <-]. cbn [replace_loop].
      rewrite literal_match_at, E. cbn [take app]. f_equal.
      by rewrite (IH _ m).
Qed.

End ReplaceAll.

(** * From the configuration file to the environment file *)
Section EndToEnd.

Lemma trim_no_ws s : no_ws s = true -> trim s = s.
Proof.
  assert (forall t, no_ws t = true -> trimStart t = t) as Hstart.
  { intros [|c t]; [done|]. unfold no_ws. cbn [forallb trimStart].
    by intros [->%negb_true_iff _]%andb_prop. }
  intros Hs. unfold trim, trimEnd. rewrite (Hstart s Hs).
  rewrite Hstart, rev_involutive; [done|].
  unfold no_ws in *. rewrite forallb_forall in *. intros c Hc.
  by apply Hs, in_rev.
Qed.

Lemma toString_no_ws n : no_ws (toString n) = true.
Proof.
  pose proof (toString_chars n) as H. unfold no_ws.
  rewrite forallb_forall in *. intros d Hd. apply H in Hd.
  clear -Hd. destruct d as [[] [] [] [] [] [] [] []]; try discriminate;
    by vm_compute.
Qed.

Lemma toString_no_lf n : no_lf (toString n) = true.
Proof. apply no_ws_no_lf, toString_no_ws. Qed.

Lemma toString_no_close_paren n : no_close_paren (toString n) = true.
Proof.
  pose proof (toString_chars n) as H. unfold no_close_paren.
  rewrite forallb_forall in *. intros d Hd. apply H in Hd.
  clear -Hd. destruct d as [[] [] [] [] [] [] [] []]; try discriminate;
    by vm_compute.
Qed.

Lemma ident_char_facts c :
  is_ident_char c = true ->
  is_whitespace c = false /\ Ascii.eqb c ")" = false /\ Ascii.eqb c ":" = false
  /\ Ascii.eqb c LF = false.
Proof.
  destruct c as [[] [] [] [] [] [] [] []]; try discriminate; by vm_compute.
Qed.

Lemma ident_no (f : ascii -> bool) k :
  (forall c, is_ident_char c = true -> f c = true) ->
  forallb is_ident_char k = true -> forallb f k = true.
Proof.
  intros Hf. rewrite !forallb_forall. intros H c Hc. by apply Hf, H.
Qed.

Lemma ident_no_lf k : forallb is_ident_char k = true -> no_lf k = true.
Proof.
  apply ident_no. intros c (_ & _ & _ & ->)%ident_char_facts. done.
Qed.

Lemma ident_no_close_paren k :
  forallb is_ident_char k = true -> no_close_paren k = true.
Proof.
  apply ident_no. intros c (_ & -> & _)%ident_char_facts. done.
Qed.

Lemma ident_no_colon k : forallb is_ident_char k = true -> no_colon k = true.
Proof.
  apply ident_no. intros c (_ & _ & -> & _)%ident_char_facts. done.
Qed.

Lemma obj_set_fresh {V} (o : object V) k v :
  k <> js "__proto__" ->
  ~ In k (map fst o) -> obj_set o k v = o ++ [(k, v)].
Proof.
  intros Hk.
  induction o as [|[k' v'] o IH]; cbn [obj_set map fst In app].
  - by rewrite str_eqb_ne.
  - intros H. rewrite str_eqb_ne by (intros ->; tauto). rewrite IH by tauto.
    done.
Qed.

Lemma fold_port_items table : forall pm,
  Forall (fun e => is_identifier (fst e) = true) table ->
  Forall (fun e => fst e <> js "__proto__") table ->
  NoDup (map fst pm ++ map fst table) ->
  fold_left addPortMapping (port_items table) pm = pm ++ port_table table.
Proof.
  induction table as [|[k z] table IH]; intros pm Hall Hproto Hnd.
  - by rewrite app_nil_r.
  - inversion Hall as [|? ? Hk Hall']; subst. cbn [fst] in Hk.
    inversion Hproto as [|? ? Hp Hproto']; subst. cbn [fst] in Hp.
    cbn [port_items port_table map fold_left fst snd].
    assert (forallb is_ident_char k = true) as Hki
      by (by apply identifier_chars).
    rewrite addPortMapping_decimal;
      [|by destruct k|by apply ident_no_colon].
    cbn [map fst] in Hnd. apply NoDup_app in Hnd as (Hpm & Hdisj & Hnd).
    apply NoDup_cons in Hnd as [Hfresh Hnd].
    rewrite obj_set_fresh; [|done|]; cycle 1.
    { intros Hin. apply (Hdisj k); [by apply list_elem_of_In|]. by left. }
    fold (port_items table) (port_table table). rewrite IH; [|done|done|].
    + by rewrite <-app_assoc.
    + rewrite map_app. cbn [map fst]. rewrite <-app_assoc. cbn [app].
      apply NoDup_app. split; [done|]. split.
      * intros x Hx [->|Hin]%elem_of_cons.
        -- by apply (Hdisj k); [|left].
        -- apply (Hdisj x); [done|by right].
      * by apply NoDup_cons.
Qed.

Lemma port_items_ok table :
  Forall (fun e => is_identifier (fst e) = true) table ->
  Forall (fun item => no_lf item = true /\ no_close_paren item = true)
    (port_items table).
Proof.
  intros Hall. apply Forall_map. eapply Forall_impl; [exact Hall|].
  intros [k z] Hk%identifier_chars. cbn [fst snd] in *.
  rewrite !no_lf_app, !no_close_paren_app.
  rewrite (ident_no_lf k Hk), (ident_no_close_paren k Hk).
  by rewrite toString_no_lf, toString_no_close_paren.
Qed.

Lemma sets_nothing_item_line indent item :
  is_indent indent = true -> sets_nothing (item_line indent item) = true.
Proof.
  intros Hi. unfold sets_nothing. rewrite trim_item_line by done.
  unfold config_keys. cbn [existsb startsWith js list_ascii_of_string].
  by vm_compute.
Qed.

Lemma fold_nothing content lines : forall c rest,
  Forall (fun line => sets_nothing line = true) lines ->
  fold_throw (parseLine content) (lines ++ rest) c
  = fold_throw (parseLine content) rest c.
Proof.
  induction lines as [|l lines IH]; intros c rest Hall; [done|].
  inversion Hall; subst. cbn [app fold_throw].
  rewrite parseLine_nothing by done. by apply IH.
Qed.

Lemma parseLine_opens_ports content c :
  parseLine content c (js "PORT_MAPPINGS=(")
  = inr (set_portMappings
           (fold_left addPortMapping (parseArray content (js "PORT_MAPPINGS"))
              (portMappings c)) c).
Proof. by destruct c. Qed.

Lemma parseLine_increment content c z :
  parseLine content c (js "PORT_OFFSET_INCREMENT=" ++ toString (Num z))
  = inr (set_portOffsetIncrement z c).
Proof.
  unfold parseLine. rewrite trim_no_ws; cycle 1.
  { rewrite no_ws_app. by rewrite toString_no_ws. }
  assert (forall k, existsb (str_eqb k)
            [js "START_CONTAINERS="; js "PORT_MAPPINGS=(";
             js "CONTAINER_NAMES=("; js "ENV_FILES=("; js "FILE_UPDATES=(";
             js "#"] = true ->
          startsWith (js "PORT_OFFSET_INCREMENT=" ++ toString (Num z)) k
          = false) as Hk.
  { intros k Hk. cbn [existsb] in Hk.
    repeat (apply orb_prop in Hk as [->%str_eqb_eq|Hk]; [by vm_compute|]).
    done. }
  unfold is_comment. rewrite (Hk (js "#")) by (by vm_compute).
  rewrite str_eqb_ne by done. cbn [orb].
  unfold parseStartContainers. rewrite Hk by (by vm_compute).
  rewrite parsePortOffsetIncrement_decimal.
  unfold parseArrays. by rewrite !Hk by (by vm_compute).
Qed.

Lemma split_config_text indent table z :
  is_indent indent = true ->
  Forall (fun e => is_identifier (fst e) = true) table ->
  split LF (config_text indent table z)
  = js "PORT_MAPPINGS=("
    :: map (item_line indent) (port_items table)
    ++ [js ")"; js "PORT_OFFSET_INCREMENT=" ++ toString (Num z)].
Proof.
  intros Hi Hall. unfold config_text, array_block.
  set (inc := js "PORT_OFFSET_INCREMENT=" ++ toString (Num z)).
  assert (no_lf inc = true) as Hinc.
  { unfold inc. rewrite no_lf_app. by rewrite toString_no_lf. }
  pose proof (port_items_ok table Hall) as Hitems.
  generalize dependent (port_items table). intros items Hitems.
  set (F := flat_map (fun item => item_line indent item ++ [LF]) items).
  assert ((js "PORT_MAPPINGS" ++ js "=(" ++ LF :: F ++ js ")") ++ LF :: inc
          = js "PORT_MAPPINGS=(" ++ LF :: F ++ js ")" ++ LF :: inc) as ->.
  { rewrite <-app_assoc. cbn [app js list_ascii_of_string].
    by rewrite <-app_assoc. }
  rewrite split_first by done. f_equal. unfold F. clear F.
  induction Hitems as [|item items [Hlf _] Hitems IH].
  - cbn [flat_map map app]. change (js ")" ++ ?x) with (")"%char :: x).
    change (")"%char :: LF :: inc) with (js ")" ++ LF :: inc).
    rewrite (split_first LF (js ")")) by done.
    by rewrite split_no_sep.
  - cbn [flat_map map]. rewrite <-!app_assoc. cbn [app].
    rewrite split_first by (by apply item_line_no_lf). f_equal.
    by rewrite <-IH.
Qed.

Lemma parseConfig_config_text indent table z :
  is_indent indent = true ->
  Forall (fun e => is_identifier (fst e) = true) table ->
  Forall (fun e => fst e <> js "__proto__") table ->
  NoDup (map fst table) ->
  parseConfig (config_text indent table z)
  = inr (set_portOffsetIncrement z
           (set_portMappings (port_table table) loadDefaultConfig)).
Proof.
  intros Hi Hall Hproto Hnd. unfold parseConfig.
  rewrite split_config_text by done. cbn [fold_throw].
  rewrite parseLine_opens_ports.
  assert (parseArray (config_text indent table z) (js "PORT_MAPPINGS")
          = port_items table) as ->.
  { apply (parseArray_array_block [] _ (js "PORT_MAPPINGS") indent);
      [done|done|by apply port_items_ok]. }
  cbn [portMappings loadDefaultConfig]. rewrite fold_port_items by done.
  cbn [app]. rewrite fold_nothing; cycle 1.
  { apply Forall_map, Forall_forall. intros item _.
    by apply sets_nothing_item_line. }
  cbn [fold_throw]. rewrite parseLine_nothing by (by vm_compute).
  by rewrite parseLine_increment.
Qed.

End EndToEnd.

(** * The variables after a sequence of upserts *)
Section Upserts.

Lemma apply_kvs_other kvs w : forall c,
  forallb kv_wf kvs = true -> forallb is_ident_char w = true ->
  ~ In w (map fst kvs) ->
  List.filter (is_assignment w) (lines (apply_kvs kvs c))
  = List.filter (is_assignment w) (lines c).
Proof.
  induction kvs as [|[k v] kvs IH]; intros c Hwf Hw Hnot; [done|].
  cbn [forallb] in Hwf. apply andb_prop in Hwf as [Hkv Hwf].
  apply kv_wf_parts in Hkv as [Hk Hv]. cbn [fst snd] in *.
  cbn [map fst In] in Hnot. cbn [apply_kvs fold_left].
  fold (apply_kvs kvs (set_kv c (k, v))). rewrite IH by tauto.
  unfold set_kv. cbn [fst snd].
  apply other_lines_set_variable; [done|done|done|]. intros ->. tauto.
Qed.

Lemma apply_kvs_keeps kvs : forall c l,
  forallb kv_wf kvs = true -> In l (lines c) ->
  (forall kv, In kv kvs -> is_assignment (fst kv) l = false) ->
  In l (lines (apply_kvs kvs c)).
Proof.
  induction kvs as [|[k v] kvs IH]; intros c l Hwf Hl Hno; [done|].
  cbn [forallb] in Hwf. apply andb_prop in Hwf as [Hkv Hwf].
  apply kv_wf_parts in Hkv as [Hk Hv]. cbn [fst snd] in *.
  cbn [apply_kvs fold_left]. fold (apply_kvs kvs (set_kv c (k, v))).
  apply IH; [done| |by intros; apply Hno; right].
  unfold set_kv. cbn [fst snd].
  apply line_preserved; [done|done|done|]. by apply (Hno (k, v)); left.
Qed.

Lemma apply_kvs_writes kvs : forall c kv,
  forallb kv_wf kvs = true -> NoDup (map fst kvs) -> In kv kvs ->
  In (kv_line kv) (lines (apply_kvs kvs c)).
Proof.
  induction kvs as [|[k v] kvs IH]; intros c kv Hwf Hnd Hin; [done|].
  pose proof Hwf as Hall. cbn [forallb] in Hwf.
  apply andb_prop in Hwf as [Hkv Hwf].
  apply kv_wf_parts in Hkv as [Hk Hv]. cbn [fst snd] in *.
  cbn [map fst] in Hnd. apply NoDup_cons in Hnd as [Hfresh Hnd].
  cbn [apply_kvs fold_left]. fold (apply_kvs kvs (set_kv c (k, v))).
  destruct Hin as [<-|Hin]; [|by apply IH].
  apply apply_kvs_keeps; [done| |].
  - unfold set_kv, kv_line. cbn [fst snd]. by apply line_created.
  - intros [k2 v2] Hin2. unfold kv_line. cbn [fst snd].
    rewrite forallb_forall in Hwf.
    apply other_assignment; [|done|].
    + by apply (Hwf (k2, v2)), kv_wf_parts in Hin2 as [].
    + intros ->. apply Hfresh. apply list_elem_of_In.
      by apply (in_map fst _ (k, v2)).
Qed.

Lemma apply_kvs_exact kvs : forall c kv l,
  forallb kv_wf kvs = true -> NoDup (map fst kvs) -> In kv kvs ->
  In l (lines (apply_kvs kvs c)) -> is_assignment (fst kv) l = true ->
  l = kv_line kv.
Proof.
  induction kvs as [|[k v] kvs IH]; intros c kv l Hwf Hnd Hin Hl Hkl; [done|].
  cbn [forallb] in Hwf. apply andb_prop in Hwf as [Hkv Hwf].
  apply kv_wf_parts in Hkv as [Hk Hv]. cbn [fst snd] in *.
  cbn [map fst] in Hnd. apply NoDup_cons in Hnd as [Hfresh Hnd].
  cbn [apply_kvs fold_left] in Hl. fold (apply_kvs kvs (set_kv c (k, v))) in Hl.
  destruct Hin as [<-|Hin]; [|by eapply IH].
  cbn [fst] in Hkl.
  assert (In l (List.filter (is_assignment k)
                  (lines (apply_kvs kvs (set_kv c (k, v)))))) as Hf.
  { apply filter_In. by split. }
  rewrite apply_kvs_other in Hf; [|done|done|].
  2:{ intros H. apply Hfresh. by apply list_elem_of_In. }
  apply filter_In in Hf as [Hf _]. unfold set_kv in Hf. cbn [fst snd] in Hf.
  by apply (assigned_lines_set_variable c k v l).
Qed.

End Upserts.

(** * The index of a worktree is positive *)
Section Index.

Lemma indexLoop_lower P M n lines : forall index,
  index + 1 <= Git.indexLoop P M n lines index.
Proof.
  induction lines as [|line lines IH]; intros index; cbn [Git.indexLoop];
    [lia|].
  destruct (str_eqb _ M); [apply IH|].
  destruct (str_eqb _ n); [lia|]. specialize (IH (index + 1)). lia.
Qed.

Lemma getWorktreeIndex_positive (execa : Git.Execa) n index :
  Git.getWorktreeIndex execa n = inr index -> 1 <= index.
Proof.
  unfold Git.getWorktreeIndex.
  destruct (Git.getProjectName execa) as [e|P]; [done|].
  destruct (execa (js "git") [js "worktree"; js "list"]) as [e|out]; [done|].
  destruct (Git.getMainWorktreeDir execa) as [e|M]; [done|].
  intros [= <-]. apply (indexLoop_lower P M n (split LF out) 0).
Qed.

End Index.

(** * The upsert of the container names *)
Section ContainerNames.

Variable config : Config.
Variable worktreeName : jsstring.
Variable worktreeIndex : Z.
Variable rendered : jsstring -> jsstring.

Lemma containerNames_run (cn : object jsstring) : forall content,
  forallb (fun e : jsstring * jsstring => is_identifier (fst e)) cn = true ->
  (forall e, In e cn ->
     substituteTemplate config (Some (snd e)) worktreeName worktreeIndex 0
     = inr (rendered (snd e))
     /\ is_plain (rendered (snd e)) = true) ->
  fold_throw (containerNameStep config worktreeName worktreeIndex) cn content
  = inr (apply_kvs (map (fun e : jsstring * jsstring =>
                           (fst e, rendered (snd e))) cn) content).
Proof.
  induction cn as [|[k t] cn IH]; intros content Hk Hr; [done|].
  cbn [forallb fst] in Hk. apply andb_prop in Hk as [Hkt Hk].
  destruct (Hr (k, t) (or_introl eq_refl)) as [Ht Hp]. cbn [snd] in *.
  cbn [fold_throw map apply_kvs fold_left fst snd].
  unfold containerNameStep at 1. rewrite Ht.
  rewrite upsert_set_variable by (done || by apply identifier_chars).
  apply IH; [done|]. intros e He. apply Hr. by right.
Qed.

Lemma containerNames_kvs_wf (cn : object jsstring) :
  forallb (fun e : jsstring * jsstring => is_identifier (fst e)) cn = true ->
  (forall e, In e cn -> is_plain (rendered (snd e)) = true) ->
  forallb kv_wf (map (fun e : jsstring * jsstring =>
                        (fst e, rendered (snd e))) cn) = true.
Proof.
  intros Hk Hp. apply forallb_forall. intros kv (e & <- & He)%in_map_iff.
  unfold kv_wf. cbn [fst snd]. rewrite (Hp e He), andb_true_r.
  rewrite forallb_forall in Hk. by apply identifier_chars, Hk.
Qed.

End ContainerNames.


(** ** The claims *)







(** C3 as stated fails: the computation runs git, and throws when git
    fails. *)
Lemma C3_counterexample :
  calculatePortOffset (config_of 10 [] [] []) (GitManager_new C3_execa_fails)
    (js "feature2") ∅
  = (inl GitError, ∅).
Proof. reflexivity. Qed.

(** C3, as the code has it: the offset is computed from the answer of
    git.  When git fails the computation throws; when git answers, the
    index is at least 1, the offset is the index times the increment (for
    an increment and a product that the code's numbers hold exactly), no
    file changes, and the offset is 0 only for the increment 0. *)
Theorem C3_offset_is_index_times_increment
    (config : Config) (execa : Git.Execa) (worktreeName : jsstring)
    (fs : Files) :
  let git := GitManager_new execa in
  let increment := portOffsetIncrement config in
  (forall e,
     Git.getWorktreeIndex execa worktreeName = inl e ->
     calculatePortOffset config git worktreeName fs = (inl e, fs)) /\
  (forall index,
     Git.getWorktreeIndex execa worktreeName = inr index ->
     safe_integer increment = true ->
     safe_integer (index * increment) = true ->
     1 <= index /\
     calculatePortOffset config git worktreeName fs
       = (inr (index * increment), fs) /\
     (index * increment = 0 <-> increment = 0)).
Proof.
  intros git increment.
  unfold calculatePortOffset, git, GitManager_new, bind, lift, ret.
  cbn [getWorktreeIndex]. split.
  - by intros e ->.
  - intros index Hi _ _. pose proof (getWorktreeIndex_positive _ _ _ Hi).
    rewrite Hi. split; [done|]. split; [done|]. nia.
Qed.

(** Index 2 with increment 10, and a git that fails. *)
Lemma C3_witness :
  (1 <= 2 /\
   calculatePortOffset C1_config (GitManager_new X1_execa) (js "feature2") ∅
     = (inr (2 * 10), ∅) /\
   (2 * 10 = 0 <-> 10 = 0)) /\
  calculatePortOffset C1_config (GitManager_new C3_execa_fails)
    (js "feature2") ∅ = (inl GitError, ∅).
Proof.
  split.
  - exact (proj2 (C3_offset_is_index_times_increment C1_config X1_execa
                    (js "feature2") ∅) 2 eq_refl eq_refl eq_refl).
  - exact (proj1 (C3_offset_is_index_times_increment C1_config C3_execa_fails
                    (js "feature2") ∅) GitError eq_refl).
Defined.

(** C4: the code at a worktree name that holds [$&], and at a port
    variable whose name is not a valid expression. *)
Theorem C4_substituteTemplate_expands_dollar_patterns :
  substituteTemplate C4_config (Some (js "srv-{{WORKTREE_NAME}}:{{API_PORT}}"))
    (js "fix$&") 2 20
  = inr (js "srv-fix{{WORKTREE_NAME}}:3020") /\
  js "srv-fix{{WORKTREE_NAME}}:3020" <> js "srv-fix$&:3020" /\
  (exists cfg,
     parseConfig (nl ["PORT_MAPPINGS=("; "**:3000"; ")"]%string) = inr cfg /\
     portMappings cfg = portMappings C4_config_bad_port) /\
  substituteTemplate C4_config_bad_port (Some (js "plain text")) (js "f1") 2 20
  = inl SyntaxError.
Proof.
  split; [by vm_compute|]. split; [by vm_compute|]. split; [|by vm_compute].
  eexists. split; [vm_compute; reflexivity|by vm_compute].
Qed.

(** C5 as stated fails for [append] rules: the payload is rendered first,
    and when rendering throws the file is not created; and
    [fs.appendFile] does not make the directory of the file, so that in
    a missing directory the rule throws, where an [env_vars] rule creates
    the file. *)
Lemma C5_counterexample :
  processFileUpdate C5_config_bad_port (git_at 1)
    (mkFileUpdate (js "c.txt") (js "append") (js "text") None None)
    (js "f1") (js "/w") 1 10 ∅
  = (inl SyntaxError, ∅) /\
  @processFileUpdate C5_config (git_at 1) C5_directories
    (mkFileUpdate (js "config/c.txt") (js "append") (js "text") None None)
    (js "f1") (js "/w") 1 10 ∅
  = (inl ENOENT, ∅) /\
  @processFileUpdate C5_config (git_at 1) C5_directories
    (mkFileUpdate (js "config/b.env") (js "env_vars") (js "API_PORT") None None)
    (js "f1") (js "/w") 1 10 ∅
  = (inr tt, {[ js "/w/config/b.env" := LF :: js "API_PORT=3010" ]}).
Proof. split; [|split]; reflexivity. Qed.

(** C5, as the code has it: on a missing target (a path that is free
    for a file) a [replace] rule returns and leaves the files as they
    are; an [env_vars] rule creates the file, whether it then returns or
    throws, and touches no other file;
    an [append] rule renders its payload and then calls [fs.appendFile]:
    it throws what the rendering throws and creates nothing, or creates
    the file with a line terminator and the payload when the directory
    of the file exists, or throws ENOENT and creates nothing.  (Nothing
    is stated where the model does not decide whether the rendering
    throws: a port variable outside the fragment of the expressions.) *)
Theorem C5_missing_file_asymmetry
    (directories : Directories) (config : Config) (git : GitManager)
    (update : FileUpdate) (worktreeName worktreeDir : jsstring)
    (worktreeIndex portOffset : Z) (fs : Files) :
  let fullPath := path_join worktreeDir (filePath update) in
  let run :=
    processFileUpdate config git update worktreeName worktreeDir worktreeIndex
      portOffset fs in
  fs !! fullPath = None -> free_path fs fullPath = true ->
  (updateType update = js "replace" -> run = (inr tt, fs)) /\
  (updateType update = js "env_vars" ->
   is_Some (snd run !! fullPath) /\
   forall p : jsstring, p <> fullPath -> snd run !! p = fs !! p) /\
  (updateType update = js "append" ->
   (forall e,
      substituteTemplate config (Some (spec update)) worktreeName
        worktreeIndex portOffset = inl e ->
      e <> Unsupported -> run = (inl e, fs)) /\
   (forall payload,
      substituteTemplate config (Some (spec update)) worktreeName
        worktreeIndex portOffset = inr payload ->
      run = if creatable fs fullPath
            then (inr tt, <[fullPath := LF :: payload]> fs)
            else (inl ENOENT, fs))).
Proof.
  intros fullPath run Hmiss _. subst run. unfold processFileUpdate.
  fold fullPath. repeat split.
  - intros ->. rewrite (str_eqb_ne (js "replace") (js "env_vars")) by done.
    rewrite str_eqb_refl.
    unfold replaceInFile, bind, pathExists. rewrite Hmiss.
    by rewrite bool_decide_eq_false_2 by (by intros [? ?]).
  - rewrite H, str_eqb_refl.
    change (updateEnvVars config fullPath (spec update) portOffset) with
      (rewrite_file fullPath
         (fold_throw (envVarStep config portOffset)
            (map trim (split "," (spec update))))).
    destruct (fold_throw (envVarStep config portOffset)
                (map trim (split "," (spec update))) (default [] (fs !! fullPath)))
      as [e|c] eqn:E.
    + rewrite (rewrite_file_throw _ _ _ _ E), Hmiss. simpl.
      by rewrite lookup_insert_eq.
    + rewrite (rewrite_file_ok _ _ _ _ E). simpl. by rewrite lookup_insert_eq.
  - rewrite H, str_eqb_refl. intros p Hp.
    pose proof (writes_only_updateEnvVars config (fun q => q = fullPath)
                  fullPath (spec update) portOffset eq_refl fs) as [_ Hframe].
    by apply Hframe.
  - rewrite H, (str_eqb_ne (js "append") (js "env_vars")) by done.
    rewrite (str_eqb_ne (js "append") (js "replace")) by done.
    rewrite str_eqb_refl. unfold bind, lift. intros e -> _. done.
  - rewrite H, (str_eqb_ne (js "append") (js "env_vars")) by done.
    rewrite (str_eqb_ne (js "append") (js "replace")) by done.
    rewrite str_eqb_refl. unfold bind, lift. intros payload ->.
    unfold appendFile. by rewrite Hmiss.
Qed.

(** The three strategies on an empty file system, and an [append] rule in
    a missing directory. *)
Lemma C5_witness :
  processFileUpdate C5_config (git_at 1)
    (mkFileUpdate (js "a.yml") (js "replace") (js "new") (Some (js "old"))
       (Some (js "new"))) (js "f1") (js "/w") 1 10 ∅ = (inr tt, ∅) /\
  is_Some (snd (processFileUpdate C5_config (git_at 1)
                  (mkFileUpdate (js "b.env") (js "env_vars") (js "API_PORT")
                     None None) (js "f1") (js "/w") 1 10 ∅)
           !! js "/w/b.env") /\
  processFileUpdate C5_config (git_at 1)
    (mkFileUpdate (js "c.txt") (js "append") (js "port {{API_PORT}}") None None)
    (js "f1") (js "/w") 1 10 ∅
  = (inr tt, {[ js "/w/c.txt" := LF :: js "port 3010" ]}) /\
  @processFileUpdate C5_config (git_at 1) C5_directories
    (mkFileUpdate (js "config/c.txt") (js "append") (js "port {{API_PORT}}")
       None None)
    (js "f1") (js "/w") 1 10 ∅
  = (inl ENOENT, ∅).
Proof.
  split; [|split; [|split]].
  - by apply (C5_missing_file_asymmetry every_directory C5_config (git_at 1)
                (mkFileUpdate (js "a.yml") (js "replace") (js "new")
                   (Some (js "old")) (Some (js "new")))
                (js "f1") (js "/w") 1 10 ∅).
  - by apply (C5_missing_file_asymmetry every_directory C5_config (git_at 1)
                (mkFileUpdate (js "b.env") (js "env_vars") (js "API_PORT")
                   None None) (js "f1") (js "/w") 1 10 ∅).
  - etransitivity.
    + exact (proj2 (proj2 (proj2 (C5_missing_file_asymmetry every_directory
                                    C5_config (git_at 1)
                                    (mkFileUpdate (js "c.txt") (js "append")
                                       (js "port {{API_PORT}}") None None)
                                    (js "f1") (js "/w") 1 10 ∅ eq_refl eq_refl))
                      eq_refl) (js "port 3010") eq_refl).
    + reflexivity.
  - etransitivity.
    + exact (proj2 (proj2 (proj2 (C5_missing_file_asymmetry C5_directories
                                    C5_config (git_at 1)
                                    (mkFileUpdate (js "config/c.txt")
                                       (js "append") (js "port {{API_PORT}}")
                                       None None)
                                    (js "f1") (js "/w") 1 10 ∅ eq_refl eq_refl))
                      eq_refl) (js "port 3010") eq_refl).
    + reflexivity.
Defined.




(** C7 as stated fails: a pattern that does not compile, or a rule parsed
    without replacement, stops the batch before the rule that follows. *)
Lemma C7_counterexample :
  RegExp_new (Some (js "**")) true false = inl SyntaxError /\
  applyUpdates C7_config (git_at 1) (js "f1") (js "/w") 1 10 C7_files
    = (inl SyntaxError, C7_files) /\
  (exists cfg,
     parseConfig (nl ["FILE_UPDATES=("; "a.txt|replace|x"; "b.txt|append|later"; ")"]%string)
       = inr cfg /\ fileUpdates cfg = fileUpdates C7_config_missing) /\
  applyUpdates C7_config_missing (git_at 1) (js "f1") (js "/w") 1 10 C7_files
    = (inl TypeError, C7_files) /\
  fst (applyUpdates C7_config (git_at 1) (js "f1") (js "/w") 1 10 C7_files)
    <> inr tt /\
  snd (applyUpdates C7_config (git_at 1) (js "f1") (js "/w") 1 10 C7_files)
    !! js "/w/b.txt" = None.
Proof.
  split; [by vm_compute|]. split; [reflexivity|].
  split; [eexists; split; [vm_compute; reflexivity|by vm_compute]|].
  split; [reflexivity|]. split; by vm_compute.
Qed.

(** C7, as the code has it: nothing catches what a rule throws.  A
    [replace] rule on an existing file that has no replacement, or whose
    pattern the expression parser rejects (a quantifier with nothing to
    repeat, an unmatched closing parenthesis, a backslash at the end),
    stops the batch with an exception, the files being as the earlier
    rules left them: a TypeError for the missing replacement and a
    SyntaxError for the pattern when git answers and the replacement
    renders, and otherwise what git or the rendering throws. *)
Theorem C7_faulty_replace_aborts_batch
    (directories : Directories) (config : Config) (git : GitManager)
    (worktreeName worktreeDir : jsstring) (worktreeIndex portOffset : Z)
    (pre post : list FileUpdate) (bad : FileUpdate) (fs fs1 : Files)
    (content : jsstring) :
  fileUpdates config = pre ++ bad :: post ->
  for_each pre
    (fun u => processFileUpdate config git u worktreeName worktreeDir
                worktreeIndex portOffset) fs = (inr tt, fs1) ->
  updateType bad = js "replace" ->
  fs1 !! path_join worktreeDir (filePath bad) = Some content ->
  replacement bad = None
  \/ RegExp_new (searchPattern bad) true false = inl SyntaxError ->
  exists e,
    applyUpdates config git worktreeName worktreeDir worktreeIndex portOffset
      fs = (inl e, fs1) /\
    (forall index,
       getWorktreeIndex git worktreeName = inr index ->
       (replacement bad = None -> e = TypeError) /\
       (forall r,
          substituteTemplate config (replacement bad) worktreeName
            worktreeIndex (index * portOffsetIncrement config) = inr r ->
          e = SyntaxError)).
Proof.
  intros Hrules Hpre Htype Hfile Hbad.
  assert (forall e,
    processFileUpdate config git bad worktreeName worktreeDir worktreeIndex
      portOffset fs1 = (inl e, fs1) ->
    applyUpdates config git worktreeName worktreeDir worktreeIndex portOffset fs
    = (inl e, fs1)) as Habort.
  { intros e Hrun. unfold applyUpdates. rewrite Hrules.
    unfold bind at 1. unfold bind at 1.
    rewrite (for_each_app _ _ _ _ _ Hpre). cbn [for_each].
    unfold bind at 1. by rewrite Hrun. }
  assert (
    processFileUpdate config git bad worktreeName worktreeDir worktreeIndex
      portOffset fs1 =
    bind (lift (getWorktreeIndex git worktreeName))
      (fun index =>
    bind (lift (substituteTemplate config (replacement bad) worktreeName
                  worktreeIndex (index * portOffsetIncrement config)))
      (fun s => bind (lift (RegExp_new (searchPattern bad) true false))
                  (fun regex => writeFile (path_join worktreeDir (filePath bad))
                                  (replace content regex s)))) fs1) as Hrun.
  { unfold processFileUpdate. rewrite Htype.
    rewrite (str_eqb_ne (js "replace") (js "env_vars")) by done.
    rewrite str_eqb_refl.
    unfold replaceInFile, calculatePortOffset.
    unfold bind at 1. unfold pathExists. rewrite Hfile.
    rewrite bool_decide_eq_true_2 by eauto.
    unfold bind at 1. unfold readFile. rewrite Hfile.
    unfold bind, lift, ret.
    by destruct (getWorktreeIndex git worktreeName). }
  unfold bind, lift in Hrun.
  destruct (getWorktreeIndex git worktreeName) as [e0|index] eqn:Hgit.
  { exists e0. split; [by apply Habort|done]. }
  destruct (substituteTemplate config (replacement bad) worktreeName
              worktreeIndex (index * portOffsetIncrement config))
    as [e1|r] eqn:Hr.
  { exists e1. split; [by apply Habort|].
    intros ? [= <-]. rewrite Hr. split; [|done].
    intros Hnone. rewrite Hnone in Hr. cbn in Hr. congruence. }
  destruct Hbad as [Hnone|Hre].
  { rewrite Hnone in Hr. cbn in Hr. done. }
  rewrite Hre in Hrun.
  exists SyntaxError. split; [by apply Habort|].
  intros ? [= <-]. split; [|done].
  intros Hnone. rewrite Hnone in Hr. cbn in Hr. done.
Qed.

(** The pattern [**] on an existing file. *)
Lemma C7_witness :
  exists e,
    applyUpdates C7_config (git_at 1) (js "f1") (js "/w") 1 10 C7_files
    = (inl e, C7_files) /\
    (forall index,
       getWorktreeIndex (git_at 1) (js "f1") = inr index ->
       (Some (js "x") = None -> e = TypeError) /\
       (forall r,
          substituteTemplate C7_config (Some (js "x")) (js "f1") 1
            (index * portOffsetIncrement C7_config) = inr r ->
          e = SyntaxError)).
Proof.
  refine (C7_faulty_replace_aborts_batch every_directory C7_config (git_at 1)
            (js "f1") (js "/w") 1 10 [] _
            (mkFileUpdate (js "a.txt") (js "replace") (js "x") (Some (js "**"))
               (Some (js "x")))
            C7_files C7_files (js "text") eq_refl eq_refl eq_refl _ _).
  - reflexivity.
  - right. by vm_compute.
Defined.











(** ** Further properties of the code *)

(** X1 ([GitManager.getWorktreeIndex], [GitManager.getWorktreeNames]).
    The index of a worktree is its place in the list of names that
    [getWorktreeNames] returns, counted from 1 (the place of the first
    name equal to it); a name that is not in the list gets the number of
    listed names plus one, the next free index. *)
Theorem X1_index_is_place_among_names
    (execa : Git.Execa) (names : list jsstring) (worktreeName : jsstring) :
  Git.getWorktreeNames execa = inr names ->
  (forall i : nat,
     names !! i = Some worktreeName -> ~ In worktreeName (take i names) ->
     Git.getWorktreeIndex execa worktreeName = inr (Z.of_nat i + 1)) /\
  (~ In worktreeName names ->
   Git.getWorktreeIndex execa worktreeName
   = inr (Z.of_nat (length names) + 1)).
Proof.
  intros Hn. rewrite (getWorktreeIndex_rank execa names worktreeName Hn).
  split.
  - intros i Hi Hbefore. by rewrite (rank_found names worktreeName i).
  - intros Hmissing. by rewrite rank_missing.
Qed.

(** At the repository of the tests: [feature2] is the second name, and
    [new-feature], which is not listed, gets the index 4. *)
Lemma X1_witness :
  Git.getWorktreeNames X1_execa
  = inr [js "feature1"; js "feature2"; js "bugfix"] /\
  Git.getWorktreeIndex X1_execa (js "feature2") = inr 2 /\
  Git.getWorktreeIndex X1_execa (js "new-feature") = inr 4.
Proof.
  split; [reflexivity|]. split.
  - refine (proj1 (X1_index_is_place_among_names X1_execa
                     [js "feature1"; js "feature2"; js "bugfix"]
                     (js "feature2") eq_refl) 1%nat eq_refl _).
    cbn [take In]. intros [H|[]]. discriminate H.
  - refine (proj2 (X1_index_is_place_among_names X1_execa
                     [js "feature1"; js "feature2"; js "bugfix"]
                     (js "new-feature") eq_refl) _).
    cbn [In]. intros [H|[H|[H|[]]]]; discriminate H.
Defined.

(** X2 ([GitManager.getWorktreeIndex]).  Two names get different indices
    as soon as one of them is listed: no listed worktree shares its
    index with another name, listed or not. *)
Theorem X2_listed_names_have_distinct_indices
    (execa : Git.Execa) (names : list jsstring) (n1 n2 : jsstring)
    (i1 i2 : Z) :
  Git.getWorktreeNames execa = inr names ->
  In n1 names -> n1 <> n2 ->
  Git.getWorktreeIndex execa n1 = inr i1 ->
  Git.getWorktreeIndex execa n2 = inr i2 ->
  i1 <> i2.
Proof.
  intros Hn Hin Hne.
  rewrite !(getWorktreeIndex_rank execa names _ Hn).
  intros [= <-] [= <-] Heq. by apply Hne, (rank_inj names).
Qed.

Lemma X2_witness :
  Git.getWorktreeIndex X1_execa (js "feature2") = inr 2 /\
  Git.getWorktreeIndex X1_execa (js "new-feature") = inr 4 /\
  (2 : Z) <> 4.
Proof.
  split; [reflexivity|]. split; [reflexivity|].
  exact (X2_listed_names_have_distinct_indices X1_execa
           [js "feature1"; js "feature2"; js "bugfix"]
           (js "feature2") (js "new-feature") 2 4 eq_refl
           (or_intror (or_introl eq_refl))
           (fun H => ltac:(discriminate H)) eq_refl eq_refl).
Defined.

(** X3 ([GitManager.getWorktreeIndex],
    [EnvironmentUpdater.calculatePortOffset]).  The index is at least 1
    and at most the number of listed names plus one; hence, with a
    positive increment, the port offset of a worktree is at least the
    increment: no worktree is given the base ports.  The offset is the
    product of the index and the increment, for an increment and a
    product that a JavaScript number holds exactly. *)
Theorem X3_index_at_least_one
    (config : Config) (execa : Git.Execa) (names : list jsstring)
    (worktreeName : jsstring) (index : Z) (fs : Files) :
  Git.getWorktreeNames execa = inr names ->
  Git.getWorktreeIndex execa worktreeName = inr index ->
  safe_integer (portOffsetIncrement config) = true ->
  safe_integer (index * portOffsetIncrement config) = true ->
  1 <= index <= Z.of_nat (length names) + 1 /\
  calculatePortOffset config (GitManager_new execa) worktreeName fs
  = (inr (index * portOffsetIncrement config), fs) /\
  (0 < portOffsetIncrement config ->
   portOffsetIncrement config <= index * portOffsetIncrement config).
Proof.
  intros Hn Hi _ _.
  pose proof (getWorktreeIndex_rank execa names worktreeName Hn) as Hr.
  rewrite Hi in Hr. injection Hr as ->.
  pose proof (rank_bounds names worktreeName) as Hb.
  split; [done|]. split.
  - unfold calculatePortOffset, GitManager_new, bind, lift, ret.
    cbn [getWorktreeIndex]. by rewrite Hi.
  - intros Hinc. nia.
Qed.

Lemma X3_witness :
  1 <= 2 <= Z.of_nat 3 + 1 /\
  calculatePortOffset C1_config (GitManager_new X1_execa) (js "feature2") ∅
  = (inr (2 * 10), ∅) /\
  (0 < 10 -> 10 <= 2 * 10).
Proof.
  exact (X3_index_at_least_one C1_config X1_execa
           [js "feature1"; js "feature2"; js "bugfix"] (js "feature2") 2 ∅
           eq_refl eq_refl eq_refl eq_refl).
Defined.

(** X4 ([GitManager.getWorktreeNames], [GitManager.getProjectName],
    [GitManager.getMainWorktreeDir]).  Round trip with the directory
    names that [createWorktree] makes: when the main worktree is
    [parent/project] and the other worktrees are the directories
    [parent/project-name], listed by git one per line with the path
    first, [getWorktreeNames] returns exactly the names, in the order of
    the listing (names, project and parent directory without white space,
    names and project without slash). *)
Theorem X4_names_of_sibling_directories
    (execa : Git.Execa) (parent projectName mainInfo : jsstring)
    (worktrees : list (jsstring * jsstring)) :
  projectName <> [] ->
  no_ws parent = true ->
  no_ws projectName = true -> no_slash projectName = true ->
  no_lf mainInfo = true ->
  Forall (fun w => no_ws (fst w) = true /\ no_slash (fst w) = true
                   /\ no_lf (snd w) = true) worktrees ->
  execa (js "git") [js "rev-parse"; js "--show-toplevel"]
  = inr (parent ++ js "/" ++ projectName) ->
  execa (js "git") [js "worktree"; js "list"]
  = inr (join_with LF
           (listing_line (parent ++ js "/" ++ projectName) mainInfo
            :: map (fun w => listing_line (sibling parent projectName (fst w))
                               (snd w)) worktrees)) ->
  Git.getWorktreeNames execa = inr (map fst worktrees).
Proof.
  intros Hne Hparent HP HPs Hinfo Hw Htop Hlist.
  assert (no_ws (parent ++ js "/" ++ projectName) = true) as Hmain.
  { rewrite !no_ws_app. by rewrite Hparent, HP. }
  unfold Git.getWorktreeNames, Git.getProjectName, Git.getMainWorktreeDir.
  rewrite Htop, Hlist. rewrite basename_last by done.
  rewrite split_join_lines; cycle 1.
  { constructor; [by apply listing_line_no_lf|].
    apply Forall_map. eapply Forall_impl; [exact Hw|].
    intros [name info] (Hn & Hs & Hi). cbn [fst snd] in *.
    apply listing_line_no_lf; [|done].
    unfold sibling. rewrite !no_ws_app. by rewrite Hparent, HP, Hn. }
  cbn [hd fold_left]. rewrite listing_line_path by done.
  f_equal. unfold Git.namesStep at 2. rewrite listing_line_path by done.
  rewrite str_eqb_refl.
  apply (sibling_names projectName _ parent); try done.
  eapply Forall_impl; [exact Hw|]. by intros w (? & ? & _).
Qed.

Lemma X4_witness :
  Git.getWorktreeNames X1_execa
  = inr (map fst [(js "feature1", js "efgh5678 [feature1]");
                  (js "feature2", js "ijkl9012 [feature2]");
                  (js "bugfix", js "mnop3456 [bugfix]")]).
Proof.
  refine (X4_names_of_sibling_directories X1_execa (js "/Users/test")
            (js "my-project") (js "abcd1234 [main]")
            [(js "feature1", js "efgh5678 [feature1]");
             (js "feature2", js "ijkl9012 [feature2]");
             (js "bugfix", js "mnop3456 [bugfix]")]
            _ eq_refl eq_refl eq_refl eq_refl _ eq_refl eq_refl).
  - discriminate.
  - repeat constructor.
Defined.

(** X5 ([GitManager.getWorktreeIndex]).  A name that holds a slash is
    never found in the listing, because the names are taken from the last
    segment of the paths: its index is always the number of listed names
    plus one, also when its own worktree is listed. *)
Theorem X5_name_with_slash_is_never_found
    (execa : Git.Execa) (names : list jsstring) (worktreeName : jsstring) :
  In "/"%char worktreeName ->
  Git.getWorktreeNames execa = inr names ->
  Git.getWorktreeIndex execa worktreeName
  = inr (Z.of_nat (length names) + 1).
Proof.
  intros Hslash Hn.
  rewrite (getWorktreeIndex_rank execa names worktreeName Hn).
  f_equal. apply rank_missing. intros Hin.
  pose proof (getWorktreeNames_no_slash execa names Hn) as Hall.
  rewrite Forall_forall in Hall. specialize (Hall worktreeName).
  assert (no_slash worktreeName = true) as Hno.
  { apply Hall. by apply list_elem_of_In. }
  unfold no_slash in Hno. rewrite forallb_forall in Hno.
  specialize (Hno _ Hslash). by rewrite Ascii.eqb_refl in Hno.
Qed.

(** The worktree of the branch [fix/login] is listed as [login]; the
    branch name gets the index 2, not 1. *)
Lemma X5_witness :
  Git.getWorktreeNames X5_execa = inr [js "login"] /\
  Git.getWorktreeIndex X5_execa (js "fix/login") = inr (Z.of_nat 1 + 1).
Proof.
  split; [reflexivity|].
  refine (X5_name_with_slash_is_never_found X5_execa [js "login"]
            (js "fix/login") _ eq_refl).
  cbn. tauto.
Defined.

(** X6 ([EnvironmentUpdater.updateEnvironmentFiles],
    [GitManager.getWorktreeIndex]).  When one of the two git commands
    fails, [updateEnvironmentFiles] throws what the command threw and
    no file is created or changed. *)
Theorem X6_git_failure_writes_nothing
    (config : Config) (execa : Git.Execa) (worktreeName worktreeDir : jsstring)
    (fs : Files) (e : exn) :
  (execa (js "git") [js "rev-parse"; js "--show-toplevel"] = inl e ->
   updateEnvironmentFiles config (GitManager_new execa) worktreeName
     worktreeDir fs = (inl e, fs)) /\
  (forall toplevel : jsstring,
     execa (js "git") [js "rev-parse"; js "--show-toplevel"] = inr toplevel ->
     execa (js "git") [js "worktree"; js "list"] = inl e ->
     updateEnvironmentFiles config (GitManager_new execa) worktreeName
       worktreeDir fs = (inl e, fs)).
Proof.
  unfold updateEnvironmentFiles, GitManager_new, bind, lift.
  cbn [getWorktreeIndex]. unfold Git.getWorktreeIndex, Git.getProjectName.
  split.
  - by intros ->.
  - by intros toplevel -> ->.
Qed.

Lemma X6_witness :
  updateEnvironmentFiles C1_config (GitManager_new X6_execa) (js "a")
    (js "/w") C1_files = (inl GitError, C1_files).
Proof.
  exact (proj1 (X6_git_failure_writes_nothing C1_config X6_execa (js "a")
                  (js "/w") C1_files GitError) eq_refl).
Defined.


(** X8 ([EnvironmentUpdater.updateEnvVars],
    [EnvironmentUpdater.updatePortVariables],
    [EnvironmentUpdater.updateContainerNames]: the statement that their
    loops share).  Reading back what an upsert wrote: for a variable
    whose name is made of letters, digits and underscores and a value
    without [$] and line terminator, the upsert succeeds, the new content
    has the line [k=v], every line of it that assigns [k] is that line,
    and the lines that assign any other such variable are the same as
    before, in the same order. *)
Theorem X8_upsert_reads_back (content k v : jsstring) :
  forallb is_ident_char k = true -> is_plain v = true ->
  exists content',
    upsert content k v = inr content' /\
    In (k ++ js "=" ++ v) (lines content') /\
    (forall l, In l (lines content') -> is_assignment k l = true ->
               l = k ++ js "=" ++ v) /\
    (forall w, forallb is_ident_char w = true -> w <> k ->
               List.filter (is_assignment w) (lines content')
               = List.filter (is_assignment w) (lines content)).
Proof.
  intros Hk Hv. exists (set_variable content k v).
  split; [by apply upsert_set_variable|].
  split; [by apply line_created|]. split.
  - intros l. by apply assigned_lines_set_variable.
  - intros w Hw Hne. by apply other_lines_set_variable.
Qed.

Lemma X8_witness :
  exists content',
    upsert (nl ["NAME=app"; "DB_PORT=1"; "DB_PORT=2"]%string) (js "DB_PORT")
      (js "5442") = inr content' /\
    In (js "DB_PORT" ++ js "=" ++ js "5442") (lines content') /\
    (forall l, In l (lines content') ->
               is_assignment (js "DB_PORT") l = true ->
               l = js "DB_PORT" ++ js "=" ++ js "5442") /\
    (forall w, forallb is_ident_char w = true -> w <> js "DB_PORT" ->
               List.filter (is_assignment w) (lines content')
               = List.filter (is_assignment w)
                   (lines (nl ["NAME=app"; "DB_PORT=1"; "DB_PORT=2"]%string))).
Proof.
  exact (X8_upsert_reads_back
           (nl ["NAME=app"; "DB_PORT=1"; "DB_PORT=2"]%string) (js "DB_PORT")
           (js "5442") eq_refl eq_refl).
Defined.



(** X10 ([EnvironmentUpdater.substituteTemplate]).  With port variables
    that are identifiers, rendering leaves a template without opening
    brace as it is, whatever the worktree name; and, for a worktree name
    without [$] and opening brace, it renders a template made of text
    without opening brace and of placeholders [{{k}}] piece by piece:
    text stays, [{{WORKTREE_NAME}}] becomes the name, [{{WORKTREE_INDEX}}]
    the index, the placeholder of a port variable the port plus the
    offset, and a placeholder that names none of these stays as it is
    (the index, the offset, the base ports and the shifted ports being
    integers that a JavaScript number holds exactly). *)
Theorem X10_template_rendered_piece_by_piece
    (config : Config) (worktreeName : jsstring)
    (worktreeIndex portOffset : Z) :
  ports_wf config = true ->
  (forall template,
     no_open_brace template = true ->
     substituteTemplate config (Some template) worktreeName worktreeIndex
       portOffset = inr template) /\
  (no_dollar worktreeName = true -> no_open_brace worktreeName = true ->
   safe_integer worktreeIndex = true ->
   ports_safe (portMappings config) portOffset = true ->
   forall pieces,
     forallb piece_ok pieces = true ->
     substituteTemplate config (Some (unpieces pieces)) worktreeName
       worktreeIndex portOffset
     = inr (flat_map
              (render_piece (portMappings config) worktreeName worktreeIndex
                 portOffset) pieces)).
Proof.
  intros Hwf. split.
  - intros template Ht. rewrite (substituteTemplate_render config Hwf).
    unfold render. rewrite (replace_plain _ _ template) by done.
    rewrite (replace_plain _ _ template) by done.
    f_equal. by apply port_rounds_plain.
  - intros Hd Hb _ _ pieces Hps.
    rewrite (substituteTemplate_render config Hwf).
    f_equal. by apply render_pieces.
Qed.

Lemma X10_witness :
  substituteTemplate X9_config (Some (js "plain text")) (js "fix$&") 2 20
  = inr (js "plain text") /\
  substituteTemplate X9_config
    (Some (js "app-{{WORKTREE_NAME}}-{{WORKTREE_INDEX}}:{{API_PORT}}/{{OTHER}}"))
    (js "feature") 2 20
  = inr (js "app-feature-2:3020/{{OTHER}}").
Proof.
  destruct (X10_template_rendered_piece_by_piece X9_config (js "fix$&") 2 20
              eq_refl) as [H1 _].
  destruct (X10_template_rendered_piece_by_piece X9_config (js "feature") 2 20
              eq_refl) as [_ H2].
  split.
  - exact (H1 (js "plain text") eq_refl).
  - exact (H2 eq_refl eq_refl eq_refl eq_refl X9_pieces eq_refl).
Defined.

(** X11 ([ConfigLoader.parseArray]).  Round trip with the layout of the
    README: when the first [NAME=(] of the text opens a block that has
    one line for each item, the item between double quotes after white
    space, and then the closing parenthesis, [parseArray] returns exactly
    the items, in order, whatever precedes and follows the block (items
    without line feed and closing parenthesis; in the code the name is
    one of the four array names). *)
Theorem X11_parseArray_reads_the_items_back
    (pre post name indent : jsstring) (items : list jsstring) :
  forallb is_ident_char name = true ->
  indexOf (pre ++ name ++ js "=(") (name ++ js "=(") = Some (length pre) ->
  is_indent indent = true ->
  Forall (fun item => no_lf item = true /\ no_close_paren item = true) items ->
  parseArray (pre ++ array_block name indent items ++ post) name = items.
Proof. intros _. apply parseArray_array_block. Qed.

Lemma X11_witness :
  parseArray X11_content (js "PORT_MAPPINGS")
  = [js "API_PORT:3000"; js "DB_PORT:5432"].
Proof.
  refine (X11_parseArray_reads_the_items_back
            (nl ["# ports"; "START_CONTAINERS=no"; ""]%string)
            (LF :: array_block (js "ENV_FILES") (js "  ") [js ".env"])
            (js "PORT_MAPPINGS") (js "    ")
            [js "API_PORT:3000"; js "DB_PORT:5432"] eq_refl _ eq_refl _).
  - by vm_compute.
  - repeat constructor.
Defined.

(** X12 ([ConfigLoader.parseArray]).  The block of an array ends at the
    first closing parenthesis after [NAME=(]: what follows it is not
    read, so an item that holds a closing parenthesis is cut there and
    the items after it are lost. *)
Theorem X12_array_ends_at_first_closing_parenthesis
    (pre name body rest1 rest2 : jsstring) :
  forallb is_ident_char name = true ->
  indexOf (pre ++ name ++ js "=(") (name ++ js "=(") = Some (length pre) ->
  body <> [] -> no_close_paren body = true ->
  parseArray (pre ++ name ++ js "=(" ++ body ++ js ")" ++ rest1) name
  = parseArray (pre ++ name ++ js "=(" ++ body ++ js ")" ++ rest2) name.
Proof.
  intros _ Hfirst Hne Hb.
  rewrite !(parseArray_block _ name body); [done|..];
    by apply find_block_first.
Qed.

(** The rule [a.yml|replace|name: (x)|name: y] is cut after [(x] and the
    rule after it is lost. *)
Lemma X12_witness :
  parseArray X12_content (js "FILE_UPDATES")
  = parseArray
      (js "FILE_UPDATES=("
       ++ (LF :: js "  " ++ DQUOTE :: js ".env|env_vars|API_PORT"
           ++ DQUOTE :: LF :: js "  " ++ DQUOTE :: js "a.yml|replace|name: (x")
       ++ js ")" ++ []) (js "FILE_UPDATES") /\
  parseArray X12_content (js "FILE_UPDATES")
  = [js ".env|env_vars|API_PORT"; js "a.yml|replace|name: (x"].
Proof.
  split; [|by vm_compute].
  refine (X12_array_ends_at_first_closing_parenthesis [] (js "FILE_UPDATES")
            (LF :: js "  " ++ DQUOTE :: js ".env|env_vars|API_PORT"
             ++ DQUOTE :: LF :: js "  " ++ DQUOTE :: js "a.yml|replace|name: (x")
            _ [] eq_refl eq_refl _ eq_refl).
  discriminate.
Defined.

(** X13 ([ConfigLoader.parseConfig]: the loops over [PORT_MAPPINGS] and
    the line [PORT_OFFSET_INCREMENT]).  A number written in decimal is
    read back as that number: the item [NAME:z] stores [z] under [NAME]
    (a name that is not empty, has no colon and is not [__proto__], an
    assignment to which stores nothing), and the line
    [PORT_OFFSET_INCREMENT=z] sets the increment to [z], for every integer
    [z] that a JavaScript number holds exactly. *)
Theorem X13_decimal_numbers_are_read_back
    (pm : object number) (c : Config) (k : jsstring) (z : Z) :
  k <> [] -> k <> js "__proto__" -> no_colon k = true -> Z.abs z < 2 ^ 53 ->
  addPortMapping pm (k ++ js ":" ++ toString (Num z)) = obj_set pm k (Num z) /\
  own_get (addPortMapping pm (k ++ js ":" ++ toString (Num z))) k
  = Some (Num z) /\
  parsePortOffsetIncrement (js "PORT_OFFSET_INCREMENT=" ++ toString (Num z)) c
  = set_portOffsetIncrement z c.
Proof.
  intros Hk Hp Hc _. rewrite addPortMapping_decimal by done.
  split; [done|]. split; [by apply own_get_set_eq|].
  apply parsePortOffsetIncrement_decimal.
Qed.

Lemma X13_witness :
  addPortMapping [] (js "API_PORT" ++ js ":" ++ toString (Num 3000))
  = obj_set [] (js "API_PORT") (Num 3000) /\
  own_get (addPortMapping [] (js "API_PORT" ++ js ":" ++ toString (Num 3000)))
    (js "API_PORT") = Some (Num 3000) /\
  parsePortOffsetIncrement
    (js "PORT_OFFSET_INCREMENT=" ++ toString (Num 3000)) loadDefaultConfig
  = set_portOffsetIncrement 3000 loadDefaultConfig.
Proof.
  refine (X13_decimal_numbers_are_read_back [] loadDefaultConfig
            (js "API_PORT") 3000 _ _ eq_refl eq_refl); discriminate.
Defined.

(** X14 ([ConfigLoader.parseConfig]).  The tables of every configuration
    that [parseConfig] returns are maps with well-formed entries: no
    variable occurs twice in the port mappings or in the container names,
    every variable is a non-empty text without colon, and every container
    name template is a non-empty text without colon. *)
Theorem X14_parsed_tables_are_maps (content : jsstring) :
  exists cfg,
    parseConfig content = inr cfg /\
    NoDup (map fst (portMappings cfg)) /\
    Forall (fun e => key_ok (fst e)) (portMappings cfg) /\
    NoDup (map fst (containerNames cfg)) /\
    Forall container_ok (containerNames cfg).
Proof.
  destruct (parseConfig_total content) as [cfg Hcfg]. exists cfg.
  split; [done|].
  pose (I := fun c : Config =>
    (NoDup (map fst (portMappings c))
     /\ Forall (fun e => key_ok (fst e)) (portMappings c))
    /\ NoDup (map fst (containerNames c))
       /\ Forall container_ok (containerNames c)).
  assert (I cfg) as [[? ?] [? ?]]; [|done].
  apply (parseConfig_invariant I) with (content := content); try done.
  - intros c item [Hpm Hcn]. split; [|done]. cbn [portMappings set_portMappings].
    by apply addPortMapping_keeps.
  - intros c item [Hpm Hcn]. split; [done|].
    cbn [containerNames set_containerNames].
    by apply addContainerName_keeps.
  - split; split; constructor.
Qed.

(** X15 ([ConfigLoader.parseConfig]: the loop over [FILE_UPDATES]).  In
    every configuration that [parseConfig] returns, a rule has a search
    pattern exactly when it has a replacement; such a rule is a
    [replace] rule and its [spec] is the replacement. *)
Theorem X15_parsed_rules_are_well_formed (content : jsstring) :
  exists cfg,
    parseConfig content = inr cfg /\ Forall rule_ok (fileUpdates cfg).
Proof.
  destruct (parseConfig_total content) as [cfg Hcfg]. exists cfg.
  split; [done|].
  apply (parseConfig_invariant (fun c => Forall rule_ok (fileUpdates c)))
    with (content := content); try done.
  intros c item Hc. cbn [fileUpdates set_fileUpdates].
  by apply addFileUpdate_keeps.
Qed.

(** X16 ([ConfigLoader.loadConfig]).  [loadConfig] writes no file.  It
    throws only what [git worktree list] throws; when [.wt.conf] is
    missing in the main worktree the configuration stays as it was; when
    the file is there the new configuration is the one parsed from it,
    whatever the configuration was. *)
Theorem X16_loadConfig_reads_the_main_worktree
    (execa : Git.Execa) (config : Config) (fs : Files) :
  snd (loadConfig execa config fs) = fs /\
  match Git.getMainWorktreeDir execa with
  | inl e => fst (loadConfig execa config fs) = inl e
  | inr mainDir =>
      match fs !! path_join mainDir (js ".wt.conf") with
      | None => fst (loadConfig execa config fs) = inr config
      | Some content =>
          fst (loadConfig execa config fs) = parseConfig content /\
          exists cfg, parseConfig content = inr cfg
      end
  end.
Proof.
  unfold loadConfig, bind, lift, pathExists, readFile, ret.
  destruct (Git.getMainWorktreeDir execa) as [e|mainDir]; [done|].
  destruct (fs !! path_join mainDir (js ".wt.conf")) as [content|] eqn:E;
    cbn [bool_decide decide_rel fst snd].
  - rewrite bool_decide_eq_true_2 by eauto. rewrite E. cbn [fst snd].
    split; [done|]. split; [done|]. apply parseConfig_total.
  - rewrite bool_decide_eq_false_2 by (by intros [? ?]). done.
Qed.

(** X17 ([ConfigLoader.parseConfig]).  A text in which no line starts,
    after trimming, with one of the six settings is parsed to the default
    configuration: comments, blank lines and unknown settings are
    ignored. *)
Theorem X17_unknown_settings_are_ignored (content : jsstring) :
  Forall (fun line => sets_nothing line = true) (split LF content) ->
  parseConfig content = inr loadDefaultConfig.
Proof.
  unfold parseConfig. generalize loadDefaultConfig.
  induction (split LF content) as [|line ls IH]; intros c Hall; [done|].
  inversion Hall; subst. cbn [fold_throw].
  rewrite parseLine_nothing by done. by apply IH.
Qed.

Lemma X17_witness : parseConfig X17_content = inr loadDefaultConfig.
Proof.
  apply X17_unknown_settings_are_ignored. repeat constructor.
Defined.

(** X18 ([GitManager.getWorktreeIndex]).  The index of a worktree is
    its place in the listing and nothing else: a listed name keeps its
    index when worktrees are listed after it; and when a worktree is
    removed from the listing, the next new worktree, listed last, gets
    the index that the worktree listed before it had until then. *)
Theorem X18_index_is_place_in_listing
    (execa execa' : Git.Execa) (names : list jsstring) :
  Git.getWorktreeNames execa = inr names ->
  (forall (more : list jsstring) (n : jsstring),
     Git.getWorktreeNames execa' = inr (names ++ more) -> In n names ->
     Git.getWorktreeIndex execa' n = Git.getWorktreeIndex execa n) /\
  (forall (before after : list jsstring) (removed last new : jsstring),
     names = before ++ removed :: after ++ [last] ->
     Git.getWorktreeNames execa' = inr (before ++ after ++ [last; new]) ->
     ~ In last (before ++ removed :: after) ->
     ~ In new (before ++ after ++ [last]) ->
     Git.getWorktreeIndex execa' new = Git.getWorktreeIndex execa last).
Proof.
  intros Hn. split.
  - intros more n Hn' Hin.
    rewrite (getWorktreeIndex_rank execa names n Hn).
    rewrite (getWorktreeIndex_rank execa' _ n Hn').
    by rewrite rank_app_l.
  - intros before after removed last new -> Hn' Hlast Hnew.
    rewrite (getWorktreeIndex_rank execa _ last Hn).
    rewrite (getWorktreeIndex_rank execa' _ new Hn').
    replace (before ++ removed :: after ++ [last])
      with ((before ++ removed :: after) ++ [last])
      by (by rewrite <-app_assoc).
    replace (before ++ after ++ [last; new])
      with ((before ++ after ++ [last]) ++ [new])
      by (by rewrite <-!app_assoc).
    rewrite !rank_last by done. f_equal.
    rewrite ?length_app. cbn [length]. rewrite ?length_app. cbn [length]. lia.
Qed.

(** After [hotfix] is added, [bugfix] keeps the index 3; after [feature1]
    is removed, the new worktree [hotfix] gets the index 3 that [bugfix]
    had. *)
Lemma X18_witness :
  Git.getWorktreeIndex X18_execa_more (js "bugfix")
  = Git.getWorktreeIndex X1_execa (js "bugfix") /\
  Git.getWorktreeIndex X18_execa (js "hotfix")
  = Git.getWorktreeIndex X1_execa (js "bugfix") /\
  Git.getWorktreeIndex X1_execa (js "bugfix") = inr 3.
Proof.
  split; [|split; [|reflexivity]].
  - refine (proj1 (X18_index_is_place_in_listing X1_execa X18_execa_more
                     [js "feature1"; js "feature2"; js "bugfix"] eq_refl)
              [js "hotfix"] (js "bugfix") eq_refl _).
    cbn [In]. tauto.
  - refine (proj2 (X18_index_is_place_in_listing X1_execa X18_execa
                     [js "feature1"; js "feature2"; js "bugfix"] eq_refl)
              [] [js "feature2"] (js "feature1") (js "bugfix") (js "hotfix")
              eq_refl eq_refl _ _).
    + cbn [In app]. intros [H|[H|[]]]; discriminate H.
    + cbn [In app]. intros [H|[H|[]]]; discriminate H.
Defined.



(** X20 ([GitManager.getMainWorktreeDir], [GitManager.getProjectName],
    [ConfigLoader.loadConfig]).  [getMainWorktreeDir] returns the first
    line of the listing up to its first white space, so its result never
    holds white space: the path of a main worktree with a space in it is
    cut at the space, and [loadConfig] looks for [.wt.conf] under the cut
    path.  [getProjectName] has no such limit: it is the last segment of
    the top-level directory, spaces included. *)
Theorem X20_main_worktree_path_is_cut_at_white_space
    (execa : Git.Execa) (listing parent projectName : jsstring) :
  execa (js "git") [js "worktree"; js "list"] = inr listing ->
  execa (js "git") [js "rev-parse"; js "--show-toplevel"]
  = inr (parent ++ js "/" ++ projectName) ->
  projectName <> [] -> no_slash projectName = true ->
  (exists mainDir,
     Git.getMainWorktreeDir execa = inr mainDir /\ no_ws mainDir = true /\
     forall (config : Config) (fs : Files),
       fs !! path_join mainDir (js ".wt.conf") = None ->
       loadConfig execa config fs = (inr config, fs)) /\
  Git.getProjectName execa = inr projectName.
Proof.
  intros Hlist Htop Hne Hslash. split.
  - unfold Git.getMainWorktreeDir. rewrite Hlist. eexists.
    split; [reflexivity|]. split.
    + pose proof (split_ws_no_ws false (hd [] (split LF listing))) as H.
      unfold split_ws.
      destruct (split_ws_from false (hd [] (split LF listing))); [done|].
      by inversion H.
    + intros config fs Hfs. unfold loadConfig, bind, lift, pathExists, ret.
      unfold Git.getMainWorktreeDir. rewrite Hlist. cbv beta iota zeta.
      rewrite Hfs.
      by rewrite bool_decide_eq_false_2 by (by intros [? ?]).
  - unfold Git.getProjectName. rewrite Htop. by rewrite basename_last.
Qed.

(** The configuration file of a main worktree in [/Users/test/My
    Projects] is not found. *)
Lemma X20_witness :
  (exists mainDir,
     Git.getMainWorktreeDir X20_execa = inr mainDir /\ no_ws mainDir = true /\
     forall (config : Config) (fs : Files),
       fs !! path_join mainDir (js ".wt.conf") = None ->
       loadConfig X20_execa config fs = (inr config, fs)) /\
  Git.getProjectName X20_execa = inr (js "my-project") /\
  Git.getMainWorktreeDir X20_execa = inr (js "/Users/test/My") /\
  loadConfig X20_execa loadDefaultConfig X20_files
  = (inr loadDefaultConfig, X20_files).
Proof.
  split; [|split; [reflexivity|split; reflexivity]].
  refine (proj1 (X20_main_worktree_path_is_cut_at_white_space X20_execa _
                   (js "/Users/test/My Projects") (js "my-project")
                   eq_refl eq_refl _ eq_refl)).
  discriminate.
Defined.

(** X21 ([EnvironmentUpdater.replaceInFile]).  A [replace] rule whose
    pattern holds no syntax character and no backslash, on a file that
    exists: the file is rewritten with every occurrence of the pattern,
    taken from left to right without overlap, replaced by the rendered
    replacement (one without [$]).  A content without occurrence stays as
    it is; otherwise the text before the first occurrence stays, the
    occurrence becomes the replacement, and the rest is treated in the
    same way. *)
Theorem X21_replace_rule_with_literal_pattern
    (config : Config) (git : GitManager)
    (filePath pattern replacement worktreeName content rendered : jsstring)
    (worktreeIndex index : Z) (fs : Files) :
  forallb is_literal_char pattern = true -> pattern <> [] ->
  fs !! filePath = Some content ->
  getWorktreeIndex git worktreeName = inr index ->
  substituteTemplate config (Some replacement) worktreeName worktreeIndex
    (index * portOffsetIncrement config) = inr rendered ->
  no_dollar rendered = true ->
  let replaced := fun s => replace s (literal_re pattern) rendered in
  replaceInFile config git filePath (Some pattern) (Some replacement)
    worktreeName worktreeIndex fs
  = (inr tt, <[filePath := replaced content]> fs) /\
  (forall s, indexOf s pattern = None -> replaced s = s) /\
  (forall s n, indexOf s pattern = Some n ->
     replaced s
     = take n s ++ rendered ++ replaced (drop (n + length pattern) s)).
Proof.
  intros Hp Hne Hfs Hgit Hrender Hd replaced. split; [|split].
  - unfold replaceInFile, bind, pathExists, readFile, calculatePortOffset,
      lift, ret, writeFile. rewrite Hfs.
    rewrite bool_decide_eq_true_2 by eauto. rewrite Hgit, Hfs.
    unfold bind. cbv beta iota. rewrite Hrender.
    by rewrite (literal_regex pattern true false Hp).
  - intros s. by apply replace_absent.
  - intros s n. by apply replace_first.
Qed.

(** The rule of the README in the worktree [feature]. *)
Lemma X21_witness :
  replaceInFile X21_config (git_at 2) (js "/w/docker-compose.yml")
    (Some (js "container_name: myapp"))
    (Some (js "container_name: myapp-{{WORKTREE_NAME}}")) (js "feature") 2
    X21_files
  = (inr tt,
     <[js "/w/docker-compose.yml"
       := nl ["services:"; "  web:"; "    container_name: myapp-feature";
              "  db:"; "    image: postgres"]%string]> X21_files).
Proof.
  refine (proj1 (X21_replace_rule_with_literal_pattern X21_config (git_at 2)
                   (js "/w/docker-compose.yml") (js "container_name: myapp")
                   (js "container_name: myapp-{{WORKTREE_NAME}}")
                   (js "feature") _ (js "container_name: myapp-feature")
                   2 2 X21_files eq_refl _ eq_refl eq_refl eq_refl eq_refl)).
  discriminate.
Defined.


